(** * Carrom: physics engine, geometry kernel and shot planner

    A shallow embedding of the geometry kernel ([geometry.ts]), the physics
    engine ([src/lib/physics.ts]) and the shot planner ([carrom-ai.ts]).

    The TypeScript sources compute on the JavaScript [number] type.  The
    embedding is written once, over an interface [Num] of the arithmetic the
    sources use, and is instantiated twice:

    - at [float], Rocq's primitive IEEE 754 binary64 numbers, which is what a
      JavaScript engine computes with ([+ - * / Math.sqrt] are correctly
      rounded there and here, [NaN] and the infinities included);
    - at [R], the real numbers, which is the arithmetic the algorithms are
      designed in, and in which algebraic laws can be stated exactly.

    Loops whose trip count is a [number] computed at run time ([while] and
    [for] over a numeric bound) take a [fuel] argument and return [None] when it
    runs out.  Objects are modelled as values: every registered body owns its
    [position] and [velocity] objects. *)

From Stdlib Require Import Floats QArith ZArith List String Bool Reals Lra Lia.
From Stdlib Require Import Permutation.
Import ListNotations.

Set Implicit Arguments.
Set Warnings "-inexact-float".

(* ================================================================= *)
(** ** The [number] interface *)

(** Arithmetic, comparisons and the exact [Math] functions. *)
Class Num (N : Type) : Type := {
  lit : Q -> N;                 (* a decimal literal of the source *)
  num_add : N -> N -> N;
  num_sub : N -> N -> N;
  num_mul : N -> N -> N;
  num_div : N -> N -> N;
  num_neg : N -> N;             (* unary minus *)
  num_ltb : N -> N -> bool;     (* a < b *)
  num_leb : N -> N -> bool;     (* a <= b *)
  Math_abs : N -> N;
  Math_min : N -> N -> N;
  Math_max : N -> N -> N;
  Math_sqrt : N -> N;
  Math_ceil : N -> N
}.

(** The [Math] functions whose results the language leaves to the host. *)
Class Trig (N : Type) : Type := {
  Math_PI : N;
  Math_atan2 : N -> N -> N;
  Math_cos : N -> N;
  Math_sin : N -> N
}.

Arguments lit {N _} q%_Q.

Declare Scope num_scope.
Delimit Scope num_scope with num.
Notation "a + b" := (num_add a b) : num_scope.
Notation "a - b" := (num_sub a b) : num_scope.
Notation "a * b" := (num_mul a b) : num_scope.
Notation "a / b" := (num_div a b) : num_scope.
Notation "- a" := (num_neg a) : num_scope.
Notation "a <? b" := (num_ltb a b) : num_scope.
Notation "a <=? b" := (num_leb a b) : num_scope.
Notation "a >? b" := (num_ltb b a) : num_scope.
Notation "a >=? b" := (num_leb b a) : num_scope.

(* ----------------------------------------------------------------- *)
(** *** binary64 *)

Module F64.

Definition nan : float := (0 / 0)%float.

Definition is_nan (a : float) : bool := negb (PrimFloat.eqb a a).

Definition of_Z (z : Z) : float :=
    if (z <? 0)%Z then PrimFloat.opp (PrimFloat.of_uint63 (Uint63.of_Z (- z)))
    else PrimFloat.of_uint63 (Uint63.of_Z z).

(** A decimal literal denotes the double nearest to it; the quotient of
    two integers of magnitude below 2^53 is rounded to that same double. *)
Definition of_Q (q : Q) : float :=
    (of_Z (Qnum q) / of_Z (Zpos (Qden q)))%float.

(** [Math.max] and [Math.min]: [NaN] is contagious, and [-0 < +0]. *)
Definition max (a b : float) : float :=
    if is_nan a || is_nan b then nan
    else if PrimFloat.ltb a b then b
    else if PrimFloat.ltb b a then a
    else if PrimFloat.ltb (1 / a) 0 then b else a.

Definition min (a b : float) : float :=
    if is_nan a || is_nan b then nan
    else if PrimFloat.ltb a b then a
    else if PrimFloat.ltb b a then b
    else if PrimFloat.ltb (1 / a) 0 then a else b.

Definition two52 : float := 4503599627370496%float.

(** The sign bit of a double that is not [NaN]: [-0] is negative. *)
Definition negative (a : float) : bool :=
    PrimFloat.ltb a 0 || (PrimFloat.eqb a 0 && PrimFloat.ltb (1 / a) 0).

(** [Math.ceil]: doubles of magnitude 2^52 and above are integers already;
    below, adding and subtracting 2^52 rounds to an integer.  A zero
    result keeps the sign of the argument: [Math.ceil(-0.5)] is [-0]. *)
Definition ceil (a : float) : float :=
    if is_nan a then a
    else if PrimFloat.leb two52 (PrimFloat.abs a) then a
    else
      let r := if PrimFloat.ltb a 0
               then ((a - two52) + two52)%float
               else ((a + two52) - two52)%float in
      let c := if PrimFloat.ltb r a then (r + 1)%float else r in
      if PrimFloat.eqb c 0 then (if negative a then (-0)%float else 0%float) else c.

End F64.

#[export] Instance Num_float : Num float := {|
  lit := F64.of_Q;
  num_add := PrimFloat.add;
  num_sub := PrimFloat.sub;
  num_mul := PrimFloat.mul;
  num_div := PrimFloat.div;
  num_neg := PrimFloat.opp;
  num_ltb := PrimFloat.ltb;
  num_leb := PrimFloat.leb;
  Math_abs := PrimFloat.abs;
  Math_min := F64.min;
  Math_max := F64.max;
  Math_sqrt := PrimFloat.sqrt;
  Math_ceil := F64.ceil
|}.

(* ----------------------------------------------------------------- *)
(** *** real numbers *)

Module Real.

Definition ltb (a b : R) : bool := if Rlt_dec a b then true else false.
Definition leb (a b : R) : bool := if Rle_dec a b then true else false.

(** The least integer not below [a]. *)
Definition ceil (a : R) : R := Ropp (IZR (Int_part (Ropp a))).

(** The angle of the vector [(x, y)], in [(-PI, PI]]. *)
Definition atan2 (y x : R) : R :=
    if Rlt_dec 0 x then atan (y / x)
    else if Rlt_dec x 0 then
      (if Rle_dec 0 y then atan (y / x) + PI else atan (y / x) - PI)%R
    else if Rlt_dec 0 y then (PI / 2)%R
    else if Rlt_dec y 0 then (- PI / 2)%R
    else 0%R.

End Real.

#[export] Instance Num_R : Num R := {|
  lit := Q2R;
  num_add := Rplus;
  num_sub := Rminus;
  num_mul := Rmult;
  num_div := Rdiv;
  num_neg := Ropp;
  num_ltb := Real.ltb;
  num_leb := Real.leb;
  Math_abs := Rabs;
  Math_min := Rmin;
  Math_max := Rmax;
  Math_sqrt := R_sqrt.sqrt;
  Math_ceil := Real.ceil
|}.

#[export] Instance Trig_R : Trig R := {|
  Math_PI := PI;
  Math_atan2 := Real.atan2;
  Math_cos := Rtrigo_def.cos;
  Math_sin := Rtrigo_def.sin
|}.

(* ----------------------------------------------------------------- *)
(** *** a host for binary64

    [Math.atan2], [Math.cos] and [Math.sin] return implementation-approximated
    values.  The general theorems below hold for the real functions; the
    concrete runs on doubles use this host, which evaluates the usual series
    after argument reduction, for finite arguments. *)

Module Host.
Local Open Scope float_scope.

Definition PI : float := 0x1.921fb54442d18p+1.

Fixpoint horner_atan (n : nat) (d z2 : float) : float :=
    match n with
    | O => 1 / d
    | S k => 1 / d - z2 * horner_atan k (d + 2) z2
    end.

Definition half_angle (z : float) : float := z / (1 + PrimFloat.sqrt (1 + z * z)).

Definition atan_unit (z : float) : float :=
    let w := half_angle (half_angle z) in
    4 * (w * horner_atan 14 1 (w * w)).

Definition atan (z : float) : float :=
    if PrimFloat.leb (PrimFloat.abs z) 1 then atan_unit z
    else if PrimFloat.ltb 0 z then PI / 2 - atan_unit (1 / z)
    else - (PI / 2) - atan_unit (1 / z).

(** [Math.atan2], with the values ECMAScript fixes at zeros and
    infinities: the sign of a zero [y] is kept, and [-0] counts as a
    negative [x]. *)
Definition atan2 (y x : float) : float :=
    if F64.is_nan y || F64.is_nan x then F64.nan
    else if PrimFloat.eqb (PrimFloat.abs y) infinity
            && PrimFloat.eqb (PrimFloat.abs x) infinity then
      let q := if PrimFloat.ltb 0 x then PI / 4 else 3 * PI / 4 in
      if PrimFloat.ltb y 0 then - q else q
    else if PrimFloat.ltb 0 x then atan (y / x)
    else if PrimFloat.ltb x 0 then
      (if F64.negative y then atan (y / x) - PI else atan (y / x) + PI)
    else if PrimFloat.ltb 0 y then PI / 2
    else if PrimFloat.ltb y 0 then - (PI / 2)
    else if F64.negative x then (if F64.negative y then - PI else PI)
    else y.

Fixpoint horner_trig (n : nat) (d r2 : float) : float :=
    match n with
    | O => 1
    | S k => 1 - r2 / (d * (d + 1)) * horner_trig k (d + 2) r2
    end.

Definition reduce (a : float) : float :=
    a - F64.ceil (a / (2 * PI) - 0.5) * (2 * PI).

Definition sin (a : float) : float :=
    let r := reduce a in r * horner_trig 16 2 (r * r).

Definition cos (a : float) : float :=
    let r := reduce a in horner_trig 16 1 (r * r).

End Host.

#[export] Instance Trig_float : Trig float := {|
  Math_PI := Host.PI;
  Math_atan2 := Host.atan2;
  Math_cos := Host.cos;
  Math_sin := Host.sin
|}.


(* ================================================================= *)
(** ** Geometry kernel ([geometry.ts]) *)

Record Point (N : Type) : Type := mkPoint { x : N; y : N }.
Arguments mkPoint {N} _ _.
Arguments x {N} _.
Arguments y {N} _.

(** [Vector] has the shape of [Point]. *)
Definition Vector (N : Type) : Type := Point N.

Record Line (N : Type) : Type := mkLine { start : Point N; end_ : Point N }.
Arguments mkLine {N} _ _.
Arguments start {N} _.
Arguments end_ {N} _.

(** Running out of fuel is [None]. *)
Definition bind {A B : Type} (m : option A) (f : A -> option B) : option B :=
  match m with
  | Some a => f a
  | None => None
  end.

Notation "v <- m ;; k" := (bind m (fun v => k))
  (at level 61, m at next level, right associativity).

(** [for (const a of l) { ... }] over a body that may run out of fuel. *)
Fixpoint mapM {A B : Type} (f : A -> option B) (l : list A) : option (list B) :=
  match l with
  | [] => Some []
  | a :: l' => b <- f a ;; bs <- mapM f l' ;; Some (b :: bs)
  end.

Section Geometry.
Context {N : Type} {num : Num N}.
Local Open Scope num_scope.

Definition distance (p1 p2 : Point N) : N :=
    let dx := x p2 - x p1 in
    let dy := y p2 - y p1 in
    Math_sqrt (dx * dx + dy * dy).

(** Find intersection point of two lines (if they intersect) *)
Definition lineIntersection (line1 line2 : Line N) : option (Point N) :=
    let x1 := x (start line1) in let y1 := y (start line1) in
    let x2 := x (end_ line1) in let y2 := y (end_ line1) in
    let x3 := x (start line2) in let y3 := y (start line2) in
    let x4 := x (end_ line2) in let y4 := y (end_ line2) in
    let denom := (x1 - x2) * (y3 - y4) - (y1 - y2) * (x3 - x4) in
    (* Lines are parallel *)
    if Math_abs denom <? lit 1e-10 then None
    else
      let t := ((x1 - x3) * (y3 - y4) - (y1 - y3) * (x3 - x4)) / denom in
      let u := (- ((x1 - x2) * (y1 - y3) - (y1 - y2) * (x1 - x3))) / denom in
      if (t >=? lit 0) && (t <=? lit 1) && (u >=? lit 0) && (u <=? lit 1)
      then Some (mkPoint (x1 + t * (x2 - x1)) (y1 + t * (y2 - y1)))
      else None.

Context {trig : Trig N}.

Definition angle (from to : Point N) : N :=
    Math_atan2 (y to - y from) (x to - x from).

(** [while (angle < 0) angle += 2 * Math.PI] *)
Fixpoint raiseAngle (fuel : nat) (a : N) : option N :=
    match fuel with
    | O => None
    | S k => if a <? lit 0 then raiseAngle k (a + lit 2 * Math_PI) else Some a
    end.

(** [while (angle >= 2 * Math.PI) angle -= 2 * Math.PI] *)
Fixpoint lowerAngle (fuel : nat) (a : N) : option N :=
    match fuel with
    | O => None
    | S k => if a >=? lit 2 * Math_PI then lowerAngle k (a - lit 2 * Math_PI) else Some a
    end.

Definition normalizeAngle (fuel : nat) (a : N) : option N :=
    a' <- raiseAngle fuel a ;; lowerAngle fuel a'.

End Geometry.

(* ================================================================= *)
(** ** Physics engine ([physics.ts]) *)

Record PhysicsBody (N : Type) : Type := mkBody {
  id : string;
  position : Point N;
  velocity : Vector N;
  radius : N;
  mass : N;
  friction : N;
  restitution : N;
  isStatic : bool
}.
Arguments mkBody {N} _ _ _ _ _ _ _ _.
Arguments id {N} _.
Arguments position {N} _.
Arguments velocity {N} _.
Arguments radius {N} _.
Arguments mass {N} _.
Arguments friction {N} _.
Arguments restitution {N} _.
Arguments isStatic {N} _.

(** [Partial<PhysicsBody>]: the fields an update carries. *)
Record PartialBody (N : Type) : Type := mkPartial {
  new_id : option string;
  new_position : option (Point N);
  new_velocity : option (Vector N);
  new_radius : option N;
  new_mass : option N;
  new_friction : option N;
  new_restitution : option N;
  new_isStatic : option bool
}.
Arguments mkPartial {N} _ _ _ _ _ _ _ _.

(** The two bodies are recorded by their [id]; the source keeps references
    to the live objects. *)
Record CollisionResult (N : Type) : Type := mkCollision {
  bodyA : string;
  bodyB : string;
  normal : Vector N;
  penetration : N;
  point : Point N
}.
Arguments mkCollision {N} _ _ _ _ _.
Arguments bodyA {N} _.
Arguments bodyB {N} _.
Arguments normal {N} _.
Arguments penetration {N} _.
Arguments point {N} _.

(** [bodies] is a [Map<string, PhysicsBody>]: keys are unique and iteration
    follows insertion order. *)
Record PhysicsEngine (N : Type) : Type := mkEngine {
  bodies : list (string * PhysicsBody N);
  boardWidth : N;
  boardHeight : N;
  margin : N;
  gravity : Vector N;
  airResistance : N
}.
Arguments mkEngine {N} _ _ _ _ _ _.
Arguments bodies {N} _.
Arguments boardWidth {N} _.
Arguments boardHeight {N} _.
Arguments margin {N} _.
Arguments gravity {N} _.
Arguments airResistance {N} _.

(** *** [Map] and array primitives *)

Section Containers.
Context {V : Type}.

Fixpoint map_get (k : string) (m : list (string * V)) : option V :=
    match m with
    | [] => None
    | (k', v) :: m' => if String.eqb k k' then Some v else map_get k m'
    end.

(** [Map.prototype.set]: an existing key keeps its place. *)
Fixpoint map_set (k : string) (v : V) (m : list (string * V)) : list (string * V) :=
    match m with
    | [] => [(k, v)]
    | (k', v') :: m' =>
        if String.eqb k k' then (k', v) :: m' else (k', v') :: map_set k v m'
    end.

Fixpoint map_delete (k : string) (m : list (string * V)) : list (string * V) :=
    match m with
    | [] => []
    | (k', v') :: m' =>
        if String.eqb k k' then m' else (k', v') :: map_delete k m'
    end.

Definition map_values (m : list (string * V)) : list V := map snd m.

(** Apply [f] to every value, in place. *)
Definition map_update (f : V -> V) (m : list (string * V)) : list (string * V) :=
    map (fun kv => (fst kv, f (snd kv))) m.

End Containers.

(** [a[i] = v] on an index within the array. *)
Fixpoint array_set {A : Type} (i : nat) (v : A) (l : list A) : list A :=
  match l, i with
  | [], _ => []
  | _ :: l', O => v :: l'
  | a :: l', S i' => a :: array_set i' v l'
  end.

Section Physics.
Context {N : Type} {num : Num N}.
Local Open Scope num_scope.

Definition set_bodies (e : PhysicsEngine N) (bs : list (string * PhysicsBody N))
    : PhysicsEngine N :=
    mkEngine bs (boardWidth e) (boardHeight e) (margin e) (gravity e) (airResistance e).

Definition set_position (b : PhysicsBody N) (p : Point N) : PhysicsBody N :=
    mkBody (id b) p (velocity b) (radius b) (mass b) (friction b) (restitution b)
           (isStatic b).

Definition set_velocity (b : PhysicsBody N) (v : Vector N) : PhysicsBody N :=
    mkBody (id b) (position b) v (radius b) (mass b) (friction b) (restitution b)
           (isStatic b).

(** [new PhysicsEngine(boardWidth, boardHeight)] *)
Definition newPhysicsEngine (width height : N) : PhysicsEngine N :=
    mkEngine [] width height (lit 20) (mkPoint (lit 0) (lit 0)) (lit 0.999).

Definition addBody (e : PhysicsEngine N) (body : PhysicsBody N) : PhysicsEngine N :=
    set_bodies e (map_set (id body) body (bodies e)).

Definition removeBody (e : PhysicsEngine N) (k : string) : PhysicsEngine N :=
    set_bodies e (map_delete k (bodies e)).

Definition getBody (e : PhysicsEngine N) (k : string) : option (PhysicsBody N) :=
    map_get k (bodies e).

Definition getAllBodies (e : PhysicsEngine N) : list (PhysicsBody N) :=
    map_values (bodies e).

(** [Object.assign(body, updates)] *)
Definition assign (body : PhysicsBody N) (updates : PartialBody N) : PhysicsBody N :=
    let pick {A : Type} (o : option A) (d : A) : A :=
      match o with Some a => a | None => d end in
    mkBody (pick (new_id updates) (id body))
           (pick (new_position updates) (position body))
           (pick (new_velocity updates) (velocity body))
           (pick (new_radius updates) (radius body))
           (pick (new_mass updates) (mass body))
           (pick (new_friction updates) (friction body))
           (pick (new_restitution updates) (restitution body))
           (pick (new_isStatic updates) (isStatic body)).

Definition updateBody (e : PhysicsEngine N) (k : string) (updates : PartialBody N)
    : PhysicsEngine N :=
    match map_get k (bodies e) with
    | Some body => set_bodies e (map_set k (assign body updates) (bodies e))
    | None => e
    end.

End Physics.

Section Simulation.
Context {N : Type} {num : Num N}.
Local Open Scope num_scope.

(** The first loop of [step]: gravity, air resistance, friction, position. *)
Definition integrate (e : PhysicsEngine N) (deltaTime : N) (body : PhysicsBody N)
    : PhysicsBody N :=
    if isStatic body then body
    else
      let vx := x (velocity body) + x (gravity e) * deltaTime in
      let vy := y (velocity body) + y (gravity e) * deltaTime in
      let vx := vx * airResistance e in
      let vy := vy * airResistance e in
      let speed := Math_sqrt (vx * vx + vy * vy) in
      let v :=
        if speed >? lit 0.1 then
          let frictionForce := friction body * deltaTime in
          let frictionX := (vx / speed) * frictionForce in
          let frictionY := (vy / speed) * frictionForce in
          mkPoint (if Math_abs vx >? Math_abs frictionX then vx - frictionX else lit 0)
                  (if Math_abs vy >? Math_abs frictionY then vy - frictionY else lit 0)
        else mkPoint (lit 0) (lit 0) in
      let p := mkPoint (x (position body) + x v * deltaTime)
                       (y (position body) + y v * deltaTime) in
      set_velocity (set_position body p) v.

(** The four [if] blocks of [handleWallCollisions], in order. *)
Definition leftWall (e : PhysicsEngine N) (body : PhysicsBody N) : PhysicsBody N :=
    if x (position body) - radius body <=? margin e then
      set_velocity
        (set_position body (mkPoint (margin e + radius body) (y (position body))))
        (mkPoint (- x (velocity body) * restitution body) (y (velocity body)))
    else body.

Definition rightWall (e : PhysicsEngine N) (body : PhysicsBody N) : PhysicsBody N :=
    if x (position body) + radius body >=? boardWidth e - margin e then
      set_velocity
        (set_position body
           (mkPoint (boardWidth e - margin e - radius body) (y (position body))))
        (mkPoint (- x (velocity body) * restitution body) (y (velocity body)))
    else body.

Definition topWall (e : PhysicsEngine N) (body : PhysicsBody N) : PhysicsBody N :=
    if y (position body) - radius body <=? margin e then
      set_velocity
        (set_position body (mkPoint (x (position body)) (margin e + radius body)))
        (mkPoint (x (velocity body)) (- y (velocity body) * restitution body))
    else body.

Definition bottomWall (e : PhysicsEngine N) (body : PhysicsBody N) : PhysicsBody N :=
    if y (position body) + radius body >=? boardHeight e - margin e then
      set_velocity
        (set_position body
           (mkPoint (x (position body)) (boardHeight e - margin e - radius body)))
        (mkPoint (x (velocity body)) (- y (velocity body) * restitution body))
    else body.

Definition handleWallCollisions (e : PhysicsEngine N) (body : PhysicsBody N)
    : PhysicsBody N :=
    bottomWall e (topWall e (rightWall e (leftWall e body))).

Definition checkCollision (a b : PhysicsBody N) : option (CollisionResult N) :=
    let dist := distance (position a) (position b) in
    let minDistance := radius a + radius b in
    if dist <? minDistance then
      let n := mkPoint ((x (position b) - x (position a)) / dist)
                       ((y (position b) - y (position a)) / dist) in
      let pen := minDistance - dist in
      let contactPoint := mkPoint (x (position a) + x n * radius a)
                                  (y (position a) + y n * radius a) in
      Some (mkCollision (id a) (id b) n pen contactPoint)
    else None.

(** [resolveCollision] acts on the two bodies the collision refers to. *)
Definition resolveCollision (c : CollisionResult N) (a b : PhysicsBody N)
    : PhysicsBody N * PhysicsBody N :=
    let n := normal c in
    (* Separate bodies to resolve penetration *)
    let totalMass := mass a + mass b in
    let separationA := (mass b / totalMass) * penetration c * lit 0.5 in
    let separationB := (mass a / totalMass) * penetration c * lit 0.5 in
    let a :=
      if negb (isStatic a) then
        set_position a (mkPoint (x (position a) - x n * separationA)
                                (y (position a) - y n * separationA))
      else a in
    let b :=
      if negb (isStatic b) then
        set_position b (mkPoint (x (position b) + x n * separationB)
                                (y (position b) + y n * separationB))
      else b in
    let relativeVelocity := mkPoint (x (velocity b) - x (velocity a))
                                    (y (velocity b) - y (velocity a)) in
    let velocityAlongNormal := x relativeVelocity * x n + y relativeVelocity * y n in
    (* Do not resolve if velocities are separating *)
    if velocityAlongNormal >? lit 0 then (a, b)
    else
      let e := Math_min (restitution a) (restitution b) in
      let impulse := - (lit 1 + e) * velocityAlongNormal in
      let impulse := impulse / (lit 1 / mass a + lit 1 / mass b) in
      let impulseVector := mkPoint (impulse * x n) (impulse * y n) in
      let a :=
        if negb (isStatic a) then
          set_velocity a (mkPoint (x (velocity a) - x impulseVector / mass a)
                                  (y (velocity a) - y impulseVector / mass a))
        else a in
      let b :=
        if negb (isStatic b) then
          set_velocity b (mkPoint (x (velocity b) + x impulseVector / mass b)
                                  (y (velocity b) + y impulseVector / mass b))
        else b in
      (a, b).

(** The body of the double loop over [bodyArray], at indices [i < j]. *)
Definition collidePair
      (st : list (string * PhysicsBody N) * list (CollisionResult N)) (i j : nat)
    : list (string * PhysicsBody N) * list (CollisionResult N) :=
    let (bodyArray, collisions) := st in
    match nth_error bodyArray i, nth_error bodyArray j with
    | Some (ka, a), Some (kb, b) =>
        match checkCollision a b with
        | Some collision =>
            let (a', b') := resolveCollision collision a b in
            (array_set j (kb, b') (array_set i (ka, a') bodyArray),
             collisions ++ [collision])
        | None => st
        end
    | _, _ => st
    end.

Definition collideAll (bodyArray : list (string * PhysicsBody N))
    : list (string * PhysicsBody N) * list (CollisionResult N) :=
    let n := List.length bodyArray in
    fold_left
      (fun st i => fold_left (fun st j => collidePair st i j) (seq (S i) (n - S i)) st)
      (seq 0 n) (bodyArray, []).

Definition step (e : PhysicsEngine N) (deltaTime : N)
    : PhysicsEngine N * list (CollisionResult N) :=
    let bs := map_update (integrate e deltaTime) (bodies e) in
    let bs := map_update (fun body => if isStatic body then body
                                      else handleWallCollisions e body) bs in
    let (bs, collisions) := collideAll bs in
    (set_bodies e bs, collisions).

Definition stopAllBodies (e : PhysicsEngine N) : PhysicsEngine N :=
    set_bodies e
      (map_update (fun body => set_velocity body (mkPoint (lit 0) (lit 0))) (bodies e)).

Definition hasMovingBodies (e : PhysicsEngine N) : bool :=
    existsb
      (fun body =>
         if isStatic body then false
         else
           let speed := Math_sqrt (x (velocity body) * x (velocity body)
                                   + y (velocity body) * y (velocity body)) in
           speed >? lit 0.1)
      (map_values (bodies e)).

End Simulation.

Section Prediction.
Context {N : Type} {num : Num N}.
Local Open Scope num_scope.

(** One pass of the loop of [simulateTrajectory] after the sample is
    pushed: [None] when the loop breaks on low speed. *)
Definition simulateIteration (e : PhysicsEngine N) (r timeStep : N)
      (pos : Point N) (vel : Vector N) : option (Point N * Vector N) :=
    (* Apply air resistance *)
    let vx := x vel * airResistance e in
    let vy := y vel * airResistance e in
    (* Apply friction *)
    let speed := Math_sqrt (vx * vx + vy * vy) in
    if speed >? lit 0.1 then
      let friction := lit 0.02 * timeStep in
      let frictionX := (vx / speed) * friction in
      let frictionY := (vy / speed) * friction in
      let vx := if Math_abs vx >? Math_abs frictionX then vx - frictionX else lit 0 in
      let vy := if Math_abs vy >? Math_abs frictionY then vy - frictionY else lit 0 in
      (* Update position *)
      let px := x pos + vx * timeStep in
      let py := y pos + vy * timeStep in
      (* Handle wall bounces *)
      let '(px, vx) :=
        if (px - r <=? margin e) || (px + r >=? boardWidth e - margin e) then
          (if px - r <=? margin e then margin e + r else boardWidth e - margin e - r,
           - vx * lit 0.8)
        else (px, vx) in
      let '(py, vy) :=
        if (py - r <=? margin e) || (py + r >=? boardHeight e - margin e) then
          (if py - r <=? margin e then margin e + r else boardHeight e - margin e - r,
           - vy * lit 0.8)
        else (py, vy) in
      Some (mkPoint px py, mkPoint vx vy)
    else None.

Fixpoint simulateLoop (e : PhysicsEngine N) (r timeStep : N) (steps : nat)
      (pos : Point N) (vel : Vector N) : list (Point N) :=
    match steps with
    | O => []
    | S k =>
        pos ::
        match simulateIteration e r timeStep pos vel with
        | None => []
        | Some (pos', vel') =>
            (* Stop if velocity is very low *)
            if (Math_abs (x vel') <? lit 0.5) && (Math_abs (y vel') <? lit 0.5) then []
            else simulateLoop e r timeStep k pos' vel'
        end
    end.

(** [steps] counts loop passes, so it is a [nat]. *)
Definition simulateTrajectory (e : PhysicsEngine N) (startPos : Point N)
      (velocity : Vector N) (r : N) (steps : nat) (timeStep : N) : list (Point N) :=
    simulateLoop e r timeStep steps startPos velocity.

(** The call with the default arguments [radius = 10], [steps = 100],
    [timeStep = 1/60]. *)
Definition simulateTrajectory_default (e : PhysicsEngine N) (startPos : Point N)
      (velocity : Vector N) : list (Point N) :=
    simulateTrajectory e startPos velocity (lit 10) 100 (lit 1 / lit 60).

Definition obstructed (e : PhysicsEngine N) (excludeIds : list string) (buffer : N)
      (checkPoint : Point N) : bool :=
    existsb
      (fun body =>
         if existsb (String.eqb (id body)) excludeIds then false
         else distance checkPoint (position body) <=? radius body + buffer)
      (map_values (bodies e)).

(** [for (let i = 0; i <= steps; i++)] of [isPathClear], from [i] on. *)
Fixpoint pathLoop (fuel : nat) (e : PhysicsEngine N) (start end' : Point N)
      (excludeIds : list string) (buffer steps i : N) : option bool :=
    match fuel with
    | O => None
    | S k =>
        if i <=? steps then
          let t := i / steps in
          let checkPoint := mkPoint (x start + (x end' - x start) * t)
                                    (y start + (y end' - y start) * t) in
          if obstructed e excludeIds buffer checkPoint then Some false
          else pathLoop k e start end' excludeIds buffer steps (i + lit 1)
        else Some true
    end.

Definition isPathClear (fuel : nat) (e : PhysicsEngine N) (start end' : Point N)
      (excludeIds : list string) (buffer : N) : option bool :=
    let pathLength := distance start end' in
    let stepSize := lit 2 in
    let steps := Math_ceil (pathLength / stepSize) in
    pathLoop fuel e start end' excludeIds buffer steps (lit 0).

Definition getBodiesInRange (e : PhysicsEngine N) (center : Point N) (range : N)
    : list (PhysicsBody N) :=
    filter (fun body => distance center (position body) <=? range)
           (map_values (bodies e)).

(** [Array.prototype.sort(cmp)]: a stable sort; [a] moves behind [b] only
    when [cmp a b > 0]. *)
Fixpoint array_insert {A : Type} (cmp : A -> A -> N) (a : A) (l : list A) : list A :=
    match l with
    | [] => [a]
    | b :: l' => if cmp a b >? lit 0 then b :: array_insert cmp a l' else a :: b :: l'
    end.

Definition array_sort {A : Type} (cmp : A -> A -> N) (l : list A) : list A :=
    fold_right (array_insert cmp) [] l.

End Prediction.

(* ================================================================= *)
(** ** Shot planner ([carrom-ai.ts]) *)

Module CarromPocket.
Record t (N : Type) : Type := mk { position : Point N; radius : N }.
Arguments mk {N} _ _.
Arguments position {N} _.
Arguments radius {N} _.
End CarromPocket.

Module ShotOption.
Inductive ShotType : Type := direct | bank | carom | combination.
Inductive Risk : Type := low | medium | high.

(** The [id] and [description] strings, which print numbers, are left out. *)
Record t (N : Type) : Type := mk {
    type : ShotType;
    targetCoin : string;
    targetPocket : CarromPocket.t N;
    strikerPosition : Point N;
    angle : N;
    power : N;
    successProbability : N;
    trajectory : list (Point N);
    bankPoints : option (list (Point N));
    intermediateCoins : option (list string);
    risk : Risk
  }.
Arguments mk {N} _ _ _ _ _ _ _ _ _ _ _.
Arguments type {N} _.
Arguments targetCoin {N} _.
Arguments targetPocket {N} _.
Arguments strikerPosition {N} _.
Arguments angle {N} _.
Arguments power {N} _.
Arguments successProbability {N} _.
Arguments trajectory {N} _.
Arguments bankPoints {N} _.
Arguments intermediateCoins {N} _.
Arguments risk {N} _.
End ShotOption.

Module GameState.
Inductive Player : Type := player | opponent.
Inductive Phase : Type := initial | playing | endgame.

Record t (N : Type) : Type := mk {
    playerCoins : list (PhysicsBody N);
    opponentCoins : list (PhysicsBody N);
    striker : PhysicsBody N;
    queen : option (PhysicsBody N);
    pockets : list (CarromPocket.t N);
    currentPlayer : Player;
    gamePhase : Phase
  }.
Arguments mk {N} _ _ _ _ _ _ _.
Arguments playerCoins {N} _.
Arguments opponentCoins {N} _.
Arguments striker {N} _.
Arguments queen {N} _.
Arguments pockets {N} _.
Arguments currentPlayer {N} _.
Arguments gamePhase {N} _.
End GameState.

Module CarromAI.

Inductive Difficulty : Type := easy | medium | hard | expert.

Record t (N : Type) : Type := mk {
    physicsEngine : PhysicsEngine N;
    boardWidth : N;
    boardHeight : N;
    pockets : list (CarromPocket.t N);
    accuracyMultiplier : N
  }.
Arguments mk {N} _ _ _ _ _.
Arguments physicsEngine {N} _.
Arguments boardWidth {N} _.
Arguments boardHeight {N} _.
Arguments pockets {N} _.
Arguments accuracyMultiplier {N} _.

Record Wall (N : Type) : Type := mkWall { name : string; wallStart : Point N; wallEnd : Point N }.
Arguments mkWall {N} _ _ _.
Arguments name {N} _.

Section Planner.
Context {N : Type} {num : Num N} {trig : Trig N}.
Local Open Scope num_scope.

(** [new CarromAI(physicsEngine, boardWidth, boardHeight, difficulty)] *)
Definition new (engine : PhysicsEngine N) (width height : N) (difficulty : Difficulty)
      : t N :=
      let accuracy :=
        match difficulty with
        | easy => lit 0.7
        | medium => lit 0.85
        | hard => lit 0.95
        | expert => lit 1.0
        end in
      let pocketRadius := lit 25 in
      let margin := lit 30 in
      mk engine width height
         [ CarromPocket.mk (mkPoint margin margin) pocketRadius;
           CarromPocket.mk (mkPoint (width - margin) margin) pocketRadius;
           CarromPocket.mk (mkPoint margin (height - margin)) pocketRadius;
           CarromPocket.mk (mkPoint (width - margin) (height - margin)) pocketRadius ]
         accuracy.

Variable ai : t N.

Definition isCoinPocketed (coin : PhysicsBody N) : bool :=
      existsb
        (fun pocket =>
           distance (position coin) (CarromPocket.position pocket)
           <=? CarromPocket.radius pocket)
        (pockets ai).

Definition getTargetCoins (gameState : GameState.t N) : list (PhysicsBody N) :=
      match GameState.currentPlayer gameState with
      | GameState.player =>
          filter (fun coin => negb (isCoinPocketed coin)) (GameState.playerCoins gameState)
      | GameState.opponent =>
          filter (fun coin => negb (isCoinPocketed coin)) (GameState.opponentCoins gameState)
      end.

(** [for (let x = centerX - range; x <= centerX + range; x += 10)] *)
Fixpoint strikerLoop (fuel : nat) (x0 limit startY : N) : option (list (Point N)) :=
      match fuel with
      | O => None
      | S k =>
          if x0 <=? limit then
            area <- strikerLoop k (x0 + lit 10) limit startY ;;
            Some (mkPoint x0 startY :: area)
          else Some []
      end.

Definition getStrikerStartArea (fuel : nat) : option (list (Point N)) :=
      let centerX := boardWidth ai / lit 2 in
      let startY := boardHeight ai - lit 40 in
      let range := lit 60 in
      strikerLoop fuel (centerX - range) (centerX + range) startY.

Definition getBoardWalls : list (Wall N) :=
      [ mkWall "top"%string (mkPoint (lit 0) (lit 0)) (mkPoint (boardWidth ai) (lit 0));
        mkWall "right"%string (mkPoint (boardWidth ai) (lit 0))
               (mkPoint (boardWidth ai) (boardHeight ai));
        mkWall "bottom"%string (mkPoint (boardWidth ai) (boardHeight ai))
               (mkPoint (lit 0) (boardHeight ai));
        mkWall "left"%string (mkPoint (lit 0) (boardHeight ai)) (mkPoint (lit 0) (lit 0)) ].

Definition calculateBankPoint (coinPos pocketPos : Point N) (wall : Wall N)
      : option (Point N) :=
      let midX := (x coinPos + x pocketPos) / lit 2 in
      let midY := (y coinPos + y pocketPos) / lit 2 in
      if String.eqb (name wall) "top"%string then Some (mkPoint midX (lit 20))
      else if String.eqb (name wall) "bottom"%string then
        Some (mkPoint midX (boardHeight ai - lit 20))
      else if String.eqb (name wall) "left"%string then Some (mkPoint (lit 20) midY)
      else if String.eqb (name wall) "right"%string then
        Some (mkPoint (boardWidth ai - lit 20) midY)
      else None.

Definition calculateRequiredPower (shotDistance pocketDistance : N) : N :=
      Math_min (lit 100)
               (Math_max (lit 20) (shotDistance * lit 0.3 + pocketDistance * lit 0.1)).

Definition powerToVelocity (power a : N) : Vector N :=
      let speed := power * lit 0.5 in
      mkPoint (Math_cos a * speed) (Math_sin a * speed).

(** The value of [baseProbability] before the final clamp. *)
Definition rawShotProbability (fuel : nat) (strikerPos targetPos pocketPos : Point N)
        (shotType : ShotOption.ShotType) : option N :=
      let baseProbability := lit 0.8 in
      (* Distance factor *)
      let shotDistance := distance strikerPos targetPos in
      let distanceFactor := Math_max (lit 0.1) (lit 1 - shotDistance / lit 400) in
      let baseProbability := baseProbability * distanceFactor in
      (* Angle factor *)
      let optimalAngle := angle targetPos pocketPos in
      let shotAngle := angle strikerPos targetPos in
      a1 <- normalizeAngle fuel (optimalAngle + Math_PI) ;;
      a2 <- normalizeAngle fuel shotAngle ;;
      let angleDiff := Math_abs (a1 - a2) in
      let angleFactor := Math_max (lit 0.1) (lit 1 - angleDiff / Math_PI) in
      let baseProbability := baseProbability * angleFactor in
      (* Shot type modifier *)
      let baseProbability :=
        match shotType with
        | ShotOption.direct => baseProbability * lit 1.0
        | ShotOption.bank => baseProbability * lit 0.7
        | ShotOption.carom => baseProbability * lit 0.5
        | ShotOption.combination => baseProbability
        end in
      (* Obstacle penalty *)
      pathClear <- isPathClear fuel (physicsEngine ai) strikerPos targetPos [] (lit 2) ;;
      let baseProbability :=
        if negb pathClear then baseProbability * lit 0.6 else baseProbability in
      (* Apply difficulty modifier *)
      Some (baseProbability * accuracyMultiplier ai).

Definition calculateShotProbability (fuel : nat)
        (strikerPos targetPos pocketPos : Point N) (shotType : ShotOption.ShotType)
      : option N :=
      baseProbability <- rawShotProbability fuel strikerPos targetPos pocketPos shotType ;;
      Some (Math_max (lit 0.05) (Math_min (lit 0.95) baseProbability)).

(** [for (const a of l)] whose body pushes zero or more shots. *)
Definition flatMapM {A B : Type} (f : A -> option (list B)) (l : list A)
      : option (list B) :=
      ls <- mapM f l ;; Some (List.concat ls).

Definition calculateDirectShots (fuel : nat) (targetCoin : PhysicsBody N)
        (pocket : CarromPocket.t N) (strikerArea : list (Point N))
      : option (list (ShotOption.t N)) :=
      flatMapM
        (fun strikerPos =>
           let strikerToCoin := angle strikerPos (position targetCoin) in
           let coinToPocket := angle (position targetCoin) (CarromPocket.position pocket) in
           a1 <- normalizeAngle fuel strikerToCoin ;;
           a2 <- normalizeAngle fuel (coinToPocket + Math_PI) ;;
           let angleDiff := Math_abs (a1 - a2) in
           let maxAngleError := Math_PI / lit 6 in
           if (angleDiff <=? maxAngleError)
              || (lit 2 * Math_PI - angleDiff <=? maxAngleError) then
             let shotDistance := distance strikerPos (position targetCoin) in
             let pocketDistance :=
               distance (position targetCoin) (CarromPocket.position pocket) in
             let power := calculateRequiredPower shotDistance pocketDistance in
             probability <-
               calculateShotProbability fuel strikerPos (position targetCoin)
                 (CarromPocket.position pocket) ShotOption.direct ;;
             let velocity := powerToVelocity power strikerToCoin in
             let trajectory :=
               simulateTrajectory_default (physicsEngine ai) strikerPos velocity in
             Some [ ShotOption.mk ShotOption.direct (id targetCoin) pocket strikerPos
                      strikerToCoin power probability trajectory None None
                      (if probability >? lit 0.7 then ShotOption.low
                       else if probability >? lit 0.4 then ShotOption.medium
                       else ShotOption.high) ]
           else Some [])
        strikerArea.

Definition calculateBankShots (fuel : nat) (targetCoin : PhysicsBody N)
        (pocket : CarromPocket.t N) (strikerArea : list (Point N))
      : option (list (ShotOption.t N)) :=
      let walls := getBoardWalls in
      flatMapM
        (fun strikerPos =>
           flatMapM
             (fun wall =>
                match calculateBankPoint (position targetCoin)
                        (CarromPocket.position pocket) wall with
                | Some bankPoint =>
                    let strikerToBank := angle strikerPos bankPoint in
                    let shotDistance :=
                      distance strikerPos bankPoint
                      + distance bankPoint (position targetCoin) in
                    let power :=
                      calculateRequiredPower shotDistance
                        (distance (position targetCoin) (CarromPocket.position pocket)) in
                    probability <-
                      calculateShotProbability fuel strikerPos (position targetCoin)
                        (CarromPocket.position pocket) ShotOption.bank ;;
                    let velocity := powerToVelocity power strikerToBank in
                    let trajectory :=
                      simulateTrajectory_default (physicsEngine ai) strikerPos velocity in
                    Some [ ShotOption.mk ShotOption.bank (id targetCoin) pocket strikerPos
                             strikerToBank power (probability * lit 0.8) trajectory
                             (Some [bankPoint]) None
                             (if probability >? lit 0.6 then ShotOption.medium
                              else ShotOption.high) ]
                | None => Some []
                end)
             walls)
        strikerArea.

Definition calculateCaromShots (fuel : nat) (targetCoin : PhysicsBody N)
        (pocket : CarromPocket.t N) (strikerArea : list (Point N))
        (gameState : GameState.t N) : option (list (ShotOption.t N)) :=
      let allCoins := GameState.playerCoins gameState ++ GameState.opponentCoins gameState in
      let intermediateCoins :=
        filter (fun coin => negb (String.eqb (id coin) (id targetCoin))
                            && negb (isCoinPocketed coin)) allCoins in
      flatMapM
        (fun strikerPos =>
           flatMapM
             (fun intermediateCoin =>
                let strikerToIntermediate := angle strikerPos (position intermediateCoin) in
                let intermediateToTarget :=
                  angle (position intermediateCoin) (position targetCoin) in
                let targetToPocket :=
                  angle (position targetCoin) (CarromPocket.position pocket) in
                a1 <- normalizeAngle fuel intermediateToTarget ;;
                a2 <- normalizeAngle fuel (targetToPocket + Math_PI) ;;
                let angleDiff := Math_abs (a1 - a2) in
                let maxAngleError := Math_PI / lit 4 in
                if (angleDiff <=? maxAngleError)
                   || (lit 2 * Math_PI - angleDiff <=? maxAngleError) then
                  let totalDistance :=
                    distance strikerPos (position intermediateCoin)
                    + distance (position intermediateCoin) (position targetCoin) in
                  let power :=
                    calculateRequiredPower totalDistance
                      (distance (position targetCoin) (CarromPocket.position pocket)) in
                  probability <-
                    calculateShotProbability fuel strikerPos (position targetCoin)
                      (CarromPocket.position pocket) ShotOption.carom ;;
                  let velocity := powerToVelocity power strikerToIntermediate in
                  let trajectory :=
                    simulateTrajectory_default (physicsEngine ai) strikerPos velocity in
                  Some [ ShotOption.mk ShotOption.carom (id targetCoin) pocket strikerPos
                           strikerToIntermediate power (probability * lit 0.6) trajectory
                           None (Some [id intermediateCoin]) ShotOption.high ]
                else Some [])
             intermediateCoins)
        strikerArea.

Definition calculatePositionalValue (shot : ShotOption.t N) : N :=
      if ShotOption.successProbability shot >? lit 0.5 then lit 5 else lit 0.

Definition calculateStrategicValue (shot : ShotOption.t N) (gameState : GameState.t N)
      : N :=
      let value := ShotOption.successProbability shot * lit 100 in
      (* Bonus for pocketing own coins *)
      let value :=
        match GameState.currentPlayer gameState with
        | GameState.player =>
            if existsb (fun coin => String.eqb (id coin) (ShotOption.targetCoin shot))
                       (GameState.playerCoins gameState)
            then value + lit 20 else value
        | GameState.opponent => value
        end in
      (* Penalty for difficult shots when easier ones are available *)
      let value :=
        match ShotOption.risk shot with
        | ShotOption.high => value - lit 10
        | _ => value
        end in
      value + calculatePositionalValue shot.

Definition compareShots (gameState : GameState.t N) (a b : ShotOption.t N) : N :=
      let probDiff := ShotOption.successProbability b - ShotOption.successProbability a in
      if Math_abs probDiff >? lit 0.1 then probDiff
      else calculateStrategicValue b gameState - calculateStrategicValue a gameState.

Definition rankShots (shots : list (ShotOption.t N)) (gameState : GameState.t N)
      : list (ShotOption.t N) :=
      firstn 10 (array_sort (compareShots gameState) shots).

(** The array [shots] of [analyzeShot] when its loops are done. *)
Definition enumerateShots (fuel : nat) (gameState : GameState.t N)
      : option (list (ShotOption.t N)) :=
      let targetCoins := getTargetCoins gameState in
      strikerStartArea <- getStrikerStartArea fuel ;;
      flatMapM
        (fun targetCoin =>
           flatMapM
             (fun pocket =>
                directShots <-
                  calculateDirectShots fuel targetCoin pocket strikerStartArea ;;
                bankShots <- calculateBankShots fuel targetCoin pocket strikerStartArea ;;
                caromShots <-
                  calculateCaromShots fuel targetCoin pocket strikerStartArea gameState ;;
                Some (directShots ++ bankShots ++ caromShots))
             (pockets ai))
        targetCoins.

Definition analyzeShot (fuel : nat) (gameState : GameState.t N)
      : option (list (ShotOption.t N)) :=
      shots <- enumerateShots fuel gameState ;;
      Some (rankShots shots gameState).

(** [None] outside is lack of fuel; [Some None] is the source's [null]. *)
Definition getBestShot (fuel : nat) (gameState : GameState.t N)
      : option (option (ShotOption.t N)) :=
      shots <- analyzeShot fuel gameState ;;
      Some (match shots with
            | shot :: _ => Some shot
            | [] => None
            end).

Definition getShotOptions (fuel : nat) (gameState : GameState.t N) (count : nat)
      : option (list (ShotOption.t N)) :=
      shots <- analyzeShot fuel gameState ;;
      Some (firstn count shots).

End Planner.
End CarromAI.

(* ================================================================= *)
(** ** Geometry kernel: the remaining functions *)

(** [a === b] on numbers. *)
Class NumEq (N : Type) : Type := { num_eqb : N -> N -> bool }.

#[export] Instance NumEq_float : NumEq float := {| num_eqb := PrimFloat.eqb |}.

#[export] Instance NumEq_R : NumEq R :=
  {| num_eqb := fun a b => if Req_dec_T a b then true else false |}.

Record Circle (N : Type) : Type := mkCircle { center : Point N; circleRadius : N }.
Arguments mkCircle {N} _ _.
Arguments center {N} _.
Arguments circleRadius {N} _.

Section GeometryRest.
Context {N : Type} {num : Num N}.
Local Open Scope num_scope.

Definition circlesIntersect (c1 c2 : Circle N) : bool :=
  let dist := distance (center c1) (center c2) in
  dist <=? circleRadius c1 + circleRadius c2.

Definition reflect (velocity normal : Vector N) : Vector N :=
  let dot := lit 2 * (x velocity * x normal + y velocity * y normal) in
  mkPoint (x velocity - dot * x normal) (y velocity - dot * y normal).

Definition pointInCircle (p : Point N) (circle : Circle N) : bool :=
  distance p (center circle) <=? circleRadius circle.

Definition closestPointOnLine {numeq : NumEq N} (p : Point N) (line : Line N) : Point N :=
  let dx := x (end_ line) - x (start line) in
  let dy := y (end_ line) - y (start line) in
  if num_eqb dx (lit 0) && num_eqb dy (lit 0) then start line
  else
    let t := ((x p - x (start line)) * dx + (y p - y (start line)) * dy)
             / (dx * dx + dy * dy) in
    let clampedT := Math_max (lit 0) (Math_min (lit 1) t) in
    mkPoint (x (start line) + clampedT * dx) (y (start line) + clampedT * dy).

(** The loop of [calculateTrajectory]: the points pushed from here on.
    [bounces] and [maxBounces] count, so they are [nat]s. *)
Fixpoint trajectoryLoop (fuel : nat) (friction boardWidth boardHeight : N)
    (maxBounces bounces : nat) (currentPos : Point N) (currentVel : Vector N)
  : option (list (Point N)) :=
  match fuel with
  | O => None
  | S k =>
      if Nat.ltb bounces maxBounces
         && ((Math_abs (x currentVel) >? lit 0.1) || (Math_abs (y currentVel) >? lit 0.1))
      then
        let margin := lit 20 in
        let nx := x currentPos + x currentVel in
        let ny := y currentPos + y currentVel in
        (* Left/right walls *)
        let hitX := (nx <=? margin) || (nx >=? boardWidth - margin) in
        let vx := if hitX then - x currentVel * friction else x currentVel in
        let nx' := if hitX then (if nx <=? margin then margin else boardWidth - margin)
                   else nx in
        let bounces := if hitX then S bounces else bounces in
        (* Top/bottom walls *)
        let hitY := (ny <=? margin) || (ny >=? boardHeight - margin) in
        let vy := if hitY then - y currentVel * friction else y currentVel in
        let ny' := if hitY then (if ny <=? margin then margin else boardHeight - margin)
                   else ny in
        let bounces := if hitY then S bounces else bounces in
        let collided := hitX || hitY in
        let nextPos := mkPoint nx' ny' in
        (* Apply friction *)
        let vel := if negb collided then mkPoint (vx * friction) (vy * friction)
                   else mkPoint vx vy in
        rest <- trajectoryLoop k friction boardWidth boardHeight maxBounces bounces
                  nextPos vel ;;
        Some (nextPos :: rest)
      else Some []
  end.

Definition calculateTrajectory (fuel : nat) (start0 : Point N) (velocity : Vector N)
    (friction boardWidth boardHeight : N) (maxBounces : nat) : option (list (Point N)) :=
  rest <- trajectoryLoop fuel friction boardWidth boardHeight maxBounces 0 start0 velocity ;;
  Some (start0 :: rest).

Context {trig : Trig N}.

Definition toDegrees (radians : N) : N := (radians * lit 180) / Math_PI.

Definition toRadians (degrees : N) : N := (degrees * Math_PI) / lit 180.

Definition pointAtAngle (origin : Point N) (a d : N) : Point N :=
  mkPoint (x origin + Math_cos a * d) (y origin + Math_sin a * d).

Context {numeq : NumEq N}.

(** The obstacle test both loops of [calculateOptimalAngle] run on a line:
    false as soon as an obstacle comes within its radius plus 2. *)
Definition lineIsClear (line : Line N) (obstacles : list (Circle N)) : bool :=
  negb (existsb
          (fun obstacle =>
             let closestPoint := closestPointOnLine (center obstacle) line in
             distance closestPoint (center obstacle) <=? circleRadius obstacle + lit 2)
          obstacles).

(** The line [calculateOptimalAngle] tests for an angle. *)
Definition testLine (from to : Point N) (testAngle : N) : Line N :=
  mkLine from (pointAtAngle from testAngle (distance from to)).

(** [for (offset = angleStep; offset <= toRadians(45); offset += angleStep)]
    with the inner loop over the signs -1 and 1; [None] inside is the
    fall-through to the direct angle. *)
Fixpoint offsetLoop (fuel : nat) (from to : Point N) (obstacles : list (Circle N))
    (directAngle angleStep offset : N) : option (option N) :=
  match fuel with
  | O => None
  | S k =>
      if offset <=? toRadians (lit 45) then
        let minus := directAngle + offset * (- lit 1) in
        let plus := directAngle + offset * lit 1 in
        if lineIsClear (testLine from to minus) obstacles then Some (Some minus)
        else if lineIsClear (testLine from to plus) obstacles then Some (Some plus)
        else offsetLoop k from to obstacles directAngle angleStep (offset + angleStep)
      else Some None
  end.

Definition calculateOptimalAngle (fuel : nat) (from to : Point N)
    (obstacles : list (Circle N)) : option N :=
  let directAngle := angle from to in
  let directLine := mkLine from to in
  if lineIsClear directLine obstacles then Some directAngle
  else
    let angleStep := toRadians (lit 5) in
    found <- offsetLoop fuel from to obstacles directAngle angleStep angleStep ;;
    Some (match found with
          | Some testAngle => testAngle
          | None => directAngle
          end).

End GeometryRest.

(* ================================================================= *)
(** ** Game rules ([game-logic.ts])

    Scores, coin counts, turn numbers and foul counts are integer-valued
    [number]s that change by small integers per move; they are modelled in
    [Z].  The [id] of a move, its [timestamp], and the [gameId] and
    [gameStartTime] of a game come from the clock and the random generator
    and are left out. *)

From Stdlib Require Import DecimalString.

Module Game.

Inductive CoinType : Type := white | black | queen.
Inductive GamePhase : Type := initial | playing | queen_captured | endgame | finished.
Inductive Player : Type := player1 | player2.
Inductive Assistance : Type := off | hints | full.
Inductive GameMode : Type := practice | vs_ai | multiplayer | tutorial.

Definition Player_eqb (a b : Player) : bool :=
  match a, b with
  | player1, player1 | player2, player2 => true
  | _, _ => false
  end.

(** [owner === player] for an [owner] that may be [null]. *)
Definition owner_is (owner : option Player) (p : Player) : bool :=
  match owner with
  | Some q => Player_eqb q p
  | None => false
  end.

Definition CoinType_eqb (a b : CoinType) : bool :=
  match a, b with
  | white, white | black, black | queen, queen => true
  | _, _ => false
  end.

Definition GamePhase_eqb (a b : GamePhase) : bool :=
  match a, b with
  | initial, initial | playing, playing | queen_captured, queen_captured
  | endgame, endgame | finished, finished => true
  | _, _ => false
  end.

Module CarromCoin.
Record t (N : Type) : Type := mk {
  id : string;
  position : Point N;
  velocity : Vector N;
  radius : N;
  mass : N;
  friction : N;
  restitution : N;
  isStatic : bool;
  type : CoinType;
  owner : option Player;
  isPocketed : bool;
  pocketedBy : option Player
}.
Arguments mk {N} _ _ _ _ _ _ _ _ _ _ _ _.
Arguments id {N} _.
Arguments position {N} _.
Arguments velocity {N} _.
Arguments radius {N} _.
Arguments mass {N} _.
Arguments friction {N} _.
Arguments restitution {N} _.
Arguments isStatic {N} _.
Arguments type {N} _.
Arguments owner {N} _.
Arguments isPocketed {N} _.
Arguments pocketedBy {N} _.
End CarromCoin.

Record GameScore : Type := mkScore {
  player1Score : Z;
  player2Score : Z;
  player1Coins : Z;
  player2Coins : Z
}.

Record GameRules : Type := mkRules {
  totalWhiteCoins : Z;
  totalBlackCoins : Z;
  queenBonus : Z;
  foulPenalty : Z;
  maxTurnsPerPlayer : Z
}.

Record GameMove (N : Type) : Type := mkMove {
  player : Player;
  strikerPosition : Point N;
  power : N;
  moveAngle : N;
  coinsHit : list string;
  coinsPocketed : list string;
  wasQueenPocketed : bool;
  wasFoul : bool;
  score : Z
}.
Arguments mkMove {N} _ _ _ _ _ _ _ _ _.
Arguments player {N} _.
Arguments strikerPosition {N} _.
Arguments power {N} _.
Arguments moveAngle {N} _.
Arguments coinsHit {N} _.
Arguments coinsPocketed {N} _.
Arguments wasQueenPocketed {N} _.
Arguments wasFoul {N} _.
Arguments score {N} _.

Record GameState (N : Type) : Type := mkState {
  phase : GamePhase;
  currentPlayer : Player;
  turnNumber : Z;
  coins : list (string * CarromCoin.t N);
  striker : PhysicsBody N;
  queenCaptured : bool;
  queenCapturedBy : option Player;
  scores : GameScore;
  rules : GameRules;
  moves : list (GameMove N);
  canShoot : bool;
  continueTurn : bool;
  shotInProgress : bool;
  foulsPlayer1 : Z;
  foulsPlayer2 : Z;
  aiAssistanceLevel : Assistance;
  gameMode : GameMode
}.
Arguments mkState {N} _ _ _ _ _ _ _ _ _ _ _ _ _ _ _ _ _.
Arguments phase {N} _.
Arguments currentPlayer {N} _.
Arguments turnNumber {N} _.
Arguments coins {N} _.
Arguments striker {N} _.
Arguments queenCaptured {N} _.
Arguments queenCapturedBy {N} _.
Arguments scores {N} _.
Arguments rules {N} _.
Arguments moves {N} _.
Arguments canShoot {N} _.
Arguments continueTurn {N} _.
Arguments shotInProgress {N} _.
Arguments foulsPlayer1 {N} _.
Arguments foulsPlayer2 {N} _.
Arguments aiAssistanceLevel {N} _.
Arguments gameMode {N} _.

Section Manager.
Context {N : Type} {num : Num N}.
Local Open Scope num_scope.

(** [array.includes(s)] on strings. *)
Definition includes (l : list string) (s : string) : bool := existsb (String.eqb s) l.

Definition getInitialCoinPosition (type : CoinType) (index : nat) : Point N :=
  let centerX := lit 400 in
  let centerY := lit 300 in
  let radius := lit 8 in
  let spacing := radius * lit 2 + lit 1 in
  match type with
  | queen => mkPoint centerX centerY
  | _ =>
      let positions :=
        [ (* Inner ring (around queen) *)
          mkPoint (centerX - spacing) centerY;
          mkPoint (centerX + spacing) centerY;
          mkPoint centerX (centerY - spacing);
          mkPoint centerX (centerY + spacing);
          mkPoint (centerX - spacing) (centerY - spacing);
          mkPoint (centerX + spacing) (centerY - spacing);
          mkPoint (centerX - spacing) (centerY + spacing);
          mkPoint (centerX + spacing) (centerY + spacing);
          (* Outer ring *)
          mkPoint (centerX - spacing * lit 2) centerY;
          mkPoint (centerX + spacing * lit 2) centerY;
          mkPoint centerX (centerY - spacing * lit 2);
          mkPoint centerX (centerY + spacing * lit 2);
          mkPoint (centerX - spacing * lit 2) (centerY - spacing);
          mkPoint (centerX + spacing * lit 2) (centerY - spacing);
          mkPoint (centerX - spacing * lit 2) (centerY + spacing);
          mkPoint (centerX + spacing * lit 2) (centerY + spacing);
          mkPoint (centerX - spacing) (centerY - spacing * lit 2);
          mkPoint (centerX + spacing) (centerY - spacing * lit 2) ] in
      nth (index mod List.length positions) positions (mkPoint centerX centerY)
  end.

(** The template string [`white_${i}`]. *)
Definition coinId (prefix : string) (i : nat) : string :=
  (prefix ++ NilZero.string_of_uint (Nat.to_uint i))%string.

Definition newCoin (k : string) (type : CoinType) (owner : option Player) (i : nat)
  : CarromCoin.t N :=
  CarromCoin.mk k (getInitialCoinPosition type i) (mkPoint (lit 0) (lit 0)) (lit 8)
                (lit 1) (lit 0.02) (lit 0.8) false type owner false None.

Definition initializeGame (mode : GameMode) : GameState N :=
  (* Create white coins (9 pieces) *)
  let coins :=
    fold_left (fun m i => map_set (coinId "white_" i)
                            (newCoin (coinId "white_" i) white (Some player1) i) m)
              (seq 0 9) [] in
  (* Create black coins (9 pieces) *)
  let coins :=
    fold_left (fun m i => map_set (coinId "black_" i)
                            (newCoin (coinId "black_" i) black (Some player2) i) m)
              (seq 0 9) coins in
  (* Create queen (red coin) *)
  let coins :=
    map_set "queen"
      (CarromCoin.mk "queen" (mkPoint (lit 400) (lit 300)) (mkPoint (lit 0) (lit 0))
                     (lit 9) (lit 1.2) (lit 0.02) (lit 0.8) false queen None false None)
      coins in
  (* Create striker *)
  let striker :=
    mkBody "striker" (mkPoint (lit 400) (lit 550)) (mkPoint (lit 0) (lit 0)) (lit 12)
           (lit 2) (lit 0.025) (lit 0.9) false in
  mkState initial player1 1 coins striker false None
          (mkScore 0 0 9 9) (mkRules 9 9 3 (-1) 50) []
          true false false 0 0 hints mode.

Variable gameState : GameState N.

Definition checkForFouls (coinsHit coinsPocketed : list string) : bool :=
  match coinsHit with
  | [] => true                                   (* no coins were hit *)
  | firstCoinHit :: _ =>
      if includes coinsPocketed "striker" then true
      else if match map_get firstCoinHit (coins gameState) with
              | Some firstCoin =>
                  negb (owner_is (CarromCoin.owner firstCoin) (currentPlayer gameState))
                  && negb (CoinType_eqb (CarromCoin.type firstCoin) queen)
              | None => false
              end then true
      else if includes coinsPocketed "queen"
              && Nat.eqb (List.length coinsPocketed) 1 then true
      else false
  end.

Definition calculateMoveScore (move : GameMove N) : Z :=
  let score :=
    fold_left
      (fun score coinId =>
         if String.eqb coinId "striker" then score
         else match map_get coinId (coins gameState) with
              | None => score
              | Some coin =>
                  if CoinType_eqb (CarromCoin.type coin) queen then
                    if Nat.ltb 1 (List.length (coinsPocketed move))
                    then (score + queenBonus (rules gameState))%Z else score
                  else if owner_is (CarromCoin.owner coin) (currentPlayer gameState)
                  then (score + 1)%Z else score
              end)
      (coinsPocketed move) 0%Z in
  if wasFoul move then (score + foulPenalty (rules gameState))%Z else score.

End Manager.

Section Moves.
Context {N : Type} {num : Num N}.

Definition set_scores (s : GameState N) (sc : GameScore) : GameState N :=
  mkState (phase s) (currentPlayer s) (turnNumber s) (coins s) (striker s)
          (queenCaptured s) (queenCapturedBy s) sc (rules s) (moves s) (canShoot s)
          (continueTurn s) (shotInProgress s) (foulsPlayer1 s) (foulsPlayer2 s)
          (aiAssistanceLevel s) (gameMode s).

Definition set_coins (s : GameState N) (cs : list (string * CarromCoin.t N))
  : GameState N :=
  mkState (phase s) (currentPlayer s) (turnNumber s) cs (striker s)
          (queenCaptured s) (queenCapturedBy s) (scores s) (rules s) (moves s)
          (canShoot s) (continueTurn s) (shotInProgress s) (foulsPlayer1 s)
          (foulsPlayer2 s) (aiAssistanceLevel s) (gameMode s).

Definition set_queen (s : GameState N) (by_ : Player) : GameState N :=
  mkState (phase s) (currentPlayer s) (turnNumber s) (coins s) (striker s)
          true (Some by_) (scores s) (rules s) (moves s) (canShoot s)
          (continueTurn s) (shotInProgress s) (foulsPlayer1 s) (foulsPlayer2 s)
          (aiAssistanceLevel s) (gameMode s).

Definition set_phase (s : GameState N) (p : GamePhase) : GameState N :=
  mkState p (currentPlayer s) (turnNumber s) (coins s) (striker s)
          (queenCaptured s) (queenCapturedBy s) (scores s) (rules s) (moves s)
          (canShoot s) (continueTurn s) (shotInProgress s) (foulsPlayer1 s)
          (foulsPlayer2 s) (aiAssistanceLevel s) (gameMode s).

Definition set_fouls (s : GameState N) (f1 f2 : Z) (cont : bool) : GameState N :=
  mkState (phase s) (currentPlayer s) (turnNumber s) (coins s) (striker s)
          (queenCaptured s) (queenCapturedBy s) (scores s) (rules s) (moves s)
          (canShoot s) cont (shotInProgress s) f1 f2
          (aiAssistanceLevel s) (gameMode s).

Definition set_turnNumber (s : GameState N) (t : Z) : GameState N :=
  mkState (phase s) (currentPlayer s) t (coins s) (striker s)
          (queenCaptured s) (queenCapturedBy s) (scores s) (rules s) (moves s)
          (canShoot s) (continueTurn s) (shotInProgress s) (foulsPlayer1 s)
          (foulsPlayer2 s) (aiAssistanceLevel s) (gameMode s).

Definition set_moves (s : GameState N) (ms : list (GameMove N)) : GameState N :=
  mkState (phase s) (currentPlayer s) (turnNumber s) (coins s) (striker s)
          (queenCaptured s) (queenCapturedBy s) (scores s) (rules s) ms
          (canShoot s) (continueTurn s) (shotInProgress s) (foulsPlayer1 s)
          (foulsPlayer2 s) (aiAssistanceLevel s) (gameMode s).

Definition set_assistance (s : GameState N) (level : Assistance) : GameState N :=
  mkState (phase s) (currentPlayer s) (turnNumber s) (coins s) (striker s)
          (queenCaptured s) (queenCapturedBy s) (scores s) (rules s) (moves s)
          (canShoot s) (continueTurn s) (shotInProgress s) (foulsPlayer1 s)
          (foulsPlayer2 s) level (gameMode s).

Definition switchPlayer (s : GameState N) : GameState N :=
  mkState (phase s)
          (match currentPlayer s with player1 => player2 | player2 => player1 end)
          (turnNumber s) (coins s) (striker s)
          (queenCaptured s) (queenCapturedBy s) (scores s) (rules s) (moves s)
          true false (shotInProgress s) (foulsPlayer1 s) (foulsPlayer2 s)
          (aiAssistanceLevel s) (gameMode s).

Definition checkGameEndConditions (s : GameState N) : GameState N :=
  (* Game ends if a player has no coins left *)
  if Z.eqb (player1Coins (scores s)) 0 then set_phase s finished
  else if Z.eqb (player2Coins (scores s)) 0 then set_phase s finished
  (* Game ends if max turns reached *)
  else if Z.geb (turnNumber s) (maxTurnsPerPlayer (rules s) * 2) then set_phase s finished
  (* Update phase based on game progress *)
  else if queenCaptured s && GamePhase_eqb (phase s) initial then set_phase s queen_captured
  else if Z.leb (player1Coins (scores s)) 3 || Z.leb (player2Coins (scores s)) 3
  then set_phase s endgame
  else if GamePhase_eqb (phase s) initial && Z.ltb 2 (turnNumber s)
  then set_phase s playing
  else s.

(** One pass of the loop over [move.coinsPocketed]. *)
Definition pocketCoin (s : GameState N) (coinId : string) : GameState N :=
  match map_get coinId (coins s) with
  | Some coin =>
      if negb (String.eqb coinId "striker") then
        let coin' :=
          CarromCoin.mk (CarromCoin.id coin) (CarromCoin.position coin)
            (CarromCoin.velocity coin) (CarromCoin.radius coin) (CarromCoin.mass coin)
            (CarromCoin.friction coin) (CarromCoin.restitution coin)
            (CarromCoin.isStatic coin) (CarromCoin.type coin) (CarromCoin.owner coin)
            true (Some (currentPlayer s)) in
        let s := set_coins s (map_set coinId coin' (coins s)) in
        (* Update coin counts *)
        if CoinType_eqb (CarromCoin.type coin) white
           && owner_is (CarromCoin.owner coin) player1 then
          set_scores s (mkScore (player1Score (scores s)) (player2Score (scores s))
                                (player1Coins (scores s) - 1) (player2Coins (scores s)))
        else if CoinType_eqb (CarromCoin.type coin) black
                && owner_is (CarromCoin.owner coin) player2 then
          set_scores s (mkScore (player1Score (scores s)) (player2Score (scores s))
                                (player1Coins (scores s)) (player2Coins (scores s) - 1))
        else if CoinType_eqb (CarromCoin.type coin) queen then
          set_queen s (currentPlayer s)
        else s
      else s
  | None => s
  end.

(** The blocks of [updateGameStateAfterMove], in order.  First the score. *)
Definition addMoveScore (s : GameState N) (move : GameMove N) : GameState N :=
  match currentPlayer s with
  | player1 =>
      set_scores s (mkScore (player1Score (scores s) + score move)
                            (player2Score (scores s))
                            (player1Coins (scores s)) (player2Coins (scores s)))
  | player2 =>
      set_scores s (mkScore (player1Score (scores s))
                            (player2Score (scores s) + score move)
                            (player1Coins (scores s)) (player2Coins (scores s)))
  end.

(** Handle fouls *)
Definition recordFoul (s : GameState N) (move : GameMove N) : GameState N :=
  if wasFoul move then
    match currentPlayer s with
    | player1 => set_fouls s (foulsPlayer1 s + 1) (foulsPlayer2 s) false
    | player2 => set_fouls s (foulsPlayer1 s) (foulsPlayer2 s + 1) false
    end
  else
    (* Continue turn if coins were pocketed (except for fouls) *)
    let cont := Nat.ltb 0 (List.length (coinsPocketed move))
                && negb (includes (coinsPocketed move) "striker") in
    match currentPlayer s with
    | player1 => set_fouls s 0 (foulsPlayer2 s) cont
    | player2 => set_fouls s (foulsPlayer1 s) 0 cont
    end.

(** Switch players if turn is over *)
Definition endTurn (s : GameState N) : GameState N :=
  if negb (continueTurn s) && negb (GamePhase_eqb (phase s) finished)
  then switchPlayer s else s.

Definition updateGameStateAfterMove (s : GameState N) (move : GameMove N)
  : GameState N :=
  let s := addMoveScore s move in
  let s := fold_left pocketCoin (coinsPocketed move) s in
  let s := recordFoul s move in
  let s := checkGameEndConditions s in
  let s := endTurn s in
  set_turnNumber s (turnNumber s + 1).

Definition executeMove (s : GameState N) (strikerPosition : Point N) (power a : N)
    (coinsHit coinsPocketed : list string) : GameState N * GameMove N :=
  let move :=
    mkMove (currentPlayer s) strikerPosition power a coinsHit coinsPocketed
           (includes coinsPocketed "queen") (checkForFouls s coinsHit coinsPocketed) 0 in
  (* Calculate score for this move *)
  let move :=
    mkMove (player move) strikerPosition power a coinsHit coinsPocketed
           (wasQueenPocketed move) (wasFoul move) (calculateMoveScore s move) in
  (* Update game state based on move *)
  let s := updateGameStateAfterMove s move in
  (* Add move to history *)
  (set_moves s (moves s ++ [move]), move).

Definition getCurrentPlayer (s : GameState N) : Player := currentPlayer s.

Definition getScore (s : GameState N) : GameScore := scores s.

Definition canPlayerShoot (s : GameState N) : bool :=
  canShoot s && negb (shotInProgress s) && negb (GamePhase_eqb (phase s) finished).

Definition isGameFinished (s : GameState N) : bool := GamePhase_eqb (phase s) finished.

Inductive Winner : Type := wins (p : Player) | tie.

Definition getWinner (s : GameState N) : option Winner :=
  if negb (isGameFinished s) then None
  else if Z.ltb (player2Score (scores s)) (player1Score (scores s)) then Some (wins player1)
  else if Z.ltb (player1Score (scores s)) (player2Score (scores s)) then Some (wins player2)
  else Some tie.

Definition resetGame (s : GameState N) : GameState N := initializeGame (gameMode s).

Definition getTargetableCoins (s : GameState N) (p : Player) : list (CarromCoin.t N) :=
  filter (fun coin =>
            negb (CarromCoin.isPocketed coin)
            && (owner_is (CarromCoin.owner coin) p
                || CoinType_eqb (CarromCoin.type coin) queen))
         (map_values (coins s)).

Definition setAIAssistanceLevel (s : GameState N) (level : Assistance) : GameState N :=
  set_assistance s level.

Definition getMoveHistory (s : GameState N) : list (GameMove N) := moves s.

Definition undoLastMove (s : GameState N) : bool :=
  match gameMode s with
  | practice => match moves s with [] => false | _ => false end
  | _ => false
  end.

End Moves.
End Game.

(** *** Loading the engine from a game ([use-carrom-game.ts])

    The effect that mirrors the game state into the physics registry: clear
    it, add every coin that is not pocketed, then add the striker. *)
Definition coinBody {N : Type} (coin : Game.CarromCoin.t N) : PhysicsBody N :=
  mkBody (Game.CarromCoin.id coin) (Game.CarromCoin.position coin)
         (Game.CarromCoin.velocity coin) (Game.CarromCoin.radius coin)
         (Game.CarromCoin.mass coin) (Game.CarromCoin.friction coin)
         (Game.CarromCoin.restitution coin) (Game.CarromCoin.isStatic coin).

Definition initializePhysicsBodies {N : Type} `{Num N} (e : PhysicsEngine N)
    (gameState : Game.GameState N) : PhysicsEngine N :=
  let e := fold_left (fun e body => removeBody e (id body)) (getAllBodies e) e in
  let e :=
    fold_left (fun e coin => if negb (Game.CarromCoin.isPocketed coin)
                             then addBody e (coinBody coin) else e)
              (map_values (Game.coins gameState)) e in
  addBody e (Game.striker gameState).

(* ================================================================= *)
(** ** Concrete boards, bodies and snapshots *)

Module Scenario.
Local Open Scope string_scope.

(** The time step of a 60 Hz tick. *)
Definition tick {N : Type} `{Num N} : N := (lit 1 / lit 60)%num.

(** A coin as [game-logic.ts] creates them: mass 1, friction 0.02,
    restitution 0.8, at rest. *)
Definition disc {N : Type} `{Num N} (k : string) (px py r : Q) : PhysicsBody N :=
    mkBody k (mkPoint (lit px) (lit py)) (mkPoint (lit 0) (lit 0)) (lit r)
           (lit 1) (lit 0.02) (lit 0.8) false.

Definition board600 {N : Type} `{Num N} : PhysicsEngine N :=
    newPhysicsEngine (lit 600) (lit 600).

(** Disc A at (100,100) and disc B at (115,100), both of radius 10. *)
Definition overlapping : PhysicsEngine float :=
    addBody (addBody board600 (disc "A" 100 100 10)) (disc "B" 115 100 10).

(** Two discs whose centres coincide. *)
Definition coincident : PhysicsEngine float :=
    addBody (addBody board600 (disc "A" 100 100 10)) (disc "B" 100 100 10).

(** Disc A touches the left wall, disc B overlaps it from the right. *)
Definition at_wall : PhysicsEngine float :=
    addBody (addBody board600 (disc "A" 30 100 10)) (disc "B" 45 100 10).

(** A registry holding one disc, and a malformed body reusing its id. *)
Definition one_disc : PhysicsEngine float := addBody board600 (disc "A" 100 100 10).

Definition malformed : PhysicsBody float :=
    mkBody "A" (mkPoint (lit 200) (lit 200)) (mkPoint (lit 0) (lit 0))
           (- lit 1)%num (lit 0) (lit 0.02) (lit 0.8) false.

Definition shrink : PartialBody float :=
    mkPartial None None None (Some (- lit 1)%num) (Some (lit 0)) None None None.

(** A slow disc that overlaps the left wall. *)
Definition slow : PhysicsBody float :=
    mkBody "s" (mkPoint (lit 25) (lit 100)) (mkPoint (lit 0.05) (lit 0)) (lit 10)
           (lit 1) (lit 0.02) (lit 0.8) false.

(** A disc well inside the board, moving at speed 10. *)
Definition moving : PhysicsBody R :=
    mkBody "m" (mkPoint (lit 300) (lit 300)) (mkPoint (lit 10) (lit 0)) (lit 10)
           (lit 1) (lit 0.02) (lit 0.8) false.

(** Two discs approaching head-on, and the contact between them. *)
Definition left_disc {N : Type} `{Num N} : PhysicsBody N :=
    mkBody "A" (mkPoint (lit 100) (lit 100)) (mkPoint (lit 3) (lit 0)) (lit 10)
           (lit 1) (lit 0.02) (lit 0.8) false.

Definition right_disc {N : Type} `{Num N} : PhysicsBody N :=
    mkBody "B" (mkPoint (lit 115) (lit 100)) (mkPoint (- lit 1)%num (lit 0)) (lit 10)
           (lit 2) (lit 0.02) (lit 0.9) false.

Definition contact {N : Type} `{Num N} : CollisionResult N :=
    mkCollision "A" "B" (mkPoint (lit 1) (lit 0)) (lit 5) (mkPoint (lit 110) (lit 100)).

(** Two crossing segments. *)
Definition diagonal : Line float := mkLine (mkPoint (lit 0) (lit 0)) (mkPoint (lit 4) (lit 4)).
Definition antidiagonal : Line float :=
    mkLine (mkPoint (lit 0) (lit 4)) (mkPoint (lit 4) (lit 0)).

(** The planner on a board of side [side], medium difficulty, with an empty
    physics registry, and a snapshot whose only coin belongs to the player. *)
Definition planner {N : Type} `{Num N} (side : Q) : CarromAI.t N :=
    CarromAI.new (newPhysicsEngine (lit side) (lit side)) (lit side) (lit side)
                 CarromAI.medium.

Definition snapshot {N : Type} `{Num N} (side : Q) (coin : PhysicsBody N)
    : GameState.t N :=
    GameState.mk [coin] [] (disc "striker" 300 550 12) None
                 (CarromAI.pockets (planner side)) GameState.player GameState.playing.

(** A coin close to the base line of a 600 board: no pocket lines up. *)
Definition near_coin {N : Type} `{Num N} : PhysicsBody N := disc "c1" 300 400 8.

(** A coin far from the base line of a 1200 board. *)
Definition far_coin : PhysicsBody float := disc "c1" 600 700 8.

(** A coin of the player far outside the board, at x = 1e200. *)
Definition distant_coin : PhysicsBody float :=
    mkBody "c1" (mkPoint 1e200%float 400%float) (mkPoint 0%float 0%float) 8%float
           1%float 0.02%float 0.8%float false.

(** Two discs of mass 1 in the middle of the board, centres coinciding,
    both moving right at speed 1. *)
Definition stacked_left : PhysicsBody float :=
    mkBody "A" (mkPoint (lit 300) (lit 300)) (mkPoint (lit 1) (lit 0)) (lit 10)
           (lit 1) (lit 0.02) (lit 0.8) false.

Definition stacked_right : PhysicsBody float :=
    mkBody "B" (mkPoint (lit 300) (lit 300)) (mkPoint (lit 1) (lit 0)) (lit 10)
           (lit 1) (lit 0.02) (lit 0.8) false.

Definition stacked : PhysicsEngine float :=
    addBody (addBody board600 stacked_left) stacked_right.

(** A board hardly wider than twice its margin, and a small disc moving
    left next to its left wall. *)
Definition narrow : PhysicsEngine float :=
    newPhysicsEngine 40.200000000000003%float (lit 600).

Definition skimmer : PhysicsBody float :=
    mkBody "k" (mkPoint (lit 20.2) (lit 300)) (mkPoint (- lit 10)%num (lit 0)) (lit 0.1)
           (lit 1) (lit 0.02) (lit 0.8) false.

End Scenario.

(** *** Predicates of the statements *)

(** A candidate aimed straight at a coin. *)
Definition aimedStraightAt (shot : ShotOption.t float) (coin : PhysicsBody float) : bool :=
  PrimFloat.eqb (ShotOption.angle shot)
                (angle (ShotOption.strikerPosition shot) (position coin)).

Definition isBank (t : ShotOption.ShotType) : bool :=
  match t with ShotOption.bank => true | _ => false end.

(** Every candidate the planner enumerates, before ranking, satisfies [P]. *)
Definition everyCandidate (ai : CarromAI.t float) (fuel : nat) (gs : GameState.t float)
    (P : ShotOption.t float -> bool) : bool :=
  match CarromAI.enumerateShots ai fuel gs with
  | Some shots => forallb P shots
  | None => false
  end.

(** The interval a candidate's probability lies in, by kind. *)
Definition probabilityRange (t : ShotOption.ShotType) (p : R) : Prop :=
  match t with
  | ShotOption.direct => (0.05 <= p <= 0.95)%R
  | ShotOption.bank => (0.04 <= p <= 0.76)%R
  | ShotOption.carom => (0.03 <= p <= 0.57)%R
  | ShotOption.combination => False
  end.

(** Momentum of two bodies, by component. *)
Definition momentum {N : Type} `{Num N} (a b : PhysicsBody N) : N * N :=
  ((mass a * x (velocity a) + mass b * x (velocity b))%num,
   (mass a * y (velocity a) + mass b * y (velocity b))%num).

(** What [step] does to a body that is alone in the registry. *)
Definition stepAlone {N : Type} `{Num N} (e : PhysicsEngine N) (deltaTime : N)
    (body : PhysicsBody N) : option (PhysicsBody N) :=
  getBody (fst (step (addBody (set_bodies e []) body) deltaTime)) (id body).

(** The speed the friction test of [step] and of [simulateTrajectory] looks
    at: after air resistance. *)
Definition dragSpeed {N : Type} `{Num N} (e : PhysicsEngine N) (vel : Vector N) : N :=
  let vx := (x vel * airResistance e)%num in
  let vy := (y vel * airResistance e)%num in
  Math_sqrt (vx * vx + vy * vy)%num.

(** A fuel-indexed computation settles on [a] once fuel is large enough. *)
Definition settles {A : Type} (f : nat -> option A) (a : A) : Prop :=
  exists n : nat, forall fuel : nat, (n <= fuel)%nat -> f fuel = Some a.

(** [f] settles on a value that satisfies [Q]. *)
Definition settlesIn {A : Type} (f : nat -> option A) (Q : A -> Prop) : Prop :=
  exists a, settles f a /\ Q a.

(** *** What the planner returns *)

Section Returned.
Context {N : Type} {num : Num N} {trig : Trig N}.
Local Open Scope num_scope.

(** [s] is among the candidates one of the three entry points returns. *)
Definition returnedBy (ai : CarromAI.t N) (fuel : nat) (gs : GameState.t N)
      (s : ShotOption.t N) : Prop :=
    (exists shots, CarromAI.analyzeShot ai fuel gs = Some shots /\ In s shots)
    \/ CarromAI.getBestShot ai fuel gs = Some (Some s)
    \/ (exists count shots,
          CarromAI.getShotOptions ai fuel gs count = Some shots /\ In s shots).

(** The angle test of the direct and of the carom generator passed. *)
Definition withinTolerance (fuel : nat) (towards back tolerance : N) : Prop :=
    exists a1 a2,
      normalizeAngle fuel towards = Some a1
      /\ normalizeAngle fuel (back + Math_PI) = Some a2
      /\ (Math_abs (a1 - a2) <=? tolerance)
         || (lit 2 * Math_PI - Math_abs (a1 - a2) <=? tolerance) = true.

(** What a candidate stores for a clamped probability [q], by kind. *)
Definition storedProbability (t : ShotOption.ShotType) (q : N) : option N :=
    match t with
    | ShotOption.direct => Some q
    | ShotOption.bank => Some (q * lit 0.8)
    | ShotOption.carom => Some (q * lit 0.6)
    | ShotOption.combination => None
    end.

(** Where a candidate comes from: one of the three generators, run on a
    live target coin of the current player and a pocket of the planner.
    [raw] is the probability before the final clamp. *)
Definition madeBy (ai : CarromAI.t N) (fuel : nat) (gs : GameState.t N)
      (s : ShotOption.t N) : Prop :=
    exists coin pocket raw,
      In coin (CarromAI.getTargetCoins ai gs)
      /\ In pocket (CarromAI.pockets ai)
      /\ ShotOption.targetCoin s = id coin
      /\ ShotOption.targetPocket s = pocket
      /\ CarromAI.rawShotProbability ai fuel (ShotOption.strikerPosition s)
           (position coin) (CarromPocket.position pocket) (ShotOption.type s)
         = Some raw
      /\ storedProbability (ShotOption.type s)
           (Math_max (lit 0.05) (Math_min (lit 0.95) raw))
         = Some (ShotOption.successProbability s)
      /\ match ShotOption.type s with
         | ShotOption.direct =>
             ShotOption.angle s = angle (ShotOption.strikerPosition s) (position coin)
             /\ withinTolerance fuel
                  (angle (ShotOption.strikerPosition s) (position coin))
                  (angle (position coin) (CarromPocket.position pocket))
                  (Math_PI / lit 6)
         | ShotOption.bank =>
             exists wall bankPoint,
               In wall (CarromAI.getBoardWalls ai)
               /\ CarromAI.calculateBankPoint ai (position coin)
                    (CarromPocket.position pocket) wall = Some bankPoint
               /\ ShotOption.bankPoints s = Some [bankPoint]
               /\ ShotOption.angle s = angle (ShotOption.strikerPosition s) bankPoint
         | ShotOption.carom =>
             exists between,
               In between (GameState.playerCoins gs ++ GameState.opponentCoins gs)
               /\ id between <> id coin
               /\ ShotOption.intermediateCoins s = Some [id between]
               /\ ShotOption.angle s
                  = angle (ShotOption.strikerPosition s) (position between)
               /\ withinTolerance fuel
                    (angle (position between) (position coin))
                    (angle (position coin) (CarromPocket.position pocket))
                    (Math_PI / lit 4)
         | ShotOption.combination => False
         end.

End Returned.

(** *** Proof automation *)

(** Unfold the operations of [Num] and [Trig] at the real numbers. *)
Ltac real_ops :=
  cbn [num_add num_sub num_mul num_div num_neg num_ltb num_leb Math_abs Math_min
       Math_max Math_sqrt Math_ceil lit Num_R Math_PI Math_atan2 Math_cos Math_sin
       Trig_R] in *;
  unfold Q2R in *; cbn [Qnum Qden] in *.

(** Project the fields of bodies built by the engine. *)
Ltac body_fields :=
  cbn [id position velocity radius mass friction restitution isStatic x y fst snd
       negb bodies boardWidth boardHeight margin gravity airResistance normal
       penetration] in *.

(** Split a [v <- m ;; k] that returned. *)
Ltac bind_inv E :=
  match type of E with
  | bind ?m _ = Some _ =>
      let v := fresh "v" in
      let Ev := fresh "Ev" in
      destruct m as [v|] eqn:Ev; cbn [bind] in E; [|discriminate E]
  end.

(** *** More concrete inputs *)

Module Scenario2.
Local Open Scope string_scope.

(** An obstacle on the straight line from (0,0) to (100,0). *)
Definition blocker : Circle float := mkCircle (mkPoint (lit 50) (lit 0)) (lit 5).

(** A static disc and a disc that runs into it. *)
Definition post : PhysicsBody float :=
  mkBody "S" (mkPoint (lit 100) (lit 100)) (mkPoint (lit 0) (lit 0)) (lit 10)
         (lit 1) (lit 0.02) (lit 0.8) true.

Definition pinned : PhysicsEngine float :=
  addBody (addBody Scenario.board600 post)
    (mkBody "A" (mkPoint (lit 115) (lit 100)) (mkPoint (- lit 3)%num (lit 0)) (lit 10)
            (lit 1) (lit 0.02) (lit 0.8) false).

(** A board whose only body is [Scenario.moving]. *)
Definition lone : PhysicsEngine R := addBody Scenario.board600 Scenario.moving.

End Scenario2.


(** What a step of the engine keeps of a registered body. *)
Definition sameFrame {N : Type} (b b' : PhysicsBody N) : Prop :=
  id b' = id b /\ radius b' = radius b /\ mass b' = mass b
  /\ friction b' = friction b /\ restitution b' = restitution b
  /\ isStatic b' = isStatic b.

Definition keptBody {N : Type} (kb kb' : string * PhysicsBody N) : Prop :=
  fst kb' = fst kb /\ sameFrame (snd kb) (snd kb')
  /\ (isStatic (snd kb) = true -> snd kb' = snd kb).

(** What makes a candidate of the planner playable: it aims from the base
    line at a coin the current player may still pocket, into a pocket of the
    board, with a power the striker accepts. *)
Definition wellAimed (ai : CarromAI.t R) (gs : GameState.t R) (s : ShotOption.t R)
  : Prop :=
  (exists coin, In coin (CarromAI.getTargetCoins ai gs)
                /\ ShotOption.targetCoin s = id coin)
  /\ In (ShotOption.targetPocket s) (CarromAI.pockets ai)
  /\ y (ShotOption.strikerPosition s) = (CarromAI.boardHeight ai - 40)%R
  /\ (CarromAI.boardWidth ai / 2 - 60 <= x (ShotOption.strikerPosition s)
      <= CarromAI.boardWidth ai / 2 + 60)%R
  /\ (20 <= ShotOption.power s <= 100)%R
  /\ hd_error (ShotOption.trajectory s) = Some (ShotOption.strikerPosition s)
  /\ match ShotOption.type s with
     | ShotOption.direct =>
         ShotOption.bankPoints s = None /\ ShotOption.intermediateCoins s = None
     | ShotOption.bank =>
         (exists p, ShotOption.bankPoints s = Some [p])
         /\ ShotOption.intermediateCoins s = None
     | ShotOption.carom =>
         ShotOption.bankPoints s = None
         /\ exists k, ShotOption.intermediateCoins s = Some [k]
                      /\ k <> ShotOption.targetCoin s
     | ShotOption.combination => False
     end.

(** What [analyzeShot] fixes of a candidate once its generator is known. *)
Definition aimedFrom (area : list (Point R)) (coin : PhysicsBody R)
    (pocket : CarromPocket.t R) (s : ShotOption.t R) : Prop :=
  ShotOption.targetCoin s = id coin
  /\ ShotOption.targetPocket s = pocket
  /\ In (ShotOption.strikerPosition s) area
  /\ (20 <= ShotOption.power s <= 100)%R
  /\ hd_error (ShotOption.trajectory s) = Some (ShotOption.strikerPosition s).


(** What pocketing leaves of a coin: everything but [isPocketed] and
    [pocketedBy]. *)
Definition coinBase {N : Type} (c : Game.CarromCoin.t N) :=
  (Game.CarromCoin.id c, Game.CarromCoin.position c, Game.CarromCoin.velocity c,
   Game.CarromCoin.radius c, Game.CarromCoin.mass c, Game.CarromCoin.friction c,
   Game.CarromCoin.restitution c, Game.CarromCoin.isStatic c, Game.CarromCoin.type c,
   Game.CarromCoin.owner c).

Definition opponentOf (p : Game.Player) : Game.Player :=
  match p with Game.player1 => Game.player2 | Game.player2 => Game.player1 end.

(** What the loop over the pocketed coins leaves of the game state. *)
Definition besideCoins {N : Type} (s : Game.GameState N) :=
  (Game.phase s, Game.currentPlayer s, Game.turnNumber s, Game.striker s,
   Game.rules s, Game.moves s, Game.canShoot s, Game.continueTurn s,
   Game.shotInProgress s, Game.foulsPlayer1 s, Game.foulsPlayer2 s,
   Game.aiAssistanceLevel s, Game.gameMode s,
   Game.player1Score (Game.scores s), Game.player2Score (Game.scores s),
   map fst (Game.coins s)).

Module Scenario3.
Local Open Scope string_scope.

(** A practice game after one move that pocketed all nine white coins. *)
Definition whites_gone : Game.GameState float :=
  fst (Game.executeMove (Game.initializeGame Game.practice)
         (mkPoint (lit 400) (lit 550)) (lit 50) (lit 0) ["white_0"]
         ["white_0"; "white_1"; "white_2"; "white_3"; "white_4"; "white_5"; "white_6";
          "white_7"; "white_8"]).

(** The registry of the 800 x 600 board of the page, loaded from a new game. *)
Definition opening (mode : Game.GameMode) : PhysicsEngine float :=
  initializePhysicsBodies (newPhysicsEngine (lit 800) (lit 600))
    (Game.initializeGame mode).

End Scenario3.

(** Where a coin lies on the board, and whether it is still there. *)
Definition placed {N : Type} (c : Game.CarromCoin.t N) :=
  (Game.CarromCoin.position c, Game.CarromCoin.radius c, Game.CarromCoin.isPocketed c).

(** The registered body [k] has NaN for both coordinates. *)
Definition lostBody (e : PhysicsEngine float) (k : string) : bool :=
  match getBody e k with
  | Some b => F64.is_nan (x (position b)) && F64.is_nan (y (position b))
  | None => false
  end.

(* ================================================================= *)
(** ** Properties *)

(** *** Runs of the engine on doubles *)

(** C1: on disc A at (100,100) and disc B at (115,100), both of radius 10 and
    at rest, one [step] moves the centres to 98.75 and 116.25: the distance
    is 17.5, still below the sum of the radii, 20. *)
Theorem step_leaves_discs_overlapping :
  let e' := fst (step Scenario.overlapping Scenario.tick) in
  match getBody e' "A", getBody e' "B" with
  | Some a, Some b =>
      position a = mkPoint 98.75%float 100%float
      /\ position b = mkPoint 116.25%float 100%float
      /\ distance (position a) (position b) = 17.5%float
      /\ (distance (position a) (position b) <? radius a + radius b)%num = true
  | _, _ => False
  end.
Proof. vm_compute. repeat split; reflexivity. Qed.

(** C6: when the centres of two discs coincide, the one collision event that
    [step] returns has [NaN] for both components of its normal, so the
    normal is not a unit vector; the positions of both bodies are [NaN]
    afterwards. *)
Theorem coincident_centres_give_nan_normal :
  let (e', events) := step Scenario.coincident Scenario.tick in
  exists c,
    events = [c]
    /\ normal c = mkPoint F64.nan F64.nan
    /\ PrimFloat.eqb (x (normal c) * x (normal c) + y (normal c) * y (normal c)) 1
       = false
    /\ penetration c = 20%float
    /\ option_map position (getBody e' "A") = Some (mkPoint F64.nan F64.nan)
    /\ option_map position (getBody e' "B") = Some (mkPoint F64.nan F64.nan).
Proof. vm_compute. eexists. repeat split; reflexivity. Qed.

(** C8: disc A rests against the left wall and disc B overlaps it; after one
    [step] the centre of A is at 28.75, left of [margin + radius = 30]. *)
Theorem separation_pushes_body_past_wall :
  let e' := fst (step Scenario.at_wall Scenario.tick) in
  match getBody e' "A" with
  | Some a =>
      isStatic a = false
      /\ x (position a) = 28.75%float
      /\ (x (position a) <? margin e' + radius a)%num = true
  | None => False
  end.
Proof. vm_compute. repeat split; reflexivity. Qed.

(** C7: two non-static discs of mass 1 in the middle of the board, far from
    every wall, whose centres coincide and which both move right at speed 1:
    the total momentum is (2, 0).  [checkCollision] reports a collision
    whose normal is [NaN], [resolveCollision] does not take its early exit
    because [NaN > 0] is false, and after the resolution, by [step] or by
    [resolveCollision] alone, both components of the total momentum are
    [NaN]. *)
Theorem coincident_collision_loses_momentum :
  let a := Scenario.stacked_left in
  let b := Scenario.stacked_right in
  isStatic a = false /\ isStatic b = false
  /\ momentum a b = (2%float, 0%float)
  /\ match checkCollision a b with
     | Some c =>
         normal c = mkPoint F64.nan F64.nan
         /\ momentum (fst (resolveCollision c a b)) (snd (resolveCollision c a b))
            = (F64.nan, F64.nan)
     | None => False
     end
  /\ let (e', events) := step Scenario.stacked Scenario.tick in
     List.length events = 1%nat
     /\ match getBody e' "A", getBody e' "B" with
        | Some a', Some b' =>
            isStatic a' = false /\ isStatic b' = false
            /\ mass a' = 1%float /\ mass b' = 1%float
            /\ momentum a' b' = (F64.nan, F64.nan)
        | _, _ => False
        end.
Proof. vm_compute. repeat split; reflexivity. Qed.

(** *** Comparisons on doubles *)

Module F64Order.

Lemma SFcompare_antisym (a b : spec_float) :
  SFcompare b a = option_map CompOpp (SFcompare a b).
Proof.
  destruct a as [[]|[]| |[] m1 e1], b as [[]|[]| |[] m2 e2]; try reflexivity;
    cbn [SFcompare option_map]; f_equal;
    pose proof (Pos.compare_cont_antisym m1 m2 Eq) as A; cbn [CompOpp] in A;
    rewrite (Z.compare_antisym e2 e1);
    destruct (e2 ?= e1)%Z; cbn [CompOpp]; try reflexivity;
    rewrite <- A; try reflexivity; now rewrite CompOpp_involutive.
Qed.

Lemma SFcompare_None (a b : spec_float) :
  SFcompare a b = None -> a = S754_nan \/ b = S754_nan.
Proof.
  destruct a as [[]|[]| |[] m1 e1], b as [[]|[]| |[] m2 e2]; cbn [SFcompare];
    try discriminate; auto.
Qed.

Lemma is_nan_false (a : float) : F64.is_nan a = false -> Prim2SF a <> S754_nan.
Proof.
  unfold F64.is_nan. rewrite FloatAxioms.eqb_spec. unfold SFeqb.
  intros E Hn. rewrite Hn in E. discriminate.
Qed.

Lemma ltb_leb (a b : float) : PrimFloat.ltb a b = true -> PrimFloat.leb a b = true.
Proof.
  rewrite ltb_spec, leb_spec. unfold SFltb, SFleb.
  destruct (SFcompare (Prim2SF a) (Prim2SF b)) as [[]|]; congruence.
Qed.

Lemma not_ltb_leb (a b : float) :
  F64.is_nan a = false -> F64.is_nan b = false ->
  PrimFloat.ltb a b = false -> PrimFloat.leb b a = true.
Proof.
  intros Ha Hb. apply is_nan_false in Ha, Hb.
  rewrite ltb_spec, leb_spec. unfold SFltb, SFleb.
  rewrite (SFcompare_antisym (Prim2SF a) (Prim2SF b)).
  destruct (SFcompare (Prim2SF a) (Prim2SF b)) as [[]|] eqn:E; cbn [option_map CompOpp];
    try congruence.
  apply SFcompare_None in E. tauto.
Qed.

Lemma leb_not_nan (a b : float) :
  PrimFloat.leb a b = true -> F64.is_nan a = false /\ F64.is_nan b = false.
Proof.
  rewrite leb_spec. unfold SFleb, F64.is_nan. rewrite !FloatAxioms.eqb_spec.
  unfold SFeqb.
  destruct (Prim2SF a) as [[]|[]| |[] m1 e1], (Prim2SF b) as [[]|[]| |[] m2 e2];
    cbn [SFcompare negb]; try discriminate; intros _;
    rewrite ?Z.compare_refl, ?Pos.compare_cont_refl; auto.
Qed.

Lemma is_nan_true (a : float) : F64.is_nan a = true -> Prim2SF a = S754_nan.
Proof.
  unfold F64.is_nan. rewrite FloatAxioms.eqb_spec. unfold SFeqb.
  destruct (Prim2SF a) as [[]|[]| |[] m e]; cbn [SFcompare negb];
    rewrite ?Z.compare_refl, ?Pos.compare_cont_refl; try discriminate; reflexivity.
Qed.

(** A quotient by [NaN] is [NaN]. *)
Lemma div_nan_r (a d : float) : F64.is_nan d = true -> F64.is_nan (a / d)%float = true.
Proof.
  intros E. apply is_nan_true in E.
  unfold F64.is_nan. rewrite FloatAxioms.eqb_spec, div_spec, E.
  destruct (Prim2SF a) as [[]|[]| |[] ? ?]; reflexivity.
Qed.

End F64Order.

(** The final clamp of [calculateShotProbability] on doubles: unless the
    value is NaN, the result is between 0.05 and 0.95. *)
Lemma clamp_on_doubles (b : float) :
  F64.is_nan b = false ->
  let q := Math_max (lit 0.05) (Math_min (lit 0.95) b) in
  (lit 0.05 <=? q)%num = true /\ (q <=? lit 0.95)%num = true.
Proof.
  intros Hb. cbv zeta. cbn [Math_max Math_min num_leb Num_float].
  set (lo := lit (N := float) 0.05). set (hi := lit (N := float) 0.95).
  assert (Hlo : F64.is_nan lo = false) by (vm_compute; reflexivity).
  assert (Hhi : F64.is_nan hi = false) by (vm_compute; reflexivity).
  assert (Hm : F64.is_nan (F64.min hi b) = false
               /\ PrimFloat.leb (F64.min hi b) hi = true).
  { unfold F64.min. rewrite Hhi, Hb. cbn [orb].
    destruct (PrimFloat.ltb hi b) eqn:E1.
    - split; [exact Hhi | vm_compute; reflexivity].
    - replace (PrimFloat.ltb (1 / hi) 0) with false by (vm_compute; reflexivity).
      assert (L : PrimFloat.leb b hi = true) by now apply F64Order.not_ltb_leb.
      destruct (PrimFloat.ltb b hi); split; assumption. }
  destruct Hm as [Hmn Hmh]. set (m := F64.min hi b) in *.
  unfold F64.max. rewrite Hlo, Hmn. cbn [orb].
  destruct (PrimFloat.ltb lo m) eqn:E1.
  - split; [now apply F64Order.ltb_leb | exact Hmh].
  - replace (PrimFloat.ltb (1 / lo) 0) with false by (vm_compute; reflexivity).
    destruct (PrimFloat.ltb m lo); split; vm_compute; reflexivity.
Qed.

(** *** Exact arithmetic *)

Lemma ltb_true (a b : R) : Real.ltb a b = true <-> (a < b)%R.
Proof. unfold Real.ltb. destruct (Rlt_dec a b); split; intros; try discriminate; tauto. Qed.

Lemma ltb_false (a b : R) : Real.ltb a b = false <-> (b <= a)%R.
Proof.
  unfold Real.ltb. destruct (Rlt_dec a b); split; intros; try discriminate;
    try reflexivity; lra.
Qed.

Lemma leb_true (a b : R) : Real.leb a b = true <-> (a <= b)%R.
Proof. unfold Real.leb. destruct (Rle_dec a b); split; intros; try discriminate; tauto. Qed.

Lemma leb_false (a b : R) : Real.leb a b = false <-> (b < a)%R.
Proof.
  unfold Real.leb. destruct (Rle_dec a b); split; intros; try discriminate;
    try reflexivity; lra.
Qed.

(** *** The body registry *)

Section Registry.
Context {V : Type}.

Lemma map_get_set_same (k : string) (v : V) (m : list (string * V)) :
    map_get k (map_set k v m) = Some v.
Proof.
    induction m as [|[k' v'] m IH]; simpl.
    - now rewrite String.eqb_refl.
    - destruct (String.eqb_spec k k') as [->|Hne]; simpl.
      + now rewrite String.eqb_refl.
      + destruct (String.eqb_spec k k'); [contradiction | exact IH].
Qed.

Lemma map_get_set_other (k k' : string) (v : V) (m : list (string * V)) :
    k' <> k -> map_get k' (map_set k v m) = map_get k' m.
Proof.
    intros Hne. induction m as [|[k0 v0] m IH]; simpl.
    - destruct (String.eqb_spec k' k); [contradiction | reflexivity].
    - destruct (String.eqb_spec k k0) as [->|Hk]; simpl.
      + destruct (String.eqb_spec k' k0); [contradiction | reflexivity].
      + destruct (String.eqb_spec k' k0); [reflexivity | exact IH].
Qed.

Lemma map_get_update (f : V -> V) (k : string) (m : list (string * V)) :
    map_get k (map_update f m) = option_map f (map_get k m).
Proof.
    induction m as [|[k' v'] m IH]; simpl; [reflexivity|].
    destruct (String.eqb k k'); [reflexivity | exact IH].
Qed.

Lemma map_update_keys (f : V -> V) (m : list (string * V)) :
    map fst (map_update f m) = map fst m.
Proof. unfold map_update. rewrite map_map. reflexivity. Qed.

End Registry.

(** C5, as the code has it: [addBody] and [updateBody] have no failure
    outcome and check nothing.  Whatever the id, radius and mass, [addBody]
    stores the body under its id (replacing a body registered under that
    id) and leaves every other entry alone; [updateBody] merges the given
    fields into the registered body, and does nothing for an unknown id. *)
Theorem addBody_updateBody_accept_everything
    {N : Type} `{Num N} (e : PhysicsEngine N) (body : PhysicsBody N)
    (k : string) (updates : PartialBody N) :
  getBody (addBody e body) (id body) = Some body
  /\ (forall k', k' <> id body -> getBody (addBody e body) k' = getBody e k')
  /\ getBody (updateBody e k updates) k
     = option_map (fun b => assign b updates) (getBody e k)
  /\ (forall k', k' <> k -> getBody (updateBody e k updates) k' = getBody e k').
Proof.
  unfold getBody, addBody, updateBody. simpl. repeat split.
  - apply map_get_set_same.
  - intros k' Hne. now apply map_get_set_other.
  - destruct (map_get k (bodies e)) as [b|] eqn:Hk; simpl.
    + apply map_get_set_same.
    + exact Hk.
  - intros k' Hne. destruct (map_get k (bodies e)) as [b|]; simpl.
    + now apply map_get_set_other.
    + reflexivity.
Qed.

Lemma addBody_updateBody_accept_everything_witness :
  getBody (addBody Scenario.one_disc Scenario.malformed) "A" = Some Scenario.malformed
  /\ getBody (updateBody Scenario.one_disc "A" Scenario.shrink) "A"
     = option_map (fun b => assign b Scenario.shrink) (getBody Scenario.one_disc "A").
Proof.
  destruct (addBody_updateBody_accept_everything
              Scenario.one_disc Scenario.malformed "A" Scenario.shrink)
    as (H1 & _ & H3 & _).
  split; [exact H1 | exact H3].
Defined.

(** C5, as stated, fails: a body with radius -1 and mass 0 that reuses the
    id of a registered disc is stored in place of that disc, and
    [updateBody] sets a registered disc's radius to -1 and its mass to 0. *)
Lemma malformed_body_enters_registry :
  (radius Scenario.malformed <=? lit 0)%num = true
  /\ (mass Scenario.malformed <=? lit 0)%num = true
  /\ getBody Scenario.one_disc "A" = Some (Scenario.disc "A" 100 100 10)
  /\ getBody (addBody Scenario.one_disc Scenario.malformed) "A" = Some Scenario.malformed
  /\ addBody Scenario.one_disc Scenario.malformed <> Scenario.one_disc
  /\ option_map radius (getBody (updateBody Scenario.one_disc "A" Scenario.shrink) "A")
     = Some (-1)%float
  /\ updateBody Scenario.one_disc "A" Scenario.shrink <> Scenario.one_disc.
Proof.
  repeat split; try (vm_compute; reflexivity).
  - intro E.
    apply (f_equal (fun e => option_map (fun b => PrimFloat.leb (radius b) 0)
                                        (getBody e "A"))) in E.
    vm_compute in E. discriminate.
  - intro E.
    apply (f_equal (fun e => option_map (fun b => PrimFloat.leb (radius b) 0)
                                        (getBody e "A"))) in E.
    vm_compute in E. discriminate.
Qed.

(** *** Stopping *)

Lemma speed_at_rest :
  (Math_sqrt (lit (N:=float) 0 * lit 0 + lit 0 * lit 0) >? lit 0.1)%num = false.
Proof. vm_compute. reflexivity. Qed.

Lemma stopped_bodies_do_not_move (m : list (string * PhysicsBody float)) :
  existsb
    (fun body =>
       if isStatic body then false
       else (Math_sqrt (x (velocity body) * x (velocity body)
                        + y (velocity body) * y (velocity body)) >? lit 0.1)%num)
    (map_values
       (map_update (fun body => set_velocity body (mkPoint (lit 0) (lit 0))) m))
  = false.
Proof.
  induction m as [|[k b] m IH]; [reflexivity|].
  unfold map_values, map_update in *. cbn [map existsb fst snd].
  rewrite IH. cbn [set_velocity isStatic velocity x y].
  destruct (isStatic b); [reflexivity|].
  rewrite speed_at_rest. reflexivity.
Qed.

(** C10: [stopAllBodies] keeps the registry's keys and their order and the
    board's fields, gives every body, static or not, the velocity (0,0) and
    keeps all its other fields; [hasMovingBodies] is false afterwards. *)
Theorem stopAllBodies_stops_and_frames (e : PhysicsEngine float) :
  let e' := stopAllBodies e in
  map fst (bodies e') = map fst (bodies e)
  /\ (boardWidth e', boardHeight e', margin e', gravity e', airResistance e')
     = (boardWidth e, boardHeight e, margin e, gravity e, airResistance e)
  /\ (forall k,
        match getBody e k, getBody e' k with
        | Some b, Some b' =>
            velocity b' = mkPoint 0%float 0%float
            /\ id b' = id b /\ position b' = position b /\ radius b' = radius b
            /\ mass b' = mass b /\ friction b' = friction b
            /\ restitution b' = restitution b /\ isStatic b' = isStatic b
        | None, None => True
        | _, _ => False
        end)
  /\ hasMovingBodies e' = false.
Proof.
  unfold stopAllBodies, hasMovingBodies, getBody. simpl. repeat split.
  - apply map_update_keys.
  - intros k. rewrite map_get_update.
    destruct (map_get k (bodies e)) as [b|]; simpl; [|exact I].
    repeat split.
  - apply stopped_bodies_do_not_move.
Qed.

(** *** Segment intersection *)

(** Below the threshold of [lineIntersection] there is room: a determinant
    whose magnitude is not under 1e-10 is not zero. *)
Lemma determinant_not_zero (d : R) :
  (Math_abs d <? lit 1e-10)%num = false -> d <> 0%R.
Proof.
  cbn [num_ltb Math_abs lit Num_R]. unfold Real.ltb. intros E Hd.
  rewrite Hd, Rabs_R0 in E.
  destruct (Rlt_dec 0 (Q2R 1e-10)) as [|Hn]; [discriminate|].
  apply Hn. change (Q2R 1e-10) with (Q2R (1 # 10000000000)).
  unfold Q2R. cbn [Qnum Qden]. lra.
Qed.

(** C9: [lineIntersection] computes the determinant and the parameters [t]
    and [u] by the formulas below; it returns no point when the
    determinant's magnitude is below 1e-10 or one of [t], [u] is not in
    [0,1], and otherwise the point [start1 + t (end1 - start1)]; this for
    every number type, doubles included.  On doubles the parameters of a
    returned point are numbers.  Over the real numbers the parameters solve
    the intersection: a returned point lies on both segments, at [t] on the
    first and at [u] on the second, and every point the two segments share
    at parameters in [0,1] is returned when the determinant's magnitude is
    at least 1e-10. *)
Theorem lineIntersection_cases :
  (forall (N : Type) (num : Num N) (line1 line2 : Line N),
      let x1 := x (start line1) in let y1 := y (start line1) in
      let x2 := x (end_ line1) in let y2 := y (end_ line1) in
      let x3 := x (start line2) in let y3 := y (start line2) in
      let x4 := x (end_ line2) in let y4 := y (end_ line2) in
      let denom := ((x1 - x2) * (y3 - y4) - (y1 - y2) * (x3 - x4))%num in
      let t := (((x1 - x3) * (y3 - y4) - (y1 - y3) * (x3 - x4)) / denom)%num in
      let u := ((- ((x1 - x2) * (y1 - y3) - (y1 - y2) * (x1 - x3))) / denom)%num in
      let parallel := (Math_abs denom <? lit 1e-10)%num in
      let inside :=
        ((t >=? lit 0) && (t <=? lit 1) && (u >=? lit 0) && (u <=? lit 1))%num in
      (lineIntersection line1 line2 = None <-> parallel = true \/ inside = false)
      /\ (forall p, lineIntersection line1 line2 = Some p ->
            p = mkPoint (x1 + t * (x2 - x1))%num (y1 + t * (y2 - y1))%num
            /\ parallel = false /\ inside = true))
  /\ (forall (line1 line2 : Line float) (p : Point float),
        let x1 := x (start line1) in let y1 := y (start line1) in
        let x2 := x (end_ line1) in let y2 := y (end_ line1) in
        let x3 := x (start line2) in let y3 := y (start line2) in
        let x4 := x (end_ line2) in let y4 := y (end_ line2) in
        let denom := ((x1 - x2) * (y3 - y4) - (y1 - y2) * (x3 - x4))%num in
        let t := (((x1 - x3) * (y3 - y4) - (y1 - y3) * (x3 - x4)) / denom)%num in
        let u := ((- ((x1 - x2) * (y1 - y3) - (y1 - y2) * (x1 - x3))) / denom)%num in
        lineIntersection line1 line2 = Some p ->
        F64.is_nan denom = false /\ F64.is_nan t = false /\ F64.is_nan u = false)
  /\ (forall (line1 line2 : Line R),
        let x1 := x (start line1) in let y1 := y (start line1) in
        let x2 := x (end_ line1) in let y2 := y (end_ line1) in
        let x3 := x (start line2) in let y3 := y (start line2) in
        let x4 := x (end_ line2) in let y4 := y (end_ line2) in
        let denom := ((x1 - x2) * (y3 - y4) - (y1 - y2) * (x3 - x4))%R in
        (forall p, lineIntersection line1 line2 = Some p ->
           exists t u : R,
             (0 <= t <= 1)%R /\ (0 <= u <= 1)%R
             /\ p = mkPoint (x1 + t * (x2 - x1))%R (y1 + t * (y2 - y1))%R
             /\ p = mkPoint (x3 + u * (x4 - x3))%R (y3 + u * (y4 - y3))%R)
        /\ (forall t u : R,
              (0 <= t <= 1)%R -> (0 <= u <= 1)%R ->
              (x1 + t * (x2 - x1) = x3 + u * (x4 - x3))%R ->
              (y1 + t * (y2 - y1) = y3 + u * (y4 - y3))%R ->
              (Q2R 1e-10 <= Rabs denom)%R ->
              lineIntersection line1 line2
              = Some (mkPoint (x1 + t * (x2 - x1))%R (y1 + t * (y2 - y1))%R))
        /\ ((Rabs denom < Q2R 1e-10)%R -> lineIntersection line1 line2 = None)).
Proof.
  split; [|split].
  - intros N num line1 line2 x1 y1 x2 y2 x3 y3 x4 y4 denom0 t u parallel inside.
    unfold lineIntersection. cbv zeta.
    fold x1 y1 x2 y2 x3 y3 x4 y4. fold denom0. fold t u. fold parallel. fold inside.
    destruct parallel; [|destruct inside]; split.
    + split; [now left | reflexivity].
    + discriminate.
    + split; [discriminate | intros [E|E]; discriminate].
    + intros p E. injection E as <-. repeat split.
    + split; [now right | reflexivity].
    + discriminate.
  - intros line1 line2 p x1 y1 x2 y2 x3 y3 x4 y4 denom0 t u.
    unfold lineIntersection. cbv zeta.
    fold x1 y1 x2 y2 x3 y3 x4 y4. fold denom0. fold t u.
    destruct (Math_abs denom0 <? lit 1e-10)%num eqn:Ed; [discriminate|].
    destruct (lit 0 <=? t)%num eqn:E1; [|discriminate].
    destruct (lit 0 <=? u)%num eqn:E2;
      [|cbn [andb]; rewrite Bool.andb_false_r; discriminate].
    intros _. apply F64Order.leb_not_nan in E1, E2.
    destruct E1 as [_ Et], E2 as [_ Eu].
    repeat split; try assumption.
    destruct (F64.is_nan denom0) eqn:En; [|reflexivity].
    exfalso. unfold t in Et.
    change (_ / denom0)%num with
      (((x1 - x3) * (y3 - y4) - (y1 - y3) * (x3 - x4))%num / denom0)%float in Et.
    rewrite (F64Order.div_nan_r _ denom0 En) in Et. discriminate.
  - intros line1 line2 x1 y1 x2 y2 x3 y3 x4 y4 d.
    destruct line1 as [[a1 b1] [a2 b2]], line2 as [[a3 b3] [a4 b4]].
    cbn [start end_ x y] in *. subst x1 y1 x2 y2 x3 y3 x4 y4.
    unfold lineIntersection.
    cbn [start end_ x y]. cbv zeta.
    split; [|split].
    + intros p.
      destruct (Math_abs _ <? lit 1e-10)%num eqn:E; [discriminate|].
      apply determinant_not_zero in E.
      match goal with
      | |- (if (?c1 && ?c2 && ?c3 && ?c4)%bool then _ else _) = _ -> _ =>
          destruct c1 eqn:T0; [|discriminate];
          destruct c2 eqn:T1; [|discriminate];
          destruct c3 eqn:U0; [|discriminate];
          destruct c4 eqn:U1; [|discriminate]
      end.
      cbn [andb]. intros Ep. injection Ep as <-.
      apply leb_true in T0, T1, U0, U1. real_ops.
      match type of T1 with (?t <= _)%R => exists t end.
      match type of U1 with (?u <= _)%R => exists u end.
      split; [lra|]. split; [lra|]. split; [reflexivity|].
      f_equal; field; exact E.
    + intros t u Ht Hu Hx Hy Hd.
      destruct (Math_abs _ <? lit 1e-10)%num eqn:E.
      { exfalso. revert E. real_ops. unfold Real.ltb.
        destruct (Rlt_dec _ _) as [L|]; [|discriminate]. intros _.
        fold d in L. unfold Q2R in Hd. cbn [Qnum Qden] in Hd. lra. }
      apply determinant_not_zero in E. real_ops. fold d in E |- *.
      assert (Et : (((a1 - a3) * (b3 - b4) - (b1 - b3) * (a3 - a4)) / d = t)%R).
      { apply Rmult_eq_reg_r with d; [|exact E].
        unfold Rdiv. rewrite Rmult_assoc, Rinv_l, Rmult_1_r by exact E.
        unfold d.
        replace (a1 - a3)%R with (u * (a4 - a3) - t * (a2 - a1))%R by lra.
        replace (b1 - b3)%R with (u * (b4 - b3) - t * (b2 - b1))%R by lra.
        ring. }
      assert (Eu : (- ((a1 - a2) * (b1 - b3) - (b1 - b2) * (a1 - a3)) / d = u)%R).
      { apply Rmult_eq_reg_r with d; [|exact E].
        unfold Rdiv. rewrite Rmult_assoc, Rinv_l, Rmult_1_r by exact E.
        unfold d.
        replace (a1 - a3)%R with (u * (a4 - a3) - t * (a2 - a1))%R by lra.
        replace (b1 - b3)%R with (u * (b4 - b3) - t * (b2 - b1))%R by lra.
        ring. }
      rewrite Et, Eu.
      assert (L : forall a b : R, (a <= b)%R -> Real.leb a b = true).
      { intros a b Hab. unfold Real.leb. destruct (Rle_dec a b); [reflexivity | contradiction]. }
      rewrite !L by lra. reflexivity.
    + intros Hd. real_ops. fold d. unfold Real.ltb.
      destruct (Rlt_dec _ _) as [|Hn]; [reflexivity|].
      exfalso. apply Hn. unfold Q2R in Hd. cbn [Qnum Qden] in Hd. exact Hd.
Qed.

Lemma lineIntersection_cases_witness :
  lineIntersection Scenario.diagonal Scenario.antidiagonal
  = Some (mkPoint 2%float 2%float)
  /\ (Math_abs (lit 0 - lit 16 : float) <? lit 1e-10)%num = false.
Proof.
  destruct lineIntersection_cases as [G _].
  destruct (G float _ Scenario.diagonal Scenario.antidiagonal) as [_ Hp].
  destruct (Hp (mkPoint 2%float 2%float)) as (_ & Hd & _).
  - vm_compute. reflexivity.
  - split; [vm_compute; reflexivity|].
    vm_compute in Hd |- *. reflexivity.
Defined.

(** *** Collision resolution over the real numbers *)

(** When [resolveCollision] acts on two non-static bodies of positive mass,
    the total momentum [massA * velocityA + massB * velocityB] is the same
    after as before, in both components.  This is exact over the real
    numbers, whatever the normal and the penetration of the collision. *)
Lemma resolveCollision_conserves_momentum_over_reals
    (c : CollisionResult R) (a b : PhysicsBody R) :
  isStatic a = false -> isStatic b = false ->
  (0 < mass a)%R -> (0 < mass b)%R ->
  momentum (fst (resolveCollision c a b)) (snd (resolveCollision c a b))
  = momentum a b.
Proof.
  intros Ha Hb Hma Hmb.
  unfold resolveCollision, set_position, set_velocity. rewrite Ha, Hb.
  cbv zeta. body_fields.
  match goal with |- context [if ?t then _ else _] => destruct t end;
    unfold momentum; body_fields.
  - reflexivity.
  - real_ops. f_equal; field; repeat split; lra.
Qed.

(** The same collision on doubles: the x-momentum is 1 before and within
    1e-12 of 1 after, the y-momentum is 0 before and after. *)
Lemma momentum_on_doubles :
  let a := Scenario.left_disc (N := float) in
  let b := Scenario.right_disc (N := float) in
  let a' := fst (resolveCollision Scenario.contact a b) in
  let b' := snd (resolveCollision Scenario.contact a b) in
  (mass a * x (velocity a) + mass b * x (velocity b))%float = 1%float
  /\ PrimFloat.ltb
       (PrimFloat.abs (mass a' * x (velocity a') + mass b' * x (velocity b') - 1))
       1e-12 = true
  /\ (mass a' * y (velocity a') + mass b' * y (velocity b'))%float = 0%float.
Proof. vm_compute. repeat split; reflexivity. Qed.

(** For two non-static bodies, [resolveCollision] widens the gap between the
    centres by half the penetration along the normal, whatever the masses. *)
Lemma resolveCollision_closes_half_the_overlap
    (c : CollisionResult R) (a b : PhysicsBody R) :
  isStatic a = false -> isStatic b = false ->
  (0 < mass a)%R -> (0 < mass b)%R ->
  let a' := fst (resolveCollision c a b) in
  let b' := snd (resolveCollision c a b) in
  (x (position b') - x (position a')
   = x (position b) - x (position a) + x (normal c) * (penetration c / 2))%R
  /\ (y (position b') - y (position a')
      = y (position b) - y (position a) + y (normal c) * (penetration c / 2))%R.
Proof.
  intros Ha Hb Hma Hmb.
  unfold resolveCollision, set_position, set_velocity. rewrite Ha, Hb.
  cbv zeta. body_fields.
  match goal with |- context [if ?t then _ else _] => destruct t end;
    body_fields; real_ops; split; field; lra.
Qed.

(** When the centres differ, the normal of a detected collision is a unit
    vector and the penetration is positive. *)
Lemma checkCollision_unit_normal (a b : PhysicsBody R) (c : CollisionResult R) :
  checkCollision a b = Some c ->
  position a <> position b ->
  (x (normal c) * x (normal c) + y (normal c) * y (normal c) = 1)%R
  /\ (0 < penetration c)%R.
Proof.
  unfold checkCollision, distance. cbv zeta. real_ops.
  destruct a as [ka [ax ay] va ra ma fa ea sa], b as [kb [bx by_] vb rb mb fb eb sb].
  body_fields.
  set (s := ((bx - ax) * (bx - ax) + (by_ - ay) * (by_ - ay))%R).
  destruct (Real.ltb (sqrt s) (ra + rb)) eqn:E; [|discriminate].
  intros Ec Hne. injection Ec as <-. body_fields. apply ltb_true in E.
  assert (Hs : (0 <= s)%R).
  { unfold s. apply Rplus_le_le_0_compat; apply Rle_0_sqr. }
  assert (Hpos : (0 < s)%R).
  { destruct Hs as [Hs|Hs]; [exact Hs|]. exfalso. apply Hne.
    symmetry in Hs. unfold s in Hs.
    destruct (Rplus_sqr_eq_0 (bx - ax) (by_ - ay) Hs) as [Hx Hy].
    f_equal; lra. }
  assert (Hq : (0 < sqrt s)%R) by now apply sqrt_lt_R0.
  split; [|lra].
  assert (Hqq : (sqrt s * sqrt s = s)%R) by (apply sqrt_sqrt; lra).
  clear E. set (q := sqrt s) in *. clearbody q. unfold s in Hqq. clear s Hs Hpos.
  transitivity (((bx - ax) * (bx - ax) + (by_ - ay) * (by_ - ay)) / (q * q))%R.
  - field. lra.
  - rewrite <- Hqq. field. lra.
Qed.

(** *** The predictor against the step *)

Lemma sqrt_above (a s : R) : (0 <= a)%R -> (a * a < s)%R -> (a < sqrt s)%R.
Proof.
  intros Ha Hs. rewrite <- (sqrt_square a Ha) at 1.
  apply sqrt_lt_1_alt. split; [nra | exact Hs].
Qed.

Lemma collideAll_single {N : Type} `{Num N} (k : string) (b : PhysicsBody N) :
  collideAll [(k, b)] = ([(k, b)], []).
Proof. reflexivity. Qed.

(** [integrate] touches position and velocity only. *)
Lemma integrate_frame {N : Type} `{Num N} (e : PhysicsEngine N) (dt : N)
    (b : PhysicsBody N) :
  id (integrate e dt b) = id b
  /\ radius (integrate e dt b) = radius b
  /\ mass (integrate e dt b) = mass b
  /\ friction (integrate e dt b) = friction b
  /\ restitution (integrate e dt b) = restitution b
  /\ isStatic (integrate e dt b) = isStatic b.
Proof. unfold integrate. destruct (isStatic b) eqn:E; repeat split; assumption. Qed.

(** On a board wider and higher than twice [margin + radius], the four wall
    tests of [handleWallCollisions] amount to the two of the predictor. *)
Lemma handleWallCollisions_bounce
    (bs : list (string * PhysicsBody R)) (width height air : R) (g : Vector R)
    (b : PhysicsBody R) :
  let e := mkEngine bs width height (lit 20) g air in
  (2 * (20 + radius b) < width)%R ->
  (2 * (20 + radius b) < height)%R ->
  handleWallCollisions e b
  = mkBody (id b)
      (mkPoint
         (if (x (position b) - radius b <=? lit 20)%num
             || (x (position b) + radius b >=? width - lit 20)%num
          then if (x (position b) - radius b <=? lit 20)%num
               then (lit 20 + radius b)%num else (width - lit 20 - radius b)%num
          else x (position b))
         (if (y (position b) - radius b <=? lit 20)%num
             || (y (position b) + radius b >=? height - lit 20)%num
          then if (y (position b) - radius b <=? lit 20)%num
               then (lit 20 + radius b)%num else (height - lit 20 - radius b)%num
          else y (position b)))
      (mkPoint
         (if (x (position b) - radius b <=? lit 20)%num
             || (x (position b) + radius b >=? width - lit 20)%num
          then (- x (velocity b) * restitution b)%num else x (velocity b))
         (if (y (position b) - radius b <=? lit 20)%num
             || (y (position b) + radius b >=? height - lit 20)%num
          then (- y (velocity b) * restitution b)%num else y (velocity b)))
      (radius b) (mass b) (friction b) (restitution b) (isStatic b).
Proof.
  intros e Hw Hh. subst e.
  destruct b as [k [px py] [vx vy] r m f rs st].
  unfold handleWallCollisions.
  unfold leftWall, set_position, set_velocity. body_fields. real_ops. unfold Real.leb.
  destruct (Rle_dec (px - r) (20 * / 1)); cbn [orb];
    unfold rightWall, set_position, set_velocity; body_fields; real_ops;
    unfold Real.leb;
    match goal with
    | |- context [Rle_dec (width - ?m) ?a] => destruct (Rle_dec (width - m) a)
    end; try (exfalso; lra);
    unfold topWall, set_position, set_velocity; body_fields; real_ops;
    unfold Real.leb;
    (destruct (Rle_dec (py - r) (20 * / 1)); cbn [orb];
     unfold bottomWall, set_position, set_velocity; body_fields; real_ops;
     unfold Real.leb;
     match goal with
     | |- context [Rle_dec (height - ?m) ?a] => destruct (Rle_dec (height - m) a)
     end; try (exfalso; lra); reflexivity).
Qed.

(** The four wall tests of [handleWallCollisions] amount to the two of the
    predictor when a body put back at the left or top wall does not pass the
    test of the opposite wall. *)
Lemma handleWallCollisions_one_bounce {N : Type} `{Num N}
    (bs : list (string * PhysicsBody N)) (width height m air : N) (g : Vector N)
    (b : PhysicsBody N) :
  let e := mkEngine bs width height m g air in
  (m + radius b + radius b >=? width - m)%num = false ->
  (m + radius b + radius b >=? height - m)%num = false ->
  handleWallCollisions e b
  = mkBody (id b)
      (mkPoint
         (if (x (position b) - radius b <=? m)%num
             || (x (position b) + radius b >=? width - m)%num
          then if (x (position b) - radius b <=? m)%num
               then (m + radius b)%num else (width - m - radius b)%num
          else x (position b))
         (if (y (position b) - radius b <=? m)%num
             || (y (position b) + radius b >=? height - m)%num
          then if (y (position b) - radius b <=? m)%num
               then (m + radius b)%num else (height - m - radius b)%num
          else y (position b)))
      (mkPoint
         (if (x (position b) - radius b <=? m)%num
             || (x (position b) + radius b >=? width - m)%num
          then (- x (velocity b) * restitution b)%num else x (velocity b))
         (if (y (position b) - radius b <=? m)%num
             || (y (position b) + radius b >=? height - m)%num
          then (- y (velocity b) * restitution b)%num else y (velocity b)))
      (radius b) (mass b) (friction b) (restitution b) (isStatic b).
Proof.
  intros e Hw Hh. subst e.
  destruct b as [k [px py] [vx vy] r ms f rs st].
  unfold handleWallCollisions. body_fields.
  unfold leftWall, set_position, set_velocity. body_fields.
  destruct (px - r <=? m)%num eqn:L; cbn [orb];
    unfold rightWall, set_position, set_velocity; body_fields;
    [rewrite Hw | destruct (px + r >=? width - m)%num eqn:Rt];
    unfold topWall, set_position, set_velocity; body_fields;
    (destruct (py - r <=? m)%num eqn:T; cbn [orb];
     unfold bottomWall, set_position, set_velocity; body_fields;
     [rewrite Hh | destruct (py + r >=? height - m)%num eqn:B]; reflexivity).
Qed.

(** One pass of the predictor against [step] on a body alone in the
    registry, for every number type; the hypotheses are the tests as the
    code computes them. *)
Lemma simulateIteration_matches_step {N : Type} `{Num N}
    (width height deltaTime : N) (body : PhysicsBody N) :
  let e := newPhysicsEngine width height in
  isStatic body = false ->
  friction body = lit 0.02 ->
  restitution body = lit 0.8 ->
  (x (velocity body) + x (gravity e) * deltaTime)%num = x (velocity body) ->
  (y (velocity body) + y (gravity e) * deltaTime)%num = y (velocity body) ->
  (dragSpeed e (velocity body) >? lit 0.1)%num = true ->
  (margin e + radius body + radius body >=? width - margin e)%num = false ->
  (margin e + radius body + radius body >=? height - margin e)%num = false ->
  exists pos vel,
    simulateIteration e (radius body) deltaTime (position body) (velocity body)
    = Some (pos, vel)
    /\ stepAlone e deltaTime body = Some (set_velocity (set_position body pos) vel).
Proof.
  intros e Hs Hf Hr Hgx Hgy Hv Hw Hh.
  unfold stepAlone, step, addBody, set_bodies, getBody. body_fields.
  cbn [map_set map_update map fst snd]. rewrite collideAll_single.
  cbn [map_get fst bodies]. rewrite String.eqb_refl.
  subst e. unfold newPhysicsEngine, dragSpeed in *. body_fields.
  set (e1 := mkEngine [(id body, body)] width height (lit 20)
                      (mkPoint (lit 0) (lit 0)) (lit 0.999)).
  destruct (integrate_frame e1 deltaTime body) as (Hid & Hrad & Hm & Hfr & Hre & Hst).
  rewrite Hst, Hs.
  unfold e1 at 1.
  rewrite handleWallCollisions_one_bounce by (rewrite Hrad; assumption).
  rewrite Hid, Hrad, Hm, Hfr, Hre, Hst, Hr.
  assert (Hi : integrate e1 deltaTime body = integrate e1 deltaTime body) by reflexivity.
  unfold integrate at 2 in Hi. rewrite Hs, Hf in Hi.
  unfold e1 in Hi. body_fields.
  cbv zeta in Hi, Hv. rewrite Hgx, Hgy in Hi.
  rewrite Hv in Hi. fold e1 in Hi.
  unfold simulateIteration. body_fields. cbv zeta. rewrite Hv.
  unfold set_position, set_velocity in *. body_fields.
  rewrite Hi. body_fields. clear Hi Hid Hrad Hm Hfr Hre Hst.
  set (vx := if (Math_abs (x (velocity body) * _) >? _)%num then _ else _).
  set (vy := if (Math_abs (y (velocity body) * _) >? _)%num then _ else _).
  repeat match goal with
         | |- context [(?a <=? ?b)%num] => destruct (a <=? b)%num
         end;
    cbn [orb]; eexists; eexists; (split; [reflexivity | rewrite ?Hr; reflexivity]).
Qed.

(** C4, as the code has it: [simulateTrajectory] hard-codes friction 0.02
    and restitution 0.8 and stops at low speed.  For every number type,
    doubles included: for a non-static body with exactly these coefficients
    whose speed after air resistance exceeds 0.1, when adding the gravity
    term of [step] leaves the velocity as it is and a body put back at the
    left or top wall does not pass the test of the opposite wall, one pass
    of the predictor's loop computes the position and velocity that [step]
    gives the body when it is alone in the registry.  Over the real numbers
    the last two conditions hold on every board wider and higher than twice
    [margin + radius]. *)
Theorem simulateIteration_agrees_with_step :
  (forall (N : Type) (num : Num N) (width height deltaTime : N) (body : PhysicsBody N),
      let e := newPhysicsEngine width height in
      isStatic body = false ->
      friction body = lit 0.02 ->
      restitution body = lit 0.8 ->
      (x (velocity body) + x (gravity e) * deltaTime)%num = x (velocity body) ->
      (y (velocity body) + y (gravity e) * deltaTime)%num = y (velocity body) ->
      (dragSpeed e (velocity body) >? lit 0.1)%num = true ->
      (margin e + radius body + radius body >=? width - margin e)%num = false ->
      (margin e + radius body + radius body >=? height - margin e)%num = false ->
      exists pos vel,
        simulateIteration e (radius body) deltaTime (position body) (velocity body)
        = Some (pos, vel)
        /\ stepAlone e deltaTime body
           = Some (set_velocity (set_position body pos) vel))
  /\ (forall (width height deltaTime : R) (body : PhysicsBody R),
        let e := newPhysicsEngine width height in
        isStatic body = false ->
        friction body = lit 0.02 ->
        restitution body = lit 0.8 ->
        (dragSpeed e (velocity body) >? lit 0.1)%num = true ->
        (2 * (20 + radius body) < width)%R ->
        (2 * (20 + radius body) < height)%R ->
        exists pos vel,
          simulateIteration e (radius body) deltaTime (position body) (velocity body)
          = Some (pos, vel)
          /\ stepAlone e deltaTime body
             = Some (set_velocity (set_position body pos) vel)).
Proof.
  split.
  - intros N num width height deltaTime body e Hs Hf Hr Hgx Hgy Hv Hw Hh.
    now apply simulateIteration_matches_step.
  - intros width height deltaTime body e Hs Hf Hr Hv Hw Hh.
    apply simulateIteration_matches_step; try assumption;
      unfold newPhysicsEngine; body_fields.
    + real_ops. lra.
    + real_ops. lra.
    + cbn [num_leb num_add num_sub lit Num_R]. apply leb_false.
      unfold Q2R. cbn [Qnum Qden]. lra.
    + cbn [num_leb num_add num_sub lit Num_R]. apply leb_false.
      unfold Q2R. cbn [Qnum Qden]. lra.
Qed.

Lemma simulateIteration_agrees_with_step_witness :
  (exists pos vel,
     simulateIteration (newPhysicsEngine (lit 600) (lit 600))
                       (radius (Scenario.left_disc (N := float))) Scenario.tick
                       (position Scenario.left_disc) (velocity Scenario.left_disc)
     = Some (pos, vel)
     /\ stepAlone (newPhysicsEngine (lit 600) (lit 600)) Scenario.tick Scenario.left_disc
        = Some (set_velocity (set_position Scenario.left_disc pos) vel))
  /\ (exists pos vel,
        simulateIteration (newPhysicsEngine (lit 600) (lit 600)) (radius Scenario.moving)
                          Scenario.tick (position Scenario.moving)
                          (velocity Scenario.moving)
        = Some (pos, vel)
        /\ stepAlone (newPhysicsEngine (lit 600) (lit 600)) Scenario.tick Scenario.moving
           = Some (set_velocity (set_position Scenario.moving pos) vel)).
Proof.
  destruct simulateIteration_agrees_with_step as [G Re].
  split.
  - apply (G float _ (lit 600) (lit 600) Scenario.tick Scenario.left_disc);
      vm_compute; reflexivity.
  - apply Re.
    + reflexivity.
    + reflexivity.
    + reflexivity.
    + unfold dragSpeed, Scenario.moving, newPhysicsEngine. body_fields. cbv zeta.
      real_ops. apply ltb_true. apply sqrt_above; lra.
    + unfold Scenario.moving. body_fields. real_ops. lra.
    + unfold Scenario.moving. body_fields. real_ops. lra.
Defined.

(** C4, as stated, fails: a disc with friction 0.02 and restitution 0.8 at
    (25,100), radius 10, velocity (0.05,0) is put back at x = 30 by [step],
    with velocity zero, while the predictor stops before moving the point:
    its trajectory is the start point alone. *)
Lemma predictor_skips_slow_body :
  friction Scenario.slow = lit 0.02
  /\ restitution Scenario.slow = lit 0.8
  /\ option_map position (stepAlone Scenario.board600 Scenario.tick Scenario.slow)
     = Some (mkPoint 30%float 100%float)
  /\ simulateIteration Scenario.board600 (radius Scenario.slow) Scenario.tick
                       (position Scenario.slow) (velocity Scenario.slow)
     = None
  /\ simulateTrajectory Scenario.board600 (position Scenario.slow)
                        (velocity Scenario.slow) (radius Scenario.slow) 100 Scenario.tick
     = [mkPoint 25%float 100%float].
Proof. repeat split; vm_compute; reflexivity. Qed.

(** The test of the opposite wall is the one the code computes.  On a board
    of width 40.200000000000003 a disc of radius 0.1 that [step] puts back
    at the left wall, at x = 20.1, passes the test of the right wall,
    because [20.1 + 0.1] and [width - 20] are the same double: [step]
    reverses the velocity a second time, the predictor does not. *)
Lemma narrow_board_bounces_twice :
  let e := Scenario.narrow in
  let b := Scenario.skimmer in
  (margin e + radius b + radius b >=? boardWidth e - margin e)%num = true
  /\ (dragSpeed e (velocity b) >? lit 0.1)%num = true
  /\ option_map snd (simulateIteration e (radius b) Scenario.tick (position b) (velocity b))
     = Some (mkPoint 7.9917333333333334%float 0%float)
  /\ option_map velocity (stepAlone e Scenario.tick b)
     = Some (mkPoint (-6.3933866666666672)%float 0%float).
Proof. vm_compute. repeat split; reflexivity. Qed.

(** *** Fuel *)

Section Fuel.

Lemma settles_ret {A : Type} (a : A) : settles (fun _ => Some a) a.
Proof. exists 0%nat. reflexivity. Qed.

Lemma settles_bind {A B : Type} (f : nat -> option A) (g : nat -> A -> option B) a b :
    settles f a -> settles (fun n => g n a) b ->
    settles (fun n => bind (f n) (g n)) b.
Proof.
    intros [n1 H1] [n2 H2]. exists (Nat.max n1 n2). intros fuel Hle.
    rewrite H1 by lia. simpl. apply H2. lia.
Qed.

Lemma settlesIn_ret {A : Type} (a : A) (Q : A -> Prop) :
    Q a -> settlesIn (fun _ => Some a) Q.
Proof. intros HQ. exists a. split; [apply settles_ret | exact HQ]. Qed.

Lemma settlesIn_bind {A B : Type} (f : nat -> option A) (g : nat -> A -> option B)
      (P : A -> Prop) (Q : B -> Prop) :
    settlesIn f P ->
    (forall a, P a -> settlesIn (fun n => g n a) Q) ->
    settlesIn (fun n => bind (f n) (g n)) Q.
Proof.
    intros (a & Ha & HP) Hg. destruct (Hg a HP) as (b & Hb & HQ).
    exists b. split; [eapply settles_bind; eassumption | exact HQ].
Qed.

Lemma settlesIn_weaken {A : Type} (f : nat -> option A) (P Q : A -> Prop) :
    settlesIn f P -> (forall a, P a -> Q a) -> settlesIn f Q.
Proof. intros (a & Ha & HP) HPQ. exists a. auto. Qed.

Lemma settlesIn_mapM {A B : Type} (f : nat -> A -> option B) (Q : A -> B -> Prop)
      (l : list A) :
    (forall a, In a l -> settlesIn (fun n => f n a) (Q a)) ->
    settlesIn (fun n => mapM (f n) l) (Forall2 Q l).
Proof.
    induction l as [|a l IH]; intros Hl; simpl.
    - apply settlesIn_ret. constructor.
    - apply settlesIn_bind with (P := Q a).
      + apply Hl. now left.
      + intros b Hb. apply settlesIn_bind with (P := Forall2 Q l).
        * apply IH. intros a' Ha'. apply Hl. now right.
        * intros bs Hbs. apply settlesIn_ret. now constructor.
Qed.

Lemma settlesIn_flatMapM {A B : Type} (f : nat -> A -> option (list B))
      (Q : A -> list B -> Prop) (l : list A) :
    (forall a, In a l -> settlesIn (fun n => f n a) (Q a)) ->
    settlesIn (fun n => CarromAI.flatMapM (f n) l)
              (fun bs => exists ls, bs = List.concat ls /\ Forall2 Q l ls).
Proof.
    intros Hl. unfold CarromAI.flatMapM.
    apply settlesIn_bind with (P := Forall2 Q l).
    - now apply settlesIn_mapM.
    - intros ls Hls. apply settlesIn_ret. now exists ls.
Qed.

(** What a loop that ran to its end returned. *)
Lemma mapM_In {A B : Type} (f : A -> option B) (l : list A) (bs : list B) (b : B) :
    mapM f l = Some bs -> In b bs -> exists a, In a l /\ f a = Some b.
Proof.
    revert bs. induction l as [|a l IH]; simpl; intros bs E Hb.
    - injection E as <-. contradiction.
    - destruct (f a) as [b0|] eqn:Ea; simpl in E; [|discriminate].
      destruct (mapM f l) as [bs0|] eqn:El; simpl in E; [|discriminate].
      injection E as <-. destruct Hb as [<-|Hb].
      + exists a. split; [now left | exact Ea].
      + destruct (IH _ eq_refl Hb) as (a' & Ha' & Ef).
        exists a'. split; [now right | exact Ef].
Qed.

Lemma flatMapM_In {A B : Type} (f : A -> option (list B)) (l : list A)
      (bs : list B) (b : B) :
    CarromAI.flatMapM f l = Some bs -> In b bs ->
    exists a ls, In a l /\ f a = Some ls /\ In b ls.
Proof.
    unfold CarromAI.flatMapM. intros E Hb.
    destruct (mapM f l) as [lss|] eqn:El; simpl in E; [|discriminate].
    injection E as <-. apply in_concat in Hb. destruct Hb as (ls & Hls & Hb).
    eapply mapM_In in Hls; [|exact El]. destruct Hls as (a & Ha & Ef).
    exists a, ls. auto.
Qed.

End Fuel.

(** *** Sorting *)

Lemma array_insert_perm {N A : Type} `{Num N} (cmp : A -> A -> N) (a : A) (l : list A) :
  Permutation (array_insert cmp a l) (a :: l).
Proof.
  induction l as [|b l IH]; simpl; [reflexivity|].
  destruct (num_ltb _ _); [|reflexivity].
  rewrite IH. apply perm_swap.
Qed.

Lemma array_sort_perm {N A : Type} `{Num N} (cmp : A -> A -> N) (l : list A) :
  Permutation (array_sort cmp l) l.
Proof.
  induction l as [|a l IH]; simpl; [reflexivity|].
  rewrite array_insert_perm. now constructor.
Qed.

Lemma firstn_nonempty {A : Type} (n : nat) (l : list A) :
  l <> [] -> firstn (S n) l <> [].
Proof. destruct l; [contradiction | discriminate]. Qed.

Lemma firstn_incl {A : Type} (n : nat) (l : list A) (a : A) :
  In a (firstn n l) -> In a l.
Proof.
  revert l. induction n as [|n IH]; intros [|b l]; simpl; try contradiction.
  intros [E|Hin]; [now left | right; now apply IH].
Qed.

Lemma rankShots_In {N : Type} `{Num N} (shots : list (ShotOption.t N)) gs s :
  In s (CarromAI.rankShots shots gs) -> In s shots.
Proof.
  unfold CarromAI.rankShots. intros Hs. apply firstn_incl in Hs.
  eapply Permutation_in; [apply array_sort_perm | exact Hs].
Qed.

Lemma rankShots_nonempty {N : Type} `{Num N} (shots : list (ShotOption.t N)) gs :
  shots <> [] -> CarromAI.rankShots shots gs <> [].
Proof.
  intros Hne. unfold CarromAI.rankShots. apply firstn_nonempty.
  intro E. apply Hne. apply Permutation_nil.
  rewrite <- E. apply array_sort_perm.
Qed.

(** *** Angles over the real numbers *)

Lemma atan2_range (b a : R) : (- PI < Real.atan2 b a <= PI)%R.
Proof.
  unfold Real.atan2. pose proof PI_RGT_0 as Hpi.
  pose proof (atan_bound (b / a)) as Hb.
  destruct (Rlt_dec 0 a) as [Ha|Ha]; [lra|].
  destruct (Rlt_dec a 0) as [Ha'|Ha'].
  - destruct (Rle_dec 0 b) as [Hy|Hy].
    + assert (atan (b / a) <= 0)%R; [|lra].
      destruct (Req_dec b 0) as [->|Hb0].
      * unfold Rdiv. rewrite Rmult_0_l, atan_0. lra.
      * rewrite <- atan_0. left. apply atan_increasing.
        apply Rmult_pos_neg; [lra|]. now apply Rinv_lt_0_compat.
    + assert (0 < atan (b / a))%R; [|lra].
      rewrite <- atan_0. apply atan_increasing.
      apply Rmult_neg_neg; [lra|]. now apply Rinv_lt_0_compat.
  - destruct (Rlt_dec 0 b); [lra|]. destruct (Rlt_dec b 0); lra.
Qed.

Lemma angle_range (p q : Point R) : (- PI < angle p q <= PI)%R.
Proof. unfold angle. real_ops. apply atan2_range. Qed.

(** An angle between [-PI] and [2 PI] is normalised within two passes of each
    loop. *)
Lemma normalizeAngle_settles (a : R) :
  (- PI <= a <= 2 * PI)%R ->
  settlesIn (fun fuel => normalizeAngle fuel a) (fun a' => 0 <= a' < 2 * PI)%R.
Proof.
  intros Ha. pose proof PI_RGT_0 as Hpi.
  assert (Hlow : forall c fuel, (0 <= c <= 2 * PI)%R ->
            lowerAngle (S (S fuel)) c
            = Some (if Rle_dec (2 * PI) c then (c - 2 * PI)%R else c)).
  { intros c fuel Hc. simpl. real_ops. unfold Real.leb.
    replace (2 * / 1 * PI)%R with (2 * PI)%R by lra.
    destruct (Rle_dec (2 * PI) c); [|reflexivity].
    destruct (Rle_dec (2 * PI) (c - 2 * PI)); [exfalso; lra | reflexivity]. }
  destruct (Rlt_dec a 0) as [Hneg|Hpos].
  - exists (if Rle_dec (2 * PI) (a + 2 * PI) then (a + 2 * PI - 2 * PI)%R
            else (a + 2 * PI)%R).
    split.
    + exists 2%nat. intros [|[|fuel]] Hf; try lia.
      unfold normalizeAngle. simpl raiseAngle. real_ops. unfold Real.ltb.
      replace (0 * / 1)%R with 0%R by lra.
      replace (2 * / 1 * PI)%R with (2 * PI)%R by lra.
      destruct (Rlt_dec a 0); [|contradiction].
      destruct (Rlt_dec (a + 2 * PI) 0); [exfalso; lra|].
      cbn [bind]. apply Hlow. lra.
    + destruct (Rle_dec (2 * PI) (a + 2 * PI)); lra.
  - exists (if Rle_dec (2 * PI) a then (a - 2 * PI)%R else a). split.
    + exists 2%nat. intros [|[|fuel]] Hf; try lia.
      unfold normalizeAngle. simpl raiseAngle. real_ops. unfold Real.ltb.
      replace (0 * / 1)%R with 0%R by lra.
      destruct (Rlt_dec a 0); [contradiction|].
      cbn [bind]. apply Hlow. lra.
    + destruct (Rle_dec (2 * PI) a); lra.
Qed.

Lemma normalizeAngle_angle_settles (p q : Point R) :
  settlesIn (fun fuel => normalizeAngle fuel (angle p q)) (fun _ => True).
Proof.
  eapply settlesIn_weaken.
  - apply normalizeAngle_settles. pose proof (angle_range p q). pose proof PI_RGT_0. lra.
  - trivial.
Qed.

Lemma normalizeAngle_opposite_settles (p q : Point R) :
  settlesIn (fun fuel => normalizeAngle fuel (angle p q + Math_PI)%num) (fun _ => True).
Proof.
  eapply settlesIn_weaken.
  - apply normalizeAngle_settles. pose proof (angle_range p q). pose proof PI_RGT_0.
    real_ops. lra.
  - trivial.
Qed.

(** *** The planner's loops end *)

Lemma pathLoop_settles (e : PhysicsEngine R) (s t : Point R) (ex : list string)
    (buf steps : R) (m : nat) :
  forall i : R, (steps - i < INR m)%R ->
  settlesIn (fun fuel => pathLoop fuel e s t ex buf steps i) (fun _ => True).
Proof.
  induction m as [|m IH]; intros i Hi.
  - exists true. split; [|exact I]. exists 1%nat. intros [|fuel] Hf; [lia|].
    cbn [pathLoop]. real_ops. simpl INR in Hi.
    assert (E : Real.leb i steps = false) by (apply leb_false; lra).
    rewrite E. reflexivity.
  - rewrite S_INR in Hi.
    destruct (Real.leb i steps) eqn:E.
    + destruct (obstructed e ex buf
                  (mkPoint (x s + (x t - x s) * (i / steps))%num
                           (y s + (y t - y s) * (i / steps))%num)) eqn:Eo.
      * exists false. split; [|exact I]. exists 1%nat. intros [|fuel] Hf; [lia|].
        cbn [pathLoop]. cbv zeta. cbn [num_leb Num_R]. rewrite E, Eo. reflexivity.
      * destruct (IH (i + lit 1)%num) as (b & [n Hn] & _).
        { real_ops. lra. }
        exists b. split; [|exact I]. exists (S n). intros [|fuel] Hf; [lia|].
        cbn [pathLoop]. cbv zeta. cbn [num_leb Num_R]. rewrite E, Eo.
        apply Hn. lia.
    + exists true. split; [|exact I]. exists 1%nat. intros [|fuel] Hf; [lia|].
      cbn [pathLoop]. cbn [num_leb Num_R]. rewrite E. reflexivity.
Qed.

Lemma isPathClear_settles (e : PhysicsEngine R) (s t : Point R) (ex : list string)
    (buf : R) :
  settlesIn (fun fuel => isPathClear fuel e s t ex buf) (fun _ => True).
Proof.
  unfold isPathClear. cbv zeta.
  destruct (INR_archimed 1 (Math_ceil (distance s t / lit 2)%num - lit 0)%num)
    as [m Hm]; [lra|].
  apply pathLoop_settles with (m := m). real_ops. real_ops. lra.
Qed.

Lemma strikerLoop_settles (limit startY : R) (m : nat) :
  forall x0 : R, (limit - x0 < 10 * INR m)%R ->
  settlesIn (fun fuel => CarromAI.strikerLoop fuel x0 limit startY)
            (fun area => (x0 <= limit)%R -> area <> []).
Proof.
  induction m as [|m IH]; intros x0 Hx.
  - exists []. simpl INR in Hx. split; [|intros; lra].
    exists 1%nat. intros [|fuel] Hf; [lia|].
    cbn [CarromAI.strikerLoop]. cbn [num_leb Num_R].
    assert (E : Real.leb x0 limit = false) by (apply leb_false; lra).
    rewrite E. reflexivity.
  - rewrite S_INR in Hx. destruct (Real.leb x0 limit) eqn:E.
    + destruct (IH (x0 + lit 10)%num) as (area & [n Hn] & _).
      { real_ops. lra. }
      exists (mkPoint x0 startY :: area). split; [|discriminate].
      exists (S n). intros [|fuel] Hf; [lia|].
      cbn [CarromAI.strikerLoop]. cbn [num_leb Num_R]. rewrite E.
      rewrite Hn by lia. reflexivity.
    + exists []. split; [|intros Hle; apply leb_false in E; lra].
      exists 1%nat. intros [|fuel] Hf; [lia|].
      cbn [CarromAI.strikerLoop]. cbn [num_leb Num_R]. rewrite E. reflexivity.
Qed.

Lemma getStrikerStartArea_settles (ai : CarromAI.t R) :
  settlesIn (fun fuel => CarromAI.getStrikerStartArea ai fuel) (fun area => area <> []).
Proof.
  unfold CarromAI.getStrikerStartArea. cbv zeta.
  eapply settlesIn_weaken.
  - apply strikerLoop_settles with (m := 13%nat). simpl INR. real_ops. lra.
  - intros area Ha. apply Ha. real_ops. lra.
Qed.

Lemma rawShotProbability_settles (ai : CarromAI.t R) (s t p : Point R)
    (k : ShotOption.ShotType) :
  settlesIn (fun fuel => CarromAI.rawShotProbability ai fuel s t p k) (fun _ => True).
Proof.
  unfold CarromAI.rawShotProbability. cbv zeta.
  eapply settlesIn_bind; [apply normalizeAngle_opposite_settles | intros a1 _].
  eapply settlesIn_bind; [apply normalizeAngle_angle_settles | intros a2 _].
  eapply settlesIn_bind; [apply isPathClear_settles | intros clear _].
  now apply settlesIn_ret.
Qed.

Lemma calculateShotProbability_range (ai : CarromAI.t R) (fuel : nat) (s t p : Point R)
    (k : ShotOption.ShotType) (q : R) :
  CarromAI.calculateShotProbability ai fuel s t p k = Some q -> (0.05 <= q <= 0.95)%R.
Proof.
  unfold CarromAI.calculateShotProbability.
  destruct (CarromAI.rawShotProbability ai fuel s t p k) as [b|]; simpl; [|discriminate].
  intros E. injection E as <-. real_ops.
  pose proof (Rmax_l (5 * / 100) (Rmin (95 * / 100) b)).
  pose proof (Rmin_l (95 * / 100) b).
  split; [lra|]. apply Rmax_lub; lra.
Qed.

Lemma calculateShotProbability_settles (ai : CarromAI.t R) (s t p : Point R)
    (k : ShotOption.ShotType) :
  settlesIn (fun fuel => CarromAI.calculateShotProbability ai fuel s t p k)
            (fun _ => True).
Proof.
  unfold CarromAI.calculateShotProbability.
  eapply settlesIn_bind; [apply rawShotProbability_settles | intros b _].
  now apply settlesIn_ret.
Qed.

(** *** What each generator pushes *)

Section Generators.
Variable ai : CarromAI.t R.

Lemma calculateDirectShots_In fuel coin pocket area shots s :
    CarromAI.calculateDirectShots ai fuel coin pocket area = Some shots ->
    In s shots ->
    ShotOption.type s = ShotOption.direct
    /\ (0.05 <= ShotOption.successProbability s <= 0.95)%R.
Proof.
    unfold CarromAI.calculateDirectShots. intros E Hs.
    eapply flatMapM_In in Hs; [|exact E]. destruct Hs as (strikerPos & ls & _ & Ef & Hin).
    cbv zeta in Ef. bind_inv Ef. bind_inv Ef.
    match type of Ef with (if ?c then _ else _) = _ => destruct c end.
    - bind_inv Ef. injection Ef as <-. destruct Hin as [<-|[]].
      cbn [ShotOption.type ShotOption.successProbability]. split; [reflexivity|].
      eapply calculateShotProbability_range. eassumption.
    - injection Ef as <-. contradiction.
Qed.

Lemma calculateBankShots_In fuel coin pocket area shots s :
    CarromAI.calculateBankShots ai fuel coin pocket area = Some shots ->
    In s shots ->
    ShotOption.type s = ShotOption.bank
    /\ (0.04 <= ShotOption.successProbability s <= 0.76)%R.
Proof.
    unfold CarromAI.calculateBankShots. cbv zeta. intros E Hs.
    eapply flatMapM_In in Hs; [|exact E]. destruct Hs as (strikerPos & ls & _ & Ef & Hin).
    eapply flatMapM_In in Hin; [|exact Ef]. destruct Hin as (wall & ls' & _ & Ew & Hin').
    destruct (CarromAI.calculateBankPoint ai (position coin)
                (CarromPocket.position pocket) wall) as [bankPoint|].
    - bind_inv Ew. injection Ew as <-. destruct Hin' as [<-|[]].
      cbn [ShotOption.type ShotOption.successProbability]. split; [reflexivity|].
      apply calculateShotProbability_range in Ev. real_ops. lra.
    - injection Ew as <-. contradiction.
Qed.

Lemma calculateCaromShots_In fuel coin pocket area gs shots s :
    CarromAI.calculateCaromShots ai fuel coin pocket area gs = Some shots ->
    In s shots ->
    ShotOption.type s = ShotOption.carom
    /\ (0.03 <= ShotOption.successProbability s <= 0.57)%R.
Proof.
    unfold CarromAI.calculateCaromShots. cbv zeta. intros E Hs.
    eapply flatMapM_In in Hs; [|exact E]. destruct Hs as (strikerPos & ls & _ & Ef & Hin).
    eapply flatMapM_In in Hin; [|exact Ef]. destruct Hin as (coin' & ls' & _ & Ew & Hin').
    bind_inv Ew. bind_inv Ew.
    match type of Ew with (if ?c then _ else _) = _ => destruct c end.
    - bind_inv Ew. injection Ew as <-. destruct Hin' as [<-|[]].
      cbn [ShotOption.type ShotOption.successProbability]. split; [reflexivity|].
      match goal with
      | H : CarromAI.calculateShotProbability _ _ _ _ _ _ = Some _ |- _ =>
          apply calculateShotProbability_range in H
      end.
      real_ops. lra.
    - injection Ew as <-. contradiction.
Qed.

Lemma calculateDirectShots_settles coin pocket area :
    settlesIn (fun fuel => CarromAI.calculateDirectShots ai fuel coin pocket area)
              (fun _ => True).
Proof.
    unfold CarromAI.calculateDirectShots.
    eapply settlesIn_weaken; [|trivial].
    apply settlesIn_flatMapM with (Q := fun _ _ => True).
    intros strikerPos _. cbv zeta.
    eapply settlesIn_bind; [apply normalizeAngle_angle_settles | intros a1 _].
    eapply settlesIn_bind; [apply normalizeAngle_opposite_settles | intros a2 _].
    match goal with |- context [if ?c then _ else _] => destruct c end.
    - eapply settlesIn_bind; [apply calculateShotProbability_settles | intros q _].
      now apply settlesIn_ret.
    - now apply settlesIn_ret.
Qed.

Lemma calculateCaromShots_settles coin pocket area gs :
    settlesIn (fun fuel => CarromAI.calculateCaromShots ai fuel coin pocket area gs)
              (fun _ => True).
Proof.
    unfold CarromAI.calculateCaromShots. cbv zeta.
    eapply settlesIn_weaken; [|trivial].
    apply settlesIn_flatMapM with (Q := fun _ _ => True).
    intros strikerPos _.
    eapply settlesIn_weaken; [|trivial].
    apply settlesIn_flatMapM with (Q := fun _ _ => True).
    intros coin' _.
    eapply settlesIn_bind; [apply normalizeAngle_angle_settles | intros a1 _].
    eapply settlesIn_bind; [apply normalizeAngle_opposite_settles | intros a2 _].
    match goal with |- context [if ?c then _ else _] => destruct c end.
    - eapply settlesIn_bind; [apply calculateShotProbability_settles | intros q _].
      now apply settlesIn_ret.
    - now apply settlesIn_ret.
Qed.

Lemma concat_nonempty {A B : Type} (l : list A) (ls : list (list B)) :
    Forall2 (fun _ bs => bs <> []) l ls -> l <> [] -> List.concat ls <> [].
Proof.
    intros HF Hl. destruct HF as [|a bs l' ls' Hbs _]; [contradiction|].
    simpl. destruct bs; [contradiction | discriminate].
Qed.

(** No angle test guards a bank candidate: every striker position yields one
    per wall. *)
Lemma calculateBankShots_settles coin pocket area :
    area <> [] ->
    settlesIn (fun fuel => CarromAI.calculateBankShots ai fuel coin pocket area)
              (fun shots => shots <> []).
Proof.
    intros Harea. unfold CarromAI.calculateBankShots. cbv zeta.
    eapply settlesIn_weaken.
    - apply settlesIn_flatMapM with (Q := fun _ bs => bs <> []).
      intros strikerPos _.
      eapply settlesIn_weaken.
      + apply settlesIn_flatMapM with (Q := fun _ bs => bs <> []).
        intros wall Hwall.
        assert (Hbp : exists bankPoint,
                   CarromAI.calculateBankPoint ai (position coin)
                     (CarromPocket.position pocket) wall = Some bankPoint).
        { unfold CarromAI.getBoardWalls in Hwall.
          destruct Hwall as [<-|[<-|[<-|[<-|[]]]]]; eexists; reflexivity. }
        destruct Hbp as [bankPoint ->].
        eapply settlesIn_bind; [apply calculateShotProbability_settles | intros q _].
        apply settlesIn_ret. discriminate.
      + intros shots (ls & -> & HF). eapply concat_nonempty; [exact HF|].
        discriminate.
    - intros shots (ls & -> & HF). eapply concat_nonempty; eassumption.
Qed.

End Generators.

(** *** The planner's entry points *)

Lemma analyzeShot_In (ai : CarromAI.t R) (fuel : nat) (gs : GameState.t R)
    (shots : list (ShotOption.t R)) (s : ShotOption.t R) :
  CarromAI.analyzeShot ai fuel gs = Some shots -> In s shots ->
  probabilityRange (ShotOption.type s) (ShotOption.successProbability s).
Proof.
  unfold CarromAI.analyzeShot. intros E Hs.
  destruct (CarromAI.enumerateShots ai fuel gs) as [all|] eqn:Eall; cbn [bind] in E;
    [|discriminate].
  injection E as <-. apply rankShots_In in Hs.
  unfold CarromAI.enumerateShots in Eall. cbv zeta in Eall.
  destruct (CarromAI.getStrikerStartArea ai fuel) as [area|]; cbn [bind] in Eall;
    [|discriminate].
  eapply flatMapM_In in Hs; [|exact Eall].
  destruct Hs as (coin & ls & _ & Ecoin & Hin).
  eapply flatMapM_In in Hin; [|exact Ecoin].
  destruct Hin as (pocket & ls' & _ & Epocket & Hin').
  destruct (CarromAI.calculateDirectShots ai fuel coin pocket area) as [ds|] eqn:Ed;
    cbn [bind] in Epocket; [|discriminate].
  destruct (CarromAI.calculateBankShots ai fuel coin pocket area) as [bs|] eqn:Eb;
    cbn [bind] in Epocket; [|discriminate].
  destruct (CarromAI.calculateCaromShots ai fuel coin pocket area gs) as [cs|] eqn:Ec;
    cbn [bind] in Epocket; [|discriminate].
  injection Epocket as <-.
  apply in_app_or in Hin'. destruct Hin' as [H|H]; [|apply in_app_or in H; destruct H as [H|H]].
  - destruct (calculateDirectShots_In _ _ _ _ _ _ Ed H) as [-> Hp]. exact Hp.
  - destruct (calculateBankShots_In _ _ _ _ _ _ Eb H) as [-> Hp]. exact Hp.
  - destruct (calculateCaromShots_In _ _ _ _ _ _ _ Ec H) as [-> Hp]. exact Hp.
Qed.

Lemma analyzeShot_settles (ai : CarromAI.t R) (gs : GameState.t R) :
  CarromAI.getTargetCoins ai gs <> [] ->
  CarromAI.pockets ai <> [] ->
  settlesIn (fun fuel => CarromAI.analyzeShot ai fuel gs) (fun shots => shots <> []).
Proof.
  intros Hcoins Hpockets. unfold CarromAI.analyzeShot, CarromAI.enumerateShots. cbv zeta.
  eapply settlesIn_bind with (P := fun shots => shots <> []).
  - eapply settlesIn_bind; [apply getStrikerStartArea_settles | intros area Harea].
    eapply settlesIn_weaken.
    + apply settlesIn_flatMapM with (Q := fun _ bs => bs <> []).
      intros coin _.
      eapply settlesIn_weaken.
      * apply settlesIn_flatMapM with (Q := fun _ bs => bs <> []).
        intros pocket _.
        eapply settlesIn_bind; [apply calculateDirectShots_settles | intros ds _].
        eapply settlesIn_bind; [now apply calculateBankShots_settles | intros bs Hbs].
        eapply settlesIn_bind; [apply calculateCaromShots_settles | intros cs _].
        apply settlesIn_ret. intro E. apply app_eq_nil in E. destruct E as [_ E].
        apply app_eq_nil in E. destruct E as [E _]. contradiction.
      * intros shots (ls & -> & HF). eapply concat_nonempty; eassumption.
    + intros all (ls & -> & HF). eapply concat_nonempty; eassumption.
  - intros all Hall. apply settlesIn_ret. now apply rankShots_nonempty.
Qed.

(** *** Where a candidate comes from, for every number type *)

Section Origins.
Context {N : Type} {num : Num N} {trig : Trig N}.
Variable ai : CarromAI.t N.
Local Open Scope num_scope.

Lemma calculateShotProbability_raw fuel s t p k q :
    CarromAI.calculateShotProbability ai fuel s t p k = Some q ->
    exists raw,
      CarromAI.rawShotProbability ai fuel s t p k = Some raw
      /\ q = Math_max (lit 0.05) (Math_min (lit 0.95) raw).
Proof.
    unfold CarromAI.calculateShotProbability. intros E. bind_inv E.
    injection E as <-. eauto.
Qed.

Lemma calculateDirectShots_made fuel coin pocket area shots s :
    CarromAI.calculateDirectShots ai fuel coin pocket area = Some shots ->
    In s shots ->
    ShotOption.type s = ShotOption.direct
    /\ ShotOption.targetCoin s = id coin /\ ShotOption.targetPocket s = pocket
    /\ (exists raw,
          CarromAI.rawShotProbability ai fuel (ShotOption.strikerPosition s)
            (position coin) (CarromPocket.position pocket) ShotOption.direct = Some raw
          /\ ShotOption.successProbability s
             = Math_max (lit 0.05) (Math_min (lit 0.95) raw))
    /\ ShotOption.angle s = angle (ShotOption.strikerPosition s) (position coin)
    /\ withinTolerance fuel (angle (ShotOption.strikerPosition s) (position coin))
         (angle (position coin) (CarromPocket.position pocket)) (Math_PI / lit 6).
Proof.
    unfold CarromAI.calculateDirectShots. intros E Hs.
    eapply flatMapM_In in Hs; [|exact E].
    destruct Hs as (strikerPos & ls & _ & Ef & Hin).
    cbv zeta in Ef. bind_inv Ef. bind_inv Ef.
    match type of Ef with (if ?c then _ else _) = _ => destruct c eqn:Etest end.
    - bind_inv Ef. injection Ef as <-. destruct Hin as [<-|[]].
      cbn [ShotOption.type ShotOption.targetCoin ShotOption.targetPocket
           ShotOption.strikerPosition ShotOption.successProbability ShotOption.angle].
      repeat split.
      + now apply calculateShotProbability_raw.
      + unfold withinTolerance. eauto.
    - injection Ef as <-. contradiction.
Qed.

Lemma calculateBankShots_made fuel coin pocket area shots s :
    CarromAI.calculateBankShots ai fuel coin pocket area = Some shots ->
    In s shots ->
    ShotOption.type s = ShotOption.bank
    /\ ShotOption.targetCoin s = id coin /\ ShotOption.targetPocket s = pocket
    /\ (exists raw,
          CarromAI.rawShotProbability ai fuel (ShotOption.strikerPosition s)
            (position coin) (CarromPocket.position pocket) ShotOption.bank = Some raw
          /\ ShotOption.successProbability s
             = Math_max (lit 0.05) (Math_min (lit 0.95) raw) * lit 0.8)
    /\ exists wall bankPoint,
         In wall (CarromAI.getBoardWalls ai)
         /\ CarromAI.calculateBankPoint ai (position coin)
              (CarromPocket.position pocket) wall = Some bankPoint
         /\ ShotOption.bankPoints s = Some [bankPoint]
         /\ ShotOption.angle s = angle (ShotOption.strikerPosition s) bankPoint.
Proof.
    unfold CarromAI.calculateBankShots. cbv zeta. intros E Hs.
    eapply flatMapM_In in Hs; [|exact E].
    destruct Hs as (strikerPos & ls & _ & Ef & Hin).
    eapply flatMapM_In in Hin; [|exact Ef].
    destruct Hin as (wall & ls' & Hwall & Ew & Hin').
    destruct (CarromAI.calculateBankPoint ai (position coin)
                (CarromPocket.position pocket) wall) as [bankPoint|] eqn:Ebp.
    - bind_inv Ew. injection Ew as <-. destruct Hin' as [<-|[]].
      cbn [ShotOption.type ShotOption.targetCoin ShotOption.targetPocket
           ShotOption.strikerPosition ShotOption.successProbability ShotOption.angle
           ShotOption.bankPoints].
      repeat split.
      + apply calculateShotProbability_raw in Ev. destruct Ev as (raw & Eraw & ->).
        eauto.
      + exists wall, bankPoint. auto.
    - injection Ew as <-. contradiction.
Qed.

Lemma calculateCaromShots_made fuel coin pocket area gs shots s :
    CarromAI.calculateCaromShots ai fuel coin pocket area gs = Some shots ->
    In s shots ->
    ShotOption.type s = ShotOption.carom
    /\ ShotOption.targetCoin s = id coin /\ ShotOption.targetPocket s = pocket
    /\ (exists raw,
          CarromAI.rawShotProbability ai fuel (ShotOption.strikerPosition s)
            (position coin) (CarromPocket.position pocket) ShotOption.carom = Some raw
          /\ ShotOption.successProbability s
             = Math_max (lit 0.05) (Math_min (lit 0.95) raw) * lit 0.6)
    /\ exists between,
         In between (GameState.playerCoins gs ++ GameState.opponentCoins gs)
         /\ id between <> id coin
         /\ ShotOption.intermediateCoins s = Some [id between]
         /\ ShotOption.angle s = angle (ShotOption.strikerPosition s) (position between)
         /\ withinTolerance fuel (angle (position between) (position coin))
              (angle (position coin) (CarromPocket.position pocket)) (Math_PI / lit 4).
Proof.
    unfold CarromAI.calculateCaromShots. cbv zeta. intros E Hs.
    eapply flatMapM_In in Hs; [|exact E].
    destruct Hs as (strikerPos & ls & _ & Ef & Hin).
    eapply flatMapM_In in Hin; [|exact Ef].
    destruct Hin as (between & ls' & Hb & Ew & Hin').
    apply filter_In in Hb as [Hb Hf]. apply andb_prop in Hf as [Hne _].
    apply negb_true_iff in Hne. apply String.eqb_neq in Hne.
    bind_inv Ew. bind_inv Ew.
    match type of Ew with (if ?c then _ else _) = _ => destruct c eqn:Etest end.
    - bind_inv Ew. injection Ew as <-. destruct Hin' as [<-|[]].
      cbn [ShotOption.type ShotOption.targetCoin ShotOption.targetPocket
           ShotOption.strikerPosition ShotOption.successProbability ShotOption.angle
           ShotOption.intermediateCoins].
      repeat split.
      + match goal with
        | Hq : CarromAI.calculateShotProbability _ _ _ _ _ _ = Some _ |- _ =>
            apply calculateShotProbability_raw in Hq; destruct Hq as (raw & Eraw & ->)
        end.
        eauto.
      + exists between. repeat split; try assumption. unfold withinTolerance. eauto.
    - injection Ew as <-. contradiction.
Qed.

Lemma analyzeShot_made (fuel : nat) (gs : GameState.t N)
      (shots : list (ShotOption.t N)) :
    CarromAI.analyzeShot ai fuel gs = Some shots -> Forall (madeBy ai fuel gs) shots.
Proof.
    unfold CarromAI.analyzeShot. intros E. apply Forall_forall. intros s Hs.
    destruct (CarromAI.enumerateShots ai fuel gs) as [all|] eqn:Eall; cbn [bind] in E;
      [|discriminate].
    injection E as <-. apply rankShots_In in Hs.
    unfold CarromAI.enumerateShots in Eall. cbv zeta in Eall.
    destruct (CarromAI.getStrikerStartArea ai fuel) as [area|] eqn:Earea;
      cbn [bind] in Eall; [|discriminate].
    eapply flatMapM_In in Hs; [|exact Eall].
    destruct Hs as (coin & ls & Hcoin & Ecoin & Hin).
    eapply flatMapM_In in Hin; [|exact Ecoin].
    destruct Hin as (pocket & ls' & Hpocket & Epocket & Hin').
    destruct (CarromAI.calculateDirectShots ai fuel coin pocket area) as [ds|] eqn:Ed;
      cbn [bind] in Epocket; [|discriminate].
    destruct (CarromAI.calculateBankShots ai fuel coin pocket area) as [bs|] eqn:Eb;
      cbn [bind] in Epocket; [|discriminate].
    destruct (CarromAI.calculateCaromShots ai fuel coin pocket area gs) as [cs|] eqn:Ec;
      cbn [bind] in Epocket; [|discriminate].
    injection Epocket as <-.
    unfold madeBy. exists coin, pocket.
    apply in_app_or in Hin'.
    destruct Hin' as [Hi|Hi]; [|apply in_app_or in Hi; destruct Hi as [Hi|Hi]].
    - eapply calculateDirectShots_made in Ed; [|exact Hi].
      destruct Ed as (Et & Hc & Hp & (raw & Eraw & Eq) & Ha & Htol).
      exists raw. rewrite Et. cbn [storedProbability]. rewrite Eq. auto 10.
    - eapply calculateBankShots_made in Eb; [|exact Hi].
      destruct Eb as (Et & Hc & Hp & (raw & Eraw & Eq) & Hw).
      exists raw. rewrite Et. cbn [storedProbability]. rewrite Eq. auto 10.
    - eapply calculateCaromShots_made in Ec; [|exact Hi].
      destruct Ec as (Et & Hc & Hp & (raw & Eraw & Eq) & Hb).
      exists raw. rewrite Et. cbn [storedProbability]. rewrite Eq. auto 10.
Qed.

Lemma returnedBy_analyzeShot (fuel : nat) (gs : GameState.t N) (s : ShotOption.t N) :
    returnedBy ai fuel gs s ->
    exists shots, CarromAI.analyzeShot ai fuel gs = Some shots /\ In s shots.
Proof.
    intros [Ha|[Hb|(count & shots & Ec & Hin)]].
    - exact Ha.
    - unfold CarromAI.getBestShot in Hb.
      destruct (CarromAI.analyzeShot ai fuel gs) as [shots|]; cbn [bind] in Hb;
        [|discriminate].
      destruct shots as [|s0 shots]; [discriminate|].
      injection Hb as ->. exists (s :: shots). split; [reflexivity | now left].
    - unfold CarromAI.getShotOptions in Ec.
      destruct (CarromAI.analyzeShot ai fuel gs) as [all|]; cbn [bind] in Ec;
        [|discriminate].
      injection Ec as <-. exists all. split; [reflexivity|].
      eapply firstn_incl. exact Hin.
Qed.

Lemma returnedBy_made (fuel : nat) (gs : GameState.t N) (s : ShotOption.t N) :
    returnedBy ai fuel gs s -> madeBy ai fuel gs s.
Proof.
    intros Hr. apply returnedBy_analyzeShot in Hr. destruct Hr as (shots & E & Hin).
    apply analyzeShot_made in E. rewrite Forall_forall in E. now apply E.
Qed.

End Origins.

Section NonEmpty.
Context {N : Type} {num : Num N} {trig : Trig N}.
Variable ai : CarromAI.t N.
Local Open Scope num_scope.

Lemma flatMapM_head_nonempty {A B : Type} (f : A -> option (list B)) (a : A)
      (l : list A) (bs : list B) :
    CarromAI.flatMapM f (a :: l) = Some bs ->
    (forall ls, f a = Some ls -> ls <> []) ->
    bs <> [].
Proof.
    unfold CarromAI.flatMapM. cbn [mapM]. intros E Hf.
    destruct (f a) as [ls|] eqn:Ea; cbn [bind] in E; [|discriminate].
    destruct (mapM f l) as [lss|]; cbn [bind] in E; [|discriminate].
    injection E as <-. cbn [List.concat]. specialize (Hf ls eq_refl).
    destruct ls; [contradiction | discriminate].
Qed.

Lemma getStrikerStartArea_nonempty (fuel : nat) (area : list (Point N)) :
    CarromAI.getStrikerStartArea ai fuel = Some area ->
    (CarromAI.boardWidth ai / lit 2 - lit 60 <=? CarromAI.boardWidth ai / lit 2 + lit 60)
    = true ->
    area <> [].
Proof.
    unfold CarromAI.getStrikerStartArea. cbv zeta. intros E Ht.
    destruct fuel as [|k]; [discriminate|].
    cbn [CarromAI.strikerLoop] in E. rewrite Ht in E. bind_inv E.
    injection E as <-. discriminate.
Qed.

Lemma calculateBankShots_nonempty fuel coin pocket area shots :
    CarromAI.calculateBankShots ai fuel coin pocket area = Some shots ->
    area <> [] -> shots <> [].
Proof.
    unfold CarromAI.calculateBankShots. cbv zeta. intros E Harea.
    destruct area as [|strikerPos area]; [contradiction|].
    eapply flatMapM_head_nonempty; [exact E|]. intros ls Els. cbv beta in Els.
    unfold CarromAI.getBoardWalls in Els.
    eapply flatMapM_head_nonempty; [exact Els|]. intros ls' Ew. cbv beta in Ew.
    cbn [CarromAI.calculateBankPoint CarromAI.name String.eqb Ascii.eqb Bool.eqb] in Ew.
    bind_inv Ew. injection Ew as <-. discriminate.
Qed.

Lemma analyzeShot_nonempty (fuel : nat) (gs : GameState.t N)
      (shots : list (ShotOption.t N)) :
    CarromAI.analyzeShot ai fuel gs = Some shots ->
    CarromAI.getTargetCoins ai gs <> [] ->
    CarromAI.pockets ai <> [] ->
    (CarromAI.boardWidth ai / lit 2 - lit 60 <=? CarromAI.boardWidth ai / lit 2 + lit 60)
    = true ->
    shots <> [].
Proof.
    unfold CarromAI.analyzeShot. intros E Hcoins Hpockets Hwidth.
    destruct (CarromAI.enumerateShots ai fuel gs) as [all|] eqn:Eall; cbn [bind] in E;
      [|discriminate].
    injection E as <-. apply rankShots_nonempty.
    unfold CarromAI.enumerateShots in Eall. cbv zeta in Eall.
    destruct (CarromAI.getStrikerStartArea ai fuel) as [area|] eqn:Earea;
      cbn [bind] in Eall; [|discriminate].
    pose proof (getStrikerStartArea_nonempty _ Earea Hwidth) as Harea.
    destruct (CarromAI.getTargetCoins ai gs) as [|coin coins]; [contradiction|].
    eapply flatMapM_head_nonempty; [exact Eall|]. intros ls Els. cbv beta in Els.
    destruct (CarromAI.pockets ai) as [|pocket pockets]; [contradiction|].
    eapply flatMapM_head_nonempty; [exact Els|]. intros ls' Ep. cbv beta in Ep.
    destruct (CarromAI.calculateDirectShots ai fuel coin pocket area) as [ds|];
      cbn [bind] in Ep; [|discriminate].
    destruct (CarromAI.calculateBankShots ai fuel coin pocket area) as [bs|] eqn:Eb;
      cbn [bind] in Ep; [|discriminate].
    destruct (CarromAI.calculateCaromShots ai fuel coin pocket area gs) as [cs|];
      cbn [bind] in Ep; [|discriminate].
    injection Ep as <-. apply calculateBankShots_nonempty in Eb; [|exact Harea].
    intro E0. apply app_eq_nil in E0 as [_ E0]. apply app_eq_nil in E0 as [E0 _].
    contradiction.
Qed.

End NonEmpty.

(** The coin at (300,400) of a 600 board lies in no pocket. *)
Lemma near_coin_is_live :
  CarromAI.getTargetCoins (Scenario.planner 600) (Scenario.snapshot 600 Scenario.near_coin)
  = [Scenario.near_coin (N := R)].
Proof.
  unfold CarromAI.getTargetCoins, Scenario.snapshot. cbn [GameState.currentPlayer
    GameState.playerCoins filter].
  assert (E : CarromAI.isCoinPocketed (Scenario.planner 600) (Scenario.near_coin (N := R))
              = false).
  { unfold CarromAI.isCoinPocketed, Scenario.planner, CarromAI.new, Scenario.near_coin,
      Scenario.disc, distance.
    cbn [CarromAI.pockets existsb position CarromPocket.position CarromPocket.radius
         x y].
    cbv zeta. real_ops.
    repeat match goal with
           | |- context [Real.leb ?a ?b] =>
               replace (Real.leb a b) with false
                 by (symmetry; apply leb_false; apply sqrt_above; lra)
           end.
    reflexivity. }
  rewrite E. reflexivity.
Qed.

(** C3, as the code has it: the clamp to [0.05, 0.95] is applied inside
    [calculateShotProbability]; a direct candidate stores the clamped value, a
    bank candidate 0.8 times it and a carom candidate 0.6 times it, and no
    other kind is returned.  On doubles the clamped value is between 0.05 and
    0.95 unless the value before the clamp is NaN.  Over the real numbers
    every candidate returned by [analyzeShot], [getBestShot] or
    [getShotOptions] has its probability in [0.05, 0.95] if direct, in
    [0.04, 0.76] if bank and in [0.03, 0.57] if carom. *)
Theorem candidate_probability_by_kind :
  (forall (ai : CarromAI.t float) (fuel : nat) (gs : GameState.t float)
          (s : ShotOption.t float),
      returnedBy ai fuel gs s ->
      exists (coin : PhysicsBody float) (pocket : CarromPocket.t float) (raw : float),
        CarromAI.rawShotProbability ai fuel (ShotOption.strikerPosition s)
          (position coin) (CarromPocket.position pocket) (ShotOption.type s) = Some raw
        /\ let q := Math_max (lit 0.05) (Math_min (lit 0.95) raw) in
           storedProbability (ShotOption.type s) q = Some (ShotOption.successProbability s)
           /\ (F64.is_nan raw = false ->
               (lit 0.05 <=? q)%num = true /\ (q <=? lit 0.95)%num = true))
  /\ (forall (ai : CarromAI.t R) (fuel : nat) (gs : GameState.t R) (s : ShotOption.t R),
        returnedBy ai fuel gs s ->
        probabilityRange (ShotOption.type s) (ShotOption.successProbability s)).
Proof.
  split.
  - intros ai fuel gs s Hr. apply returnedBy_made in Hr.
    destruct Hr as (coin & pocket & raw & _ & _ & _ & _ & Eraw & Est & _).
    exists coin, pocket, raw. split; [exact Eraw|]. cbv zeta. split; [exact Est|].
    intros Hn. now apply clamp_on_doubles.
  - intros ai fuel gs s Hr. apply returnedBy_analyzeShot in Hr.
    destruct Hr as (shots & E & Hin). eapply analyzeShot_In; eassumption.
Qed.

Lemma candidate_probability_by_kind_witness :
  match CarromAI.getBestShot (Scenario.planner (N := float) 600) 1000
          (Scenario.snapshot 600 Scenario.near_coin) with
  | Some (Some s) =>
      exists (coin : PhysicsBody float) (pocket : CarromPocket.t float) (raw : float),
        CarromAI.rawShotProbability (Scenario.planner 600) 1000
          (ShotOption.strikerPosition s) (position coin) (CarromPocket.position pocket)
          (ShotOption.type s) = Some raw
        /\ let q := Math_max (lit 0.05) (Math_min (lit 0.95) raw) in
           storedProbability (ShotOption.type s) q = Some (ShotOption.successProbability s)
           /\ (F64.is_nan raw = false ->
               (lit 0.05 <=? q)%num = true /\ (q <=? lit 0.95)%num = true)
  | _ => False
  end
  /\ exists (fuel : nat) (shots : list (ShotOption.t R)) (s : ShotOption.t R),
       CarromAI.analyzeShot (Scenario.planner 600) fuel
                            (Scenario.snapshot 600 Scenario.near_coin) = Some shots
       /\ In s shots
       /\ probabilityRange (ShotOption.type s) (ShotOption.successProbability s).
Proof.
  destruct candidate_probability_by_kind as [F Re].
  split.
  - destruct (CarromAI.getBestShot (Scenario.planner (N := float) 600) 1000
                (Scenario.snapshot 600 Scenario.near_coin)) as [[s|]|] eqn:E;
      [|vm_compute in E; discriminate E|vm_compute in E; discriminate E].
    apply (F (Scenario.planner 600) 1000%nat (Scenario.snapshot 600 Scenario.near_coin) s).
    right. left. exact E.
  - destruct (@analyzeShot_settles (Scenario.planner 600)
                (Scenario.snapshot 600 Scenario.near_coin))
      as (shots & [n Hn] & Hne).
    + rewrite near_coin_is_live. discriminate.
    + discriminate.
    + destruct shots as [|s shots]; [contradiction|].
      exists n, (s :: shots), s. split; [apply Hn; lia|]. split; [now left|].
      apply (Re (Scenario.planner 600) n (Scenario.snapshot 600 Scenario.near_coin) s).
      left. exists (s :: shots). split; [apply Hn; lia | now left].
Defined.

(** C2, as the code has it: the planner has no last-resort suggestion.
    For every number type, doubles included: every candidate [analyzeShot]
    returns was made by one of the three generators, so it is a direct
    candidate aimed at its target that passed the angle test within PI/6, a
    carom candidate aimed at its intermediate coin that passed the test within
    PI/4, or a bank candidate aimed at its bank point; and when there is a
    live target coin and the first test of [getStrikerStartArea] holds (the
    board width is a number), the list returned is not empty, [getBestShot]
    returns its first candidate and [getShotOptions] its first five, because
    bank candidates pass no angle test.  Over the real numbers [analyzeShot]
    does return, given enough fuel. *)
Theorem planner_returns_a_candidate :
  (forall (N : Type) (num : Num N) (trig : Trig N) (engine : PhysicsEngine N)
          (width height : N) (difficulty : CarromAI.Difficulty) (gs : GameState.t N)
          (fuel : nat) (shots : list (ShotOption.t N)),
      let ai := CarromAI.new engine width height difficulty in
      CarromAI.analyzeShot ai fuel gs = Some shots ->
      Forall (madeBy ai fuel gs) shots
      /\ (CarromAI.getTargetCoins ai gs <> [] ->
          (width / lit 2 - lit 60 <=? width / lit 2 + lit 60)%num = true ->
          exists best rest,
            shots = best :: rest
            /\ CarromAI.getBestShot ai fuel gs = Some (Some best)
            /\ CarromAI.getShotOptions ai fuel gs 5 = Some (firstn 5 shots)))
  /\ (forall (engine : PhysicsEngine R) (width height : R)
             (difficulty : CarromAI.Difficulty) (gs : GameState.t R),
        let ai := CarromAI.new engine width height difficulty in
        CarromAI.getTargetCoins ai gs <> [] ->
        exists best rest,
          settles (fun fuel => CarromAI.analyzeShot ai fuel gs) (best :: rest)
          /\ settles (fun fuel => CarromAI.getBestShot ai fuel gs) (Some best)
          /\ settles (fun fuel => CarromAI.getShotOptions ai fuel gs 5)
                     (firstn 5 (best :: rest))).
Proof.
  split.
  - intros N num trig engine width height difficulty gs fuel shots ai E.
    split; [now apply analyzeShot_made|].
    intros Hcoins Hwidth.
    assert (Hne : shots <> []).
    { eapply analyzeShot_nonempty; [exact E | exact Hcoins | discriminate | exact Hwidth]. }
    destruct shots as [|best rest]; [contradiction|].
    exists best, rest. split; [reflexivity|].
    unfold CarromAI.getBestShot, CarromAI.getShotOptions. rewrite E. split; reflexivity.
  - intros engine width height difficulty gs ai Hcoins.
    destruct (@analyzeShot_settles ai gs Hcoins) as (shots & [n Hn] & Hne);
      [discriminate|].
    destruct shots as [|best rest]; [contradiction|].
    exists best, rest. repeat split; exists n; intros fuel Hf.
    + now apply Hn.
    + unfold CarromAI.getBestShot. rewrite Hn by exact Hf. reflexivity.
    + unfold CarromAI.getShotOptions. rewrite Hn by exact Hf. reflexivity.
Qed.

Lemma planner_returns_a_candidate_witness :
  (exists shots best rest,
     CarromAI.analyzeShot (Scenario.planner (N := float) 600) 1000
                          (Scenario.snapshot 600 Scenario.near_coin) = Some shots
     /\ Forall (madeBy (Scenario.planner 600) 1000
                       (Scenario.snapshot 600 Scenario.near_coin)) shots
     /\ shots = best :: rest
     /\ CarromAI.getBestShot (Scenario.planner 600) 1000
                             (Scenario.snapshot 600 Scenario.near_coin)
        = Some (Some best))
  /\ (exists (best : ShotOption.t R) (rest : list (ShotOption.t R)),
        settles (fun fuel => CarromAI.analyzeShot (Scenario.planner 600) fuel
                               (Scenario.snapshot 600 Scenario.near_coin))
                (best :: rest)
        /\ settles (fun fuel => CarromAI.getBestShot (Scenario.planner 600) fuel
                                  (Scenario.snapshot 600 Scenario.near_coin))
                   (Some best)).
Proof.
  destruct planner_returns_a_candidate as [G Re].
  split.
  - destruct (CarromAI.analyzeShot (Scenario.planner (N := float) 600) 1000
                (Scenario.snapshot 600 Scenario.near_coin)) as [shots|] eqn:E;
      [|vm_compute in E; discriminate E].
    destruct (G float _ _ (newPhysicsEngine (lit 600) (lit 600)) (lit 600) (lit 600)
                CarromAI.medium (Scenario.snapshot 600 Scenario.near_coin) 1000%nat
                shots E)
      as [Hmade Hbest].
    destruct Hbest as (best & rest & Es & Eb & _).
    + vm_compute. discriminate.
    + vm_compute. reflexivity.
    + exists shots, best, rest. auto.
  - destruct (Re (newPhysicsEngine (lit 600) (lit 600)) (lit 600) (lit 600)
                CarromAI.medium (Scenario.snapshot 600 Scenario.near_coin))
      as (best & rest & H1 & H2 & _).
    + change (CarromAI.new _ _ _ _) with (Scenario.planner (N := R) 600).
      rewrite near_coin_is_live. discriminate.
    + exists best, rest. split; assumption.
Defined.

(** *** Runs of the planner on doubles *)

(** C3, as stated, fails: on a board of side 1200 with one coin at (600,700),
    every striker position is more than 360 away from the coin and no direct
    candidate passes its angle test.  Every candidate the planner enumerates is
    a bank candidate whose probability is 0.05 * 0.8, so the candidates that
    [analyzeShot] and [getBestShot] return are below 0.05. *)
Lemma returned_bank_candidate_below_clamp :
  let ai := Scenario.planner 1200 in
  let gs := Scenario.snapshot 1200 Scenario.far_coin in
  everyCandidate ai 1000 gs
    (fun s => isBank (ShotOption.type s)
              && PrimFloat.eqb (ShotOption.successProbability s) (0.05 * 0.8)
              && (ShotOption.successProbability s <? lit 0.05)%num)
  = true
  /\ match CarromAI.getBestShot ai 1000 gs, CarromAI.analyzeShot ai 1000 gs with
     | Some (Some s), Some shots =>
         (ShotOption.successProbability s <? lit 0.05)%num = true
         /\ List.length shots = 10%nat
         /\ forallb (fun s' => (ShotOption.successProbability s' <? lit 0.05)%num) shots
            = true
     | _, _ => False
     end.
Proof. vm_compute. repeat split; reflexivity. Qed.

(** C2, as stated, fails: on a board of side 600 with one live coin at
    (300,400), no direct and no carom candidate passes its angle test.  Every
    candidate the planner enumerates is a bank candidate, none of them aimed
    along the straight line from its striker position to the coin; ten of
    them are returned. *)
Lemma no_straight_shot_at_nearest_target :
  let ai := Scenario.planner 600 in
  let gs := Scenario.snapshot 600 Scenario.near_coin in
  CarromAI.getTargetCoins ai gs = [Scenario.near_coin]
  /\ everyCandidate ai 1000 gs
       (fun s => isBank (ShotOption.type s)
                 && negb (aimedStraightAt s Scenario.near_coin))
     = true
  /\ match CarromAI.analyzeShot ai 1000 gs with
     | Some shots =>
         List.length shots = 10%nat
         /\ forallb (fun s => isBank (ShotOption.type s)
                              && negb (aimedStraightAt s Scenario.near_coin)) shots
            = true
     | None => False
     end.
Proof. vm_compute. repeat split; reflexivity. Qed.

(** On doubles the planner need not return.  A live coin of the player at
    x = 1e200 is at an infinite computed distance from the striker
    positions, the number of samples [isPathClear] walks through is
    [Infinity], and [analyzeShot] is still running when the fuel is spent,
    with 10 units and with 3000. *)
Lemma distant_coin_exhausts_fuel :
  let ai := Scenario.planner 600 in
  let gs := Scenario.snapshot 600 Scenario.distant_coin in
  CarromAI.getTargetCoins ai gs = [Scenario.distant_coin]
  /\ Math_ceil (distance (mkPoint 240%float 560%float) (position Scenario.distant_coin)
                / lit 2)%num
     = infinity
  /\ CarromAI.analyzeShot ai 10 gs = None
  /\ CarromAI.analyzeShot ai 3000 gs = None.
Proof. vm_compute. repeat split; reflexivity. Qed.


(** Settle the comparisons of real constants in the goal. *)
Ltac decide_real :=
  repeat match goal with
         | |- context [Real.leb ?a ?b] =>
             first [ replace (Real.leb a b) with true
                       by (symmetry; apply leb_true; lra)
                   | replace (Real.leb a b) with false
                       by (symmetry; apply leb_false; lra) ]
         | |- context [Real.ltb ?a ?b] =>
             first [ replace (Real.ltb a b) with true
                       by (symmetry; apply ltb_true; lra)
                   | replace (Real.ltb a b) with false
                       by (symmetry; apply ltb_false; lra) ]
         end.

(* ================================================================= *)
(** ** Further properties of the geometry kernel *)

(** X1: over the real numbers [distance] is a metric on points: it is never
    negative, it is symmetric, and it is zero exactly for equal points. *)
Theorem distance_metric (p q : Point R) :
  (0 <= distance p q)%R
  /\ distance p q = distance q p
  /\ (distance p q = 0%R <-> p = q).
Proof.
  destruct p as [px py], q as [qx qy]. unfold distance. cbn [x y]. cbv zeta. real_ops.
  split; [apply sqrt_pos|]. split; [f_equal; ring|]. split.
  - intros E. apply sqrt_eq_0 in E.
    + destruct (Rplus_sqr_eq_0 (qx - px) (qy - py) E) as [Ex Ey]. f_equal; lra.
    + apply Rplus_le_le_0_compat; apply Rle_0_sqr.
  - intros E. injection E as -> ->.
    replace ((qx - qx) * (qx - qx) + (qy - qy) * (qy - qy))%R with 0%R by ring.
    apply sqrt_0.
Qed.

(** The first loop of [normalizeAngle] ends for every real angle. *)
Lemma raiseAngle_settles (m : nat) :
  forall a : R, (- (2 * PI) * INR m <= a)%R ->
  settlesIn (fun fuel => raiseAngle fuel a)
            (fun a' => (0 <= a')%R /\ (a < 0 -> a' < 2 * PI)%R
                       /\ exists k : nat, a' = (a + 2 * PI * INR k)%R).
Proof.
  pose proof PI_RGT_0 as Hpi.
  induction m as [|m IH]; intros a Ha.
  - simpl INR in Ha. exists a. split.
    + exists 1%nat. intros [|fuel] Hf; [lia|]. cbn [raiseAngle]. real_ops.
      replace (Real.ltb a (0 * / 1)) with false; [reflexivity|].
      symmetry. apply ltb_false. lra.
    + split; [lra|]. split; [lra|]. exists 0%nat. simpl. lra.
  - rewrite S_INR in Ha. destruct (Rlt_dec a 0) as [Hneg|Hpos].
    + destruct (IH (a + 2 * PI)%R) as (a' & [n Hn] & H0 & Hlt & k & Hk); [lra|].
      exists a'. split.
      * exists (S n). intros [|fuel] Hf; [lia|]. cbn [raiseAngle]. real_ops.
        replace (Real.ltb a (0 * / 1)) with true by (symmetry; apply ltb_true; lra).
        replace (a + 2 * / 1 * PI)%R with (a + 2 * PI)%R by lra.
        apply Hn. lia.
      * split; [exact H0|]. split.
        -- intros _. destruct (Rlt_dec (a + 2 * PI) 0) as [Hn1|Hn1]; [now apply Hlt|].
           destruct k as [|k].
           ++ simpl in Hk. lra.
           ++ exfalso. clear IH.
              assert (Hfix : forall fuel, raiseAngle (S fuel) (a + 2 * PI)%R
                                          = Some (a + 2 * PI)%R).
              { intros fuel. cbn [raiseAngle]. real_ops.
                replace (Real.ltb (a + 2 * PI) (0 * / 1)) with false; [reflexivity|].
                symmetry. apply ltb_false. lra. }
              specialize (Hn (S n) (Nat.le_succ_diag_r n)). rewrite Hfix in Hn.
              injection Hn as Hn. rewrite S_INR in Hk. pose proof (pos_INR k). nra.
        -- exists (S k). rewrite S_INR. lra.
    + exists a. split.
      * exists 1%nat. intros [|fuel] Hf; [lia|]. cbn [raiseAngle]. real_ops.
        replace (Real.ltb a (0 * / 1)) with false; [reflexivity|].
        symmetry. apply ltb_false. lra.
      * split; [lra|]. split; [lra|]. exists 0%nat. simpl. lra.
Qed.

(** So does the second. *)
Lemma lowerAngle_settles (m : nat) :
  forall a : R, (0 <= a < 2 * PI * INR (S m))%R ->
  settlesIn (fun fuel => lowerAngle fuel a)
            (fun a' => (0 <= a' < 2 * PI)%R /\ exists k : nat, a' = (a - 2 * PI * INR k)%R).
Proof.
  pose proof PI_RGT_0 as Hpi.
  induction m as [|m IH]; intros a Ha.
  - simpl INR in Ha. exists a. split.
    + exists 1%nat. intros [|fuel] Hf; [lia|]. cbn [lowerAngle]. real_ops.
      replace (Real.leb (2 * / 1 * PI) a) with false; [reflexivity|].
      symmetry. apply leb_false. lra.
    + split; [lra|]. exists 0%nat. simpl. lra.
  - rewrite S_INR in Ha. destruct (Rle_dec (2 * PI) a) as [Hbig|Hsmall].
    + destruct (IH (a - 2 * PI)%R) as (a' & [n Hn] & Hr & k & Hk); [lra|].
      exists a'. split.
      * exists (S n). intros [|fuel] Hf; [lia|]. cbn [lowerAngle]. real_ops.
        replace (Real.leb (2 * / 1 * PI) a) with true by (symmetry; apply leb_true; lra).
        replace (a - 2 * / 1 * PI)%R with (a - 2 * PI)%R by lra.
        apply Hn. lia.
      * split; [exact Hr|]. exists (S k). rewrite S_INR. lra.
    + exists a. split.
      * exists 1%nat. intros [|fuel] Hf; [lia|]. cbn [lowerAngle]. real_ops.
        replace (Real.leb (2 * / 1 * PI) a) with false; [reflexivity|].
        symmetry. apply leb_false. lra.
      * split; [lra|]. exists 0%nat. simpl. lra.
Qed.

(** X2: over the real numbers [normalizeAngle] returns for every angle, given
    enough fuel; the result lies in [0, 2 PI) and differs from the argument by
    a whole number of turns. *)
Theorem normalizeAngle_real (a : R) :
  exists a' : R,
    settles (fun fuel => normalizeAngle fuel a) a'
    /\ (0 <= a' < 2 * PI)%R
    /\ exists k : Z, a' = (a + 2 * PI * IZR k)%R.
Proof.
  pose proof PI_RGT_0 as Hpi.
  destruct (INR_archimed (2 * PI) (- a)) as [m Hm]; [lra|].
  destruct (@raiseAngle_settles m a) as (a1 & H1 & H0 & _ & k1 & Hk1); [lra|].
  destruct (INR_archimed (2 * PI) a1) as [m2 Hm2]; [lra|].
  destruct (@lowerAngle_settles m2 a1) as (a2 & H2 & Hr & k2 & Hk2).
  { rewrite S_INR. lra. }
  exists a2. split; [|split].
  - unfold normalizeAngle. eapply settles_bind; eassumption.
  - exact Hr.
  - exists (Z.of_nat k1 - Z.of_nat k2)%Z. rewrite minus_IZR, <- !INR_IZR_INZ. lra.
Qed.

(** X3: on doubles the first loop of [normalizeAngle] makes no progress on a
    negative angle so large that adding [2 * Math.PI] rounds back to it:
    [normalizeAngle] never returns, whatever the fuel. *)
Theorem normalizeAngle_stalls_on_doubles (a : float) :
  (a <? lit 0)%num = true ->
  (a + lit 2 * Math_PI)%num = a ->
  forall fuel, normalizeAngle fuel a = None.
Proof.
  intros Hneg Hfix fuel. unfold normalizeAngle.
  assert (E : raiseAngle fuel a = None).
  { induction fuel as [|fuel IH]; [reflexivity|].
    cbn [raiseAngle]. rewrite Hneg, Hfix. exact IH. }
  rewrite E. reflexivity.
Qed.

Lemma normalizeAngle_stalls_on_doubles_witness :
  normalizeAngle 1000 (-1e300)%float = None.
Proof.
  apply (@normalizeAngle_stalls_on_doubles (-1e300)%float); vm_compute; reflexivity.
Defined.

(** X4: over the real numbers, reflecting about a unit normal keeps the length
    of the velocity, reverses its component along the normal, and undoes
    itself when applied twice. *)
Theorem reflect_unit_normal (v n : Vector R) :
  (x n * x n + y n * y n = 1)%R ->
  let v' := reflect v n in
  (x v' * x v' + y v' * y v' = x v * x v + y v * y v)%R
  /\ (x v' * x n + y v' * y n = - (x v * x n + y v * y n))%R
  /\ reflect v' n = v.
Proof.
  destruct v as [vx vy], n as [nx ny]. cbn [x y]. intros Hn.
  unfold reflect. cbn [x y]. cbv zeta. real_ops.
  set (S := (nx * nx + ny * ny)%R) in *. set (d := (vx * nx + vy * ny)%R).
  repeat split.
  - transitivity (vx * vx + vy * vy + 4 * d * d * (S - 1))%R;
      [unfold S, d; field | rewrite Hn; ring].
  - transitivity (d - 2 * d * S)%R; [unfold S, d; field | rewrite Hn; ring].
  - f_equal.
    + transitivity (vx + 4 * d * (S - 1) * nx)%R;
        [unfold S, d; field | rewrite Hn; ring].
    + transitivity (vy + 4 * d * (S - 1) * ny)%R;
        [unfold S, d; field | rewrite Hn; ring].
Qed.

Lemma reflect_unit_normal_witness :
  reflect (reflect (mkPoint 3%R 4%R) (mkPoint 0%R 1%R)) (mkPoint 0%R 1%R)
  = mkPoint 3%R 4%R.
Proof.
  destruct (@reflect_unit_normal (mkPoint 3%R 4%R) (mkPoint 0%R 1%R)) as (_ & _ & H).
  - cbn [x y]. lra.
  - exact H.
Defined.

(** The clamped parameter minimises a parabola over [0,1]. *)
Lemma clamp_minimises (t s : R) :
  (0 <= s <= 1)%R ->
  let c := Rmax 0 (Rmin 1 t) in
  (0 <= c <= 1)%R /\ (0 <= (s - c) * (s + c - 2 * t))%R.
Proof.
  intros Hs c.
  assert (Hcase : (c = t \/ (t <= 0 /\ c = 0) \/ (1 <= t /\ c = 1))%R).
  { unfold c, Rmax, Rmin. destruct (Rle_dec 1 t); destruct (Rle_dec 0 1);
      try lra; destruct (Rle_dec 0 t); lra. }
  split.
  - unfold c. split; [apply Rmax_l|]. apply Rmax_lub; [lra | apply Rmin_l].
  - clearbody c. destruct Hcase as [E|[[Ht E]|[Ht E]]]; rewrite E.
    + replace ((s - t) * (s + t - 2 * t))%R with ((s - t) * (s - t))%R by ring.
      apply Rle_0_sqr.
    + apply Rmult_le_pos; lra.
    + replace ((s - 1) * (s + 1 - 2 * t))%R with ((1 - s) * (2 * t - 1 - s))%R by ring.
      apply Rmult_le_pos; lra.
Qed.

(** Squared distance to a point of the line, around the clamped parameter. *)
Lemma segment_distance_gap (px py ax ay dx dy t c s : R) :
  (t * (dx * dx + dy * dy) = (px - ax) * dx + (py - ay) * dy)%R ->
  (0 <= dx * dx + dy * dy)%R ->
  (0 <= (s - c) * (s + c - 2 * t))%R ->
  ((ax + c * dx - px) * (ax + c * dx - px) + (ay + c * dy - py) * (ay + c * dy - py)
   <= (ax + s * dx - px) * (ax + s * dx - px)
      + (ay + s * dy - py) * (ay + s * dy - py))%R.
Proof.
  intros Ht Hd Hkey.
  assert (E : ((ax + s * dx - px) * (ax + s * dx - px)
               + (ay + s * dy - py) * (ay + s * dy - py)
               - ((ax + c * dx - px) * (ax + c * dx - px)
                  + (ay + c * dy - py) * (ay + c * dy - py))
               = (dx * dx + dy * dy) * ((s - c) * (s + c - 2 * t)))%R).
  { transitivity ((dx * dx + dy * dy) * ((s - c) * (s + c))
                  - 2 * (s - c) * ((px - ax) * dx + (py - ay) * dy))%R; [ring|].
    rewrite <- Ht. ring. }
  pose proof (Rmult_le_pos _ _ Hd Hkey). lra.
Qed.

(** X5: over the real numbers [closestPointOnLine] returns a point of the
    segment, at a parameter between 0 and 1, and no point of the segment is
    closer to the given point; for a segment of length zero it returns the
    start. *)
Theorem closestPointOnLine_nearest (p : Point R) (line : Line R) :
  let c := closestPointOnLine p line in
  let at_ (s : R) := mkPoint (x (start line) + s * (x (end_ line) - x (start line)))%R
                             (y (start line) + s * (y (end_ line) - y (start line)))%R in
  (start line = end_ line -> c = start line)
  /\ (exists t, (0 <= t <= 1)%R /\ c = at_ t)
  /\ (forall s, (0 <= s <= 1)%R -> (distance p c <= distance p (at_ s))%R).
Proof.
  destruct p as [px py], line as [[ax ay] [bx by_]]. cbn [start end_ x y].
  unfold closestPointOnLine. cbn [start end_ x y]. cbv zeta.
  cbn [num_eqb NumEq_R]. real_ops.
  set (dx := (bx - ax)%R). set (dy := (by_ - ay)%R).
  replace (0 * / 1)%R with 0%R by lra. replace (1 * / 1)%R with 1%R by lra.
  assert (Hgen : (dx <> 0 \/ dy <> 0)%R ->
    let c := Rmax 0 (Rmin 1 (((px - ax) * dx + (py - ay) * dy) / (dx * dx + dy * dy))) in
    (exists t, (0 <= t <= 1)%R
               /\ mkPoint (ax + c * dx)%R (ay + c * dy)%R
                  = mkPoint (ax + t * dx)%R (ay + t * dy)%R)
    /\ (forall s, (0 <= s <= 1)%R ->
          (distance (mkPoint px py) (mkPoint (ax + c * dx) (ay + c * dy))
           <= distance (mkPoint px py) (mkPoint (ax + s * dx) (ay + s * dy)))%R)).
  { intros Hnz.
    set (t := (((px - ax) * dx + (py - ay) * dy) / (dx * dx + dy * dy))%R).
    intros c.
    assert (Hd : (0 < dx * dx + dy * dy)%R) by (destruct Hnz; nra).
    split.
    - exists c. split; [|reflexivity]. apply (clamp_minimises t (s := 0)). lra.
    - intros s Hs. unfold distance. cbn [x y]. real_ops. apply sqrt_le_1_alt.
      apply segment_distance_gap with (t := t).
      + unfold t. field. lra.
      + lra.
      + now apply clamp_minimises. }
  destruct (Req_dec_T dx 0) as [Hx|Hx]; [destruct (Req_dec_T dy 0) as [Hy|Hy]|];
    cbn [andb].
  - (* a segment of length zero *)
    split; [reflexivity|]. split.
    + exists 0%R. split; [lra|]. f_equal; lra.
    + intros s _. rewrite Hx, Hy. right. unfold distance. cbn [x y]. real_ops.
      f_equal. ring.
  - split.
    { intros E. injection E as E1 E2. exfalso. unfold dy in Hy. lra. }
    apply Hgen. now right.
  - split.
    { intros E. injection E as E1 E2. exfalso. unfold dx in Hx. lra. }
    apply Hgen. now left.
Qed.

(** X6: over the real numbers the point [pointAtAngle] returns is at distance
    [|distance|] from the origin, whatever the angle. *)
Theorem pointAtAngle_distance (origin : Point R) (a d : R) :
  distance origin (pointAtAngle origin a d) = Rabs d.
Proof.
  destruct origin as [ox oy]. unfold distance, pointAtAngle. cbn [x y]. cbv zeta.
  real_ops.
  replace ((ox + cos a * d - ox) * (ox + cos a * d - ox)
           + (oy + sin a * d - oy) * (oy + sin a * d - oy))%R
    with (d * d * ((sin a)² + (cos a)²))%R by (unfold Rsqr; ring).
  rewrite sin2_cos2, Rmult_1_r. apply sqrt_Rsqr_abs.
Qed.

(** X7: over the real numbers [toRadians] and [toDegrees] are inverse to each
    other. *)
Theorem degrees_radians_round_trip (a : R) :
  toRadians (toDegrees a) = a /\ toDegrees (toRadians a) = a.
Proof.
  pose proof PI_RGT_0. unfold toRadians, toDegrees. real_ops. split; field; lra.
Qed.

(** The points [calculateTrajectory] pushes after the start stay between the
    margins. *)
Lemma trajectoryLoop_within_margins (boardWidth boardHeight friction : R)
    (maxBounces : nat) :
  (40 <= boardWidth)%R -> (40 <= boardHeight)%R ->
  forall fuel bounces pos vel rest,
    trajectoryLoop fuel friction boardWidth boardHeight maxBounces bounces pos vel
    = Some rest ->
    Forall (fun q => (20 <= x q <= boardWidth - 20)%R
                     /\ (20 <= y q <= boardHeight - 20)%R) rest.
Proof.
  intros Hw Hh. induction fuel as [|fuel IH]; intros bounces pos vel rest E;
    [discriminate|].
  cbn [trajectoryLoop] in E.
  destruct (Nat.ltb bounces maxBounces && _); [|injection E as <-; constructor].
  cbv zeta in E. bind_inv E. injection E as <-. constructor.
  - clear Ev IH. cbn [x y]. real_ops. unfold Real.leb.
    replace (20 * / 1)%R with 20%R by lra.
    split.
    + destruct (Rle_dec (x pos + x vel) 20); cbn [orb].
      * lra.
      * destruct (Rle_dec (boardWidth - 20) (x pos + x vel)); lra.
    + destruct (Rle_dec (y pos + y vel) 20); cbn [orb].
      * lra.
      * destruct (Rle_dec (boardHeight - 20) (y pos + y vel)); lra.
  - eapply IH. exact Ev.
Qed.

(** X8: over the real numbers, on a board at least 40 wide and 40 high, a path
    returned by [calculateTrajectory] begins with the start point, and every
    later point lies between the margins: 20 <= x <= boardWidth - 20 and
    20 <= y <= boardHeight - 20. *)
Theorem calculateTrajectory_within_margins
    (fuel : nat) (start0 : Point R) (velocity : Vector R)
    (friction boardWidth boardHeight : R) (maxBounces : nat) (path : list (Point R)) :
  (40 <= boardWidth)%R -> (40 <= boardHeight)%R ->
  calculateTrajectory fuel start0 velocity friction boardWidth boardHeight maxBounces
  = Some path ->
  exists rest,
    path = start0 :: rest
    /\ Forall (fun q => (20 <= x q <= boardWidth - 20)%R
                        /\ (20 <= y q <= boardHeight - 20)%R) rest.
Proof.
  intros Hw Hh E. unfold calculateTrajectory in E. bind_inv E. injection E as <-.
  exists v. split; [reflexivity|].
  eapply trajectoryLoop_within_margins; eassumption.
Qed.

Lemma calculateTrajectory_within_margins_witness :
  exists rest,
    [mkPoint 25%R 100%R; mkPoint 20%R 100%R] = mkPoint 25%R 100%R :: rest
    /\ Forall (fun q => (20 <= x q <= 600 - 20)%R /\ (20 <= y q <= 600 - 20)%R) rest.
Proof.
  apply (@calculateTrajectory_within_margins 2 (mkPoint 25%R 100%R)
           (mkPoint (-10)%R 0%R) 0.5%R 600%R 600%R 1).
  - lra.
  - lra.
  - unfold calculateTrajectory. cbn [trajectoryLoop Nat.ltb Nat.leb andb]. cbn [x y].
    real_ops. rewrite Rabs_R0.
    replace (Rabs (-10)) with 10%R by (rewrite Rabs_left; lra).
    decide_real. cbn [orb negb bind Nat.ltb Nat.leb andb]. do 3 f_equal. f_equal; lra.
Defined.

Section OptimalAngle.
Context {N : Type} {num : Num N} {trig : Trig N} {numeq : NumEq N}.

Lemma offsetLoop_clear (from to : Point N) (obstacles : list (Circle N))
    (directAngle angleStep : N) :
  forall fuel offset a,
    offsetLoop fuel from to obstacles directAngle angleStep offset = Some (Some a) ->
    lineIsClear (testLine from to a) obstacles = true.
Proof.
  induction fuel as [|fuel IH]; intros offset a E; [discriminate|].
  cbn [offsetLoop] in E.
  destruct (num_leb offset (toRadians (lit 45))); [|discriminate].
  cbv zeta in E.
  destruct (lineIsClear (testLine from to (directAngle + offset * - lit 1)%num) obstacles)
    eqn:E1.
  - injection E as <-. exact E1.
  - destruct (lineIsClear (testLine from to (directAngle + offset * lit 1)%num) obstacles)
      eqn:E2.
    + injection E as <-. exact E2.
    + eapply IH. exact E.
Qed.

(** X9: [calculateOptimalAngle] returns the direct angle whenever the straight
    line is clear of the obstacles, in particular when there are none; any
    other angle it returns is one whose test line no obstacle comes near
    (within its radius plus 2). *)
Theorem calculateOptimalAngle_result (fuel : nat) (from to : Point N)
    (obstacles : list (Circle N)) :
  (lineIsClear (mkLine from to) obstacles = true ->
   calculateOptimalAngle fuel from to obstacles = Some (angle from to))
  /\ calculateOptimalAngle fuel from to [] = Some (angle from to)
  /\ (forall a, calculateOptimalAngle fuel from to obstacles = Some a ->
        a = angle from to \/ lineIsClear (testLine from to a) obstacles = true).
Proof.
  unfold calculateOptimalAngle. cbv zeta. repeat split.
  - intros ->. reflexivity.
  - intros a. destruct (lineIsClear (mkLine from to) obstacles).
    + intros E. injection E as <-. now left.
    + intros E. bind_inv E. injection E as <-. destruct v as [a|]; [|now left].
      right. eapply offsetLoop_clear. exact Ev.
Qed.

End OptimalAngle.

Lemma calculateOptimalAngle_result_witness :
  calculateOptimalAngle 20 (mkPoint 0 0)%float (mkPoint 100 0)%float [Scenario2.blocker]
  = Some (-0.17453292519943295)%float
  /\ lineIsClear (testLine (mkPoint 0 0)%float (mkPoint 100 0)%float
                           (-0.17453292519943295)%float) [Scenario2.blocker] = true.
Proof.
  assert (E : calculateOptimalAngle 20 (mkPoint 0 0)%float (mkPoint 100 0)%float
                [Scenario2.blocker] = Some (-0.17453292519943295)%float)
    by (vm_compute; reflexivity).
  split; [exact E|].
  destruct (calculateOptimalAngle_result 20 (mkPoint 0 0)%float (mkPoint 100 0)%float
              [Scenario2.blocker]) as (_ & _ & H).
  destruct (H _ E) as [Hd|Hc]; [|exact Hc].
  exfalso. apply (f_equal (fun a => PrimFloat.ltb a 0)) in Hd. vm_compute in Hd.
  discriminate.
Defined.

(* ================================================================= *)
(** ** Further properties of the physics engine *)

Section RegistryOrder.
Context {V : Type}.

Lemma map_set_keys (k : string) (v : V) (m : list (string * V)) :
  map fst (map_set k v m)
  = if existsb (String.eqb k) (map fst m) then map fst m else map fst m ++ [k].
Proof.
  induction m as [|[k' v'] m IH]; [reflexivity|].
  cbn [map_set map fst existsb]. destruct (String.eqb_spec k k') as [->|Hne]; cbn [orb].
  - reflexivity.
  - cbn [map fst]. rewrite IH. destruct (existsb (String.eqb k) (map fst m)); reflexivity.
Qed.

Lemma existsb_eqb_In (k : string) (l : list string) :
  existsb (String.eqb k) l = true <-> In k l.
Proof.
  rewrite existsb_exists. split.
  - intros (k' & Hin & E). apply String.eqb_eq in E. now subst.
  - intros Hin. exists k. split; [exact Hin | apply String.eqb_refl].
Qed.

Lemma map_set_NoDup (k : string) (v : V) (m : list (string * V)) :
  NoDup (map fst m) -> NoDup (map fst (map_set k v m)).
Proof.
  intros Hnd. rewrite map_set_keys.
  destruct (existsb (String.eqb k) (map fst m)) eqn:E; [exact Hnd|].
  apply NoDup_app; [exact Hnd | repeat constructor; intros [] |].
  intros k' Hin [<-|[]]. apply existsb_eqb_In in Hin. congruence.
Qed.

Lemma map_get_None (k : string) (m : list (string * V)) :
  map_get k m = None <-> ~ In k (map fst m).
Proof.
  induction m as [|[k' v'] m IH]; cbn [map_get map fst In].
  - split; [intros _ [] | reflexivity].
  - destruct (String.eqb_spec k k') as [->|Hne].
    + split; [discriminate | intros H; exfalso; apply H; now left].
    + rewrite IH. split; [intros H [E|Hin]; [congruence | contradiction] | tauto].
Qed.

Lemma map_delete_absent (k : string) (m : list (string * V)) :
  map_get k m = None -> map_delete k m = m.
Proof.
  induction m as [|[k' v'] m IH]; [reflexivity|]. cbn [map_get map_delete].
  destruct (String.eqb k k'); [discriminate|]. intros E. now rewrite IH.
Qed.

Lemma map_get_delete_same (k : string) (m : list (string * V)) :
  NoDup (map fst m) -> map_get k (map_delete k m) = None.
Proof.
  induction m as [|[k' v'] m IH]; [reflexivity|]. cbn [map fst map_delete].
  intros Hnd. inversion Hnd as [|? ? Hnotin Hnd']; subst.
  destruct (String.eqb_spec k k') as [->|Hne].
  - now apply map_get_None.
  - cbn [map_get]. destruct (String.eqb_spec k k'); [contradiction | now apply IH].
Qed.

Lemma map_get_delete_other (k k' : string) (m : list (string * V)) :
  k' <> k -> map_get k' (map_delete k m) = map_get k' m.
Proof.
  intros Hne. induction m as [|[k0 v0] m IH]; [reflexivity|]. cbn [map_delete].
  destruct (String.eqb_spec k k0) as [->|Hk]; cbn [map_get].
  - destruct (String.eqb_spec k' k0); [contradiction | reflexivity].
  - destruct (String.eqb k' k0); [reflexivity | exact IH].
Qed.

Lemma map_delete_set_fresh (k : string) (v : V) (m : list (string * V)) :
  map_get k m = None -> map_delete k (map_set k v m) = m.
Proof.
  induction m as [|[k' v'] m IH]; cbn [map_get map_set map_delete].
  - now rewrite String.eqb_refl.
  - destruct (String.eqb k k') eqn:E; [discriminate|].
    cbn [map_delete]. rewrite E. intros Hk. now rewrite IH.
Qed.

End RegistryOrder.

(** X10: [addBody] keeps the iteration order of the registry: a body whose id
    is already registered takes the place of the old one, a body with a new id
    goes to the end; the ids stay pairwise distinct. *)
Theorem addBody_iteration_order {N : Type} `{Num N}
    (e : PhysicsEngine N) (body : PhysicsBody N) :
  map fst (bodies (addBody e body))
  = (if existsb (String.eqb (id body)) (map fst (bodies e))
     then map fst (bodies e) else map fst (bodies e) ++ [id body])
  /\ (NoDup (map fst (bodies e)) -> NoDup (map fst (bodies (addBody e body)))).
Proof.
  unfold addBody. cbn [bodies set_bodies]. split.
  - apply map_set_keys.
  - apply map_set_NoDup.
Qed.

Lemma addBody_iteration_order_witness :
  map fst (bodies (addBody Scenario.overlapping (Scenario.disc "A" 5 5 1)))
  = ["A"; "B"]%string
  /\ NoDup (map fst (bodies (addBody Scenario.overlapping (Scenario.disc "A" 5 5 1)))).
Proof.
  destruct (addBody_iteration_order Scenario.overlapping (Scenario.disc "A" 5 5 1))
    as [H1 H2].
  split.
  - rewrite H1. reflexivity.
  - apply H2. cbn. repeat constructor; cbn; intuition discriminate.
Defined.

(** X11: in a registry with pairwise distinct ids, [removeBody] makes the id
    unknown to [getBody] and leaves every other id as it was; removing an
    unknown id changes nothing, and removing a body just added under a new id
    gives back the registry as it was. *)
Theorem removeBody_round_trip {N : Type} `{Num N}
    (e : PhysicsEngine N) (k : string) (body : PhysicsBody N) :
  NoDup (map fst (bodies e)) ->
  getBody (removeBody e k) k = None
  /\ (forall k', k' <> k -> getBody (removeBody e k) k' = getBody e k')
  /\ (getBody e k = None -> bodies (removeBody e k) = bodies e)
  /\ (getBody e (id body) = None ->
      bodies (removeBody (addBody e body) (id body)) = bodies e).
Proof.
  intros Hnd. unfold getBody, removeBody, addBody. cbn [bodies set_bodies].
  repeat split.
  - now apply map_get_delete_same.
  - intros k' Hne. now apply map_get_delete_other.
  - apply map_delete_absent.
  - apply map_delete_set_fresh.
Qed.

Lemma removeBody_round_trip_witness :
  getBody (removeBody Scenario.overlapping "A") "A" = None
  /\ getBody (removeBody Scenario.overlapping "A") "B"
     = getBody Scenario.overlapping "B".
Proof.
  destruct (@removeBody_round_trip float _ Scenario.overlapping "A"
              (Scenario.disc "A" 5 5 1)) as (H1 & H2 & _).
  - cbn. repeat constructor; cbn; intuition discriminate.
  - split; [exact H1 | apply H2; discriminate].
Defined.

Section StepFrame.
Context {N : Type} `{Num N}.

Lemma keptBody_refl (kb : string * PhysicsBody N) : keptBody kb kb.
Proof. unfold keptBody, sameFrame. tauto. Qed.

Lemma keptBody_trans (a b c : string * PhysicsBody N) :
  keptBody a b -> keptBody b c -> keptBody a c.
Proof.
  unfold keptBody, sameFrame.
  intros (Hk & (H1 & H2 & H3 & H4 & H5 & H6) & Hs)
         (Hk' & (H1' & H2' & H3' & H4' & H5' & H6') & Hs').
  repeat split; try congruence.
  intros E. rewrite Hs' by congruence. now apply Hs.
Qed.

Lemma integrate_kept (e : PhysicsEngine N) (dt : N) (k : string) (b : PhysicsBody N) :
  keptBody (k, b) (k, integrate e dt b).
Proof.
  unfold keptBody, sameFrame. cbn [fst snd].
  split; [reflexivity|]. split; [apply integrate_frame|].
  intros E. unfold integrate. now rewrite E.
Qed.

Lemma handleWallCollisions_frame (e : PhysicsEngine N) (b : PhysicsBody N) :
  sameFrame b (handleWallCollisions e b).
Proof.
  unfold handleWallCollisions, bottomWall, topWall, rightWall, leftWall, sameFrame.
  repeat match goal with |- context [if ?c then _ else _] => destruct c end;
    repeat split.
Qed.

Lemma resolveCollision_kept (c : CollisionResult N) (a b : PhysicsBody N) :
  sameFrame a (fst (resolveCollision c a b))
  /\ sameFrame b (snd (resolveCollision c a b))
  /\ (isStatic a = true -> fst (resolveCollision c a b) = a)
  /\ (isStatic b = true -> snd (resolveCollision c a b) = b).
Proof.
  unfold resolveCollision, sameFrame. cbv zeta.
  destruct (isStatic a) eqn:Ea, (isStatic b) eqn:Eb; cbn [negb];
    unfold set_velocity, set_position; body_fields; rewrite ?Ea, ?Eb; cbn [negb];
    match goal with |- context [if ?c then _ else _] => destruct c end;
    cbn [fst snd]; body_fields;
    repeat split; try assumption; try discriminate.
Qed.

Lemma Forall2_array_set {A : Type} (P : A -> A -> Prop) (l l' : list A) (i : nat) (v : A) :
  Forall2 P l l' ->
  (forall a, nth_error l i = Some a -> P a v) ->
  Forall2 P l (array_set i v l').
Proof.
  intros HF. revert i. induction HF as [|a a' l l' Ha HF IH]; intros i Hv.
  - destruct i; cbn [array_set]; constructor.
  - destruct i as [|i]; cbn [array_set].
    + constructor; [apply Hv; reflexivity | exact HF].
    + constructor; [exact Ha | apply IH; intros a0 E; apply Hv; exact E].
Qed.

Lemma Forall2_nth_error {A : Type} (P : A -> A -> Prop) (l l' : list A) (i : nat) (a' : A) :
  Forall2 P l l' -> nth_error l' i = Some a' ->
  exists a, nth_error l i = Some a /\ P a a'.
Proof.
  intros HF. revert i. induction HF as [|a0 a0' l l' Ha HF IH]; intros i E.
  - destruct i; discriminate.
  - destruct i as [|i]; cbn [nth_error] in *.
    + injection E as <-. eauto.
    + now apply IH.
Qed.

Lemma collidePair_kept (bs0 : list (string * PhysicsBody N))
    (st : list (string * PhysicsBody N) * list (CollisionResult N)) (i j : nat) :
  i <> j ->
  Forall2 keptBody bs0 (fst st) -> Forall2 keptBody bs0 (fst (collidePair st i j)).
Proof.
  intros Hij HF. destruct st as [bs evs]. unfold collidePair. cbn [fst] in HF.
  destruct (nth_error bs i) as [[ka a]|] eqn:Ei; [|exact HF].
  destruct (nth_error bs j) as [[kb b]|] eqn:Ej; [|exact HF].
  destruct (checkCollision a b) as [c|]; [|exact HF].
  pose proof (resolveCollision_kept c a b) as (Fa & Fb & Sa & Sb).
  destruct (resolveCollision c a b) as [a' b']. cbn [fst snd] in *.
  destruct (@Forall2_nth_error _ _ _ _ _ _ HF Ei) as (oa & Eoa & Ka).
  destruct (@Forall2_nth_error _ _ _ _ _ _ HF Ej) as (ob & Eob & Kb).
  apply Forall2_array_set.
  - apply Forall2_array_set; [exact HF|].
    intros o Eo. assert (o = oa) by congruence. subst o.
    apply keptBody_trans with (ka, a); [exact Ka|].
    unfold keptBody. cbn [fst snd]. auto.
  - intros o Eo. assert (o = ob) by congruence. subst o.
    apply keptBody_trans with (kb, b); [exact Kb|].
    unfold keptBody. cbn [fst snd]. auto.
Qed.

Lemma collideAll_kept (bs : list (string * PhysicsBody N)) :
  Forall2 keptBody bs (fst (collideAll bs)).
Proof.
  unfold collideAll.
  assert (G : forall (idx : list nat) st,
             Forall2 keptBody bs (fst st) ->
             Forall2 keptBody bs
               (fst (fold_left
                       (fun st i => fold_left (fun st j => collidePair st i j)
                                      (seq (S i) (List.length bs - S i)) st) idx st))).
  { induction idx as [|i idx IH]; intros st Hst; [exact Hst|].
    cbn [fold_left]. apply IH.
    assert (G' : forall (js : list nat) st,
               Forall (fun j => i <> j) js ->
               Forall2 keptBody bs (fst st) ->
               Forall2 keptBody bs (fst (fold_left (fun st j => collidePair st i j) js st))).
    { induction js as [|j js IHj]; intros st' Hjs Hst'; [exact Hst'|].
      cbn [fold_left]. inversion Hjs; subst. apply IHj; [assumption|].
      now apply collidePair_kept. }
    apply G'; [|exact Hst].
    apply Forall_forall. intros j Hj. apply in_seq in Hj. lia. }
  apply G. cbn [fst]. clear G. induction bs; constructor; [apply keptBody_refl | assumption].
Qed.

Lemma walls_after_integrate_kept (e : PhysicsEngine N) (dt : N)
    (l : list (string * PhysicsBody N)) :
  Forall2 keptBody l
    (map_update (fun body => if isStatic body then body else handleWallCollisions e body)
       (map_update (integrate e dt) l)).
Proof.
  unfold map_update. rewrite map_map. cbn [fst snd].
  induction l as [|[k b] l IH]; cbn [map]; constructor; [|exact IH].
  cbn [fst snd]. apply keptBody_trans with (k, integrate e dt b);
    [apply integrate_kept|].
  unfold keptBody. cbn [fst snd]. split; [reflexivity|].
  destruct (isStatic (integrate e dt b)) eqn:E.
  - split; [unfold sameFrame; tauto | reflexivity].
  - split; [apply handleWallCollisions_frame | discriminate].
Qed.

Lemma Forall2_keptBody_trans (l1 l2 l3 : list (string * PhysicsBody N)) :
  Forall2 keptBody l1 l2 -> Forall2 keptBody l2 l3 -> Forall2 keptBody l1 l3.
Proof.
  intros H12. revert l3.
  induction H12 as [|a b l l' Hab H12 IH]; intros l3 HF; inversion HF; subst;
    constructor.
  - eapply keptBody_trans; eassumption.
  - now apply IH.
Qed.

Lemma step_kept (e : PhysicsEngine N) (dt : N) :
  Forall2 keptBody (bodies e) (bodies (fst (step e dt))).
Proof.
  unfold step.
  pose proof (walls_after_integrate_kept e dt (bodies e)) as H12.
  set (bs2 := map_update _ (map_update _ _)) in *.
  pose proof (collideAll_kept bs2) as HF.
  destruct (collideAll bs2) as [bs3 evs]. cbn [fst set_bodies bodies] in *.
  eapply Forall2_keptBody_trans; eassumption.
Qed.

End StepFrame.

(** X12: a step of the engine keeps the registry's ids and their order, the
    board's fields, and of every body its id, radius, mass, friction,
    restitution and static flag. *)
Theorem step_keeps_frame {N : Type} `{Num N} (e : PhysicsEngine N) (dt : N) :
  let e' := fst (step e dt) in
  map fst (bodies e') = map fst (bodies e)
  /\ (boardWidth e', boardHeight e', margin e', gravity e', airResistance e')
     = (boardWidth e, boardHeight e, margin e, gravity e, airResistance e)
  /\ Forall2 (fun kb kb' => sameFrame (snd kb) (snd kb')) (bodies e) (bodies e').
Proof.
  cbn zeta. pose proof (step_kept e dt) as HF. repeat split.
  - induction HF as [|a b l l' (Hk & _) HF IH]; [reflexivity|].
    cbn [map]. now rewrite Hk, IH.
  - unfold step. destruct (collideAll _). reflexivity.
  - eapply Forall2_impl; [|exact HF]. intros a b (_ & Hf & _). exact Hf.
Qed.

(** X13: a static body is never changed by a step, whatever touches it: it
    keeps its position and its velocity, also when another body overlaps it. *)
Theorem step_leaves_static_bodies {N : Type} `{Num N}
    (e : PhysicsEngine N) (dt : N) (i : nat) (k : string) (b : PhysicsBody N) :
  nth_error (bodies e) i = Some (k, b) ->
  isStatic b = true ->
  nth_error (bodies (fst (step e dt))) i = Some (k, b).
Proof.
  intros Ei Es. pose proof (step_kept e dt) as HF.
  revert i Ei. induction HF as [|a a' l l' Ha HF IH]; intros i Ei.
  - destruct i; discriminate.
  - destruct i as [|i]; cbn [nth_error] in *.
    + injection Ei as ->. destruct Ha as (Hk & _ & Hs). cbn [fst snd] in *.
      destruct a' as [k' b']. cbn [fst snd] in *. rewrite Hs by exact Es. now subst.
    + now apply IH.
Qed.

Lemma step_leaves_static_bodies_witness :
  nth_error (bodies (fst (step Scenario2.pinned Scenario.tick))) 0
  = Some ("S"%string, Scenario2.post).
Proof.
  apply (@step_leaves_static_bodies float _ Scenario2.pinned Scenario.tick 0
           "S"%string Scenario2.post); reflexivity.
Defined.

(** *** Friction, walls and impulses over the reals *)

Lemma friction_component (v s F : R) :
  (0 < s)%R -> (0 <= F)%R ->
  let f := (v / s * F)%R in
  let v' := if Real.ltb (Rabs f) (Rabs v) then (v - f)%R else 0%R in
  (0 <= v' * v)%R /\ (Rabs v' <= Rabs v)%R.
Proof.
  intros Hs HF f v'. subst v'.
  assert (Hk : (0 <= F / s)%R) by (apply Rmult_le_pos; [lra | left; now apply Rinv_0_lt_compat]).
  assert (Ef : f = (v * (F / s))%R) by (subst f; field; lra).
  destruct (Real.ltb (Rabs f) (Rabs v)) eqn:E.
  - apply ltb_true in E. rewrite Ef, Rabs_mult, (Rabs_right (F / s)) in E by lra.
    assert (Hv : (0 <= Rabs v)%R) by apply Rabs_pos.
    assert (Hk1 : (F / s < 1)%R) by nra.
    replace (v - f)%R with (v * (1 - F / s))%R by (rewrite Ef; ring).
    split.
    + replace (v * (1 - F / s) * v)%R with ((1 - F / s) * (v * v))%R by ring.
      apply Rmult_le_pos; [lra | apply Rle_0_sqr].
    + rewrite Rabs_mult, (Rabs_right (1 - F / s)) by lra. nra.
  - rewrite Rmult_0_l, Rabs_R0. split; [lra | apply Rabs_pos].
Qed.

Lemma damped_sign (w u a v : R) :
  (0 <= a <= 1)%R -> v = (u * a)%R ->
  (0 <= w * v)%R -> (Rabs w <= Rabs v)%R -> (0 <= w * u)%R.
Proof.
  intros Ha -> Hs Hm. destruct (Req_dec a 0) as [->|Hne].
  - rewrite Rmult_0_r, Rabs_R0 in Hm. pose proof (Rabs_pos w).
    assert (Rabs w = 0%R) by lra.
    destruct (Req_dec w 0) as [->|Hw]; [lra | now apply Rabs_no_R0 in Hw].
  - apply Rmult_le_reg_r with a; [lra|]. rewrite Rmult_0_l. lra.
Qed.

(** X14: with no gravity and an air-resistance factor in [0,1], one
    integration never reverses a velocity component and never makes it larger
    in magnitude. *)
Theorem integrate_friction_only_slows
    (e : PhysicsEngine R) (dt : R) (b : PhysicsBody R) :
  gravity e = mkPoint 0%R 0%R ->
  (0 <= airResistance e <= 1)%R ->
  (0 <= friction b)%R -> (0 <= dt)%R ->
  let b' := integrate e dt b in
  (0 <= x (velocity b') * x (velocity b))%R
  /\ (0 <= y (velocity b') * y (velocity b))%R
  /\ (Rabs (x (velocity b')) <= Rabs (x (velocity b)))%R
  /\ (Rabs (y (velocity b')) <= Rabs (y (velocity b)))%R.
Proof.
  intros Hg Ha Hf Hdt. cbn zeta. unfold integrate.
  destruct (isStatic b).
  { repeat split; try apply Rle_0_sqr; lra. }
  rewrite Hg. cbn [x y]. unfold set_velocity, set_position. body_fields.
  real_ops. rewrite !Rmult_0_l, !Rplus_0_r.
  set (vx := (x (velocity b) * airResistance e)%R).
  set (vy := (y (velocity b) * airResistance e)%R).
  set (s := R_sqrt.sqrt (vx * vx + vy * vy)).
  assert (Evx : vx = (x (velocity b) * airResistance e)%R) by reflexivity.
  assert (Evy : vy = (y (velocity b) * airResistance e)%R) by reflexivity.
  assert (Ax : (Rabs vx <= Rabs (x (velocity b)))%R).
  { rewrite Evx, Rabs_mult, (Rabs_right (airResistance e)) by lra.
    pose proof (Rabs_pos (x (velocity b))). nra. }
  assert (Ay : (Rabs vy <= Rabs (y (velocity b)))%R).
  { rewrite Evy, Rabs_mult, (Rabs_right (airResistance e)) by lra.
    pose proof (Rabs_pos (y (velocity b))). nra. }
  destruct (Real.ltb _ s) eqn:Es; cbn [x y].
  - apply ltb_true in Es.
    assert (Hs : (0 < s)%R) by lra.
    assert (HF : (0 <= friction b * dt)%R) by (apply Rmult_le_pos; lra).
    destruct (friction_component vx Hs HF) as [Sx Mx].
    destruct (friction_component vy Hs HF) as [Sy My].
    cbv zeta in Sx, Mx, Sy, My.
    repeat split.
    + eapply damped_sign; [exact Ha | exact Evx | exact Sx | exact Mx].
    + eapply damped_sign; [exact Ha | exact Evy | exact Sy | exact My].
    + lra.
    + lra.
  - rewrite !Rmult_0_l, Rabs_R0. repeat split; try lra; apply Rabs_pos.
Qed.

Section NoEvents.
Context {N : Type} `{Num N}.

Lemma collidePair_events (st0 st : list (string * PhysicsBody N) * list (CollisionResult N))
    (i j : nat) :
  st = st0 \/ snd st <> [] ->
  collidePair st i j = st0 \/ snd (collidePair st i j) <> [].
Proof.
  intros Hst. destruct st as [bs evs]. unfold collidePair.
  destruct (nth_error bs i) as [[ka a]|]; [|exact Hst].
  destruct (nth_error bs j) as [[kb b]|]; [|exact Hst].
  destruct (checkCollision a b) as [c|]; [|exact Hst].
  destruct (resolveCollision c a b) as [a' b']. right. cbn [snd].
  intros E. now apply app_eq_nil in E as [_ E].
Qed.

Lemma collideAll_no_events (bs bs' : list (string * PhysicsBody N)) :
  collideAll bs = (bs', []) -> bs' = bs.
Proof.
  unfold collideAll. intros E.
  assert (G : forall (idx : list nat) st,
             st = (bs, []) \/ snd st <> [] ->
             let r := fold_left
                        (fun st i => fold_left (fun st j => collidePair st i j)
                                       (seq (S i) (List.length bs - S i)) st) idx st in
             r = (bs, []) \/ snd r <> []).
  { induction idx as [|i idx IH]; intros st Hst; [exact Hst|].
    cbn [fold_left]. apply IH.
    generalize (seq (S i) (List.length bs - S i)). intros js. revert st Hst.
    induction js as [|j js IHj]; intros st Hst; [exact Hst|].
    cbn [fold_left]. apply IHj. now apply collidePair_events. }
  specialize (G (seq 0 (List.length bs)) (bs, []) (or_introl eq_refl)).
  cbv zeta in G. rewrite E in G. destruct G as [G|G]; [congruence | now elim G].
Qed.

End NoEvents.

(** X15: on a board wider and higher than twice margin plus radius, every
    non-static body is inside the walls after a step that reported no
    collision between bodies: its centre is at least margin plus radius away
    from each edge. *)
Theorem step_without_collisions_stays_inside
    (e e' : PhysicsEngine R) (dt : R) (k : string) (b : PhysicsBody R) :
  margin e = 20%R ->
  step e dt = (e', []) ->
  In (k, b) (bodies e') ->
  isStatic b = false ->
  (2 * (20 + radius b) < boardWidth e)%R ->
  (2 * (20 + radius b) < boardHeight e)%R ->
  (20 + radius b <= x (position b) <= boardWidth e - 20 - radius b)%R
  /\ (20 + radius b <= y (position b) <= boardHeight e - 20 - radius b)%R.
Proof.
  intros Hm Hstep Hin Hs Hw Hh. unfold step in Hstep.
  destruct (collideAll _) as [bs3 evs] eqn:Ec. injection Hstep as <- ->.
  apply collideAll_no_events in Ec. subst bs3. cbn [bodies set_bodies] in Hin.
  unfold map_update in Hin. rewrite map_map in Hin. cbn [fst snd] in Hin.
  apply in_map_iff in Hin as ([k0 b0] & E & _). cbn [fst snd] in E.
  injection E as _ <-.
  pose proof (integrate_frame e dt b0) as (_ & Hr & _ & _ & _ & _).
  set (b1 := integrate e dt b0) in *.
  destruct (isStatic b1) eqn:E1; [congruence|].
  pose proof (handleWallCollisions_frame e b1) as (_ & Hr' & _).
  rewrite Hr' in Hw, Hh |- *.
  destruct e as [bs W Hgt m g air]. cbn [margin boardWidth boardHeight] in *. subst m.
  replace 20%R with (lit (N := R) 20) at 1 3 by (real_ops; lra).
  pose proof (@handleWallCollisions_bounce bs W Hgt air g b1 Hw Hh) as Eq.
  cbv zeta in Eq.
  replace (mkEngine bs W Hgt 20%R g air) with (mkEngine bs W Hgt (lit 20) g air)
    by (f_equal; real_ops; lra).
  rewrite Eq. cbn [position x y]. real_ops.
  replace (20 * / 1)%R with 20%R by lra.
  split.
  - destruct (Real.leb (x (position b1) - radius b1) 20) eqn:L1; cbn [orb].
    + lra.
    + apply leb_false in L1.
      destruct (Real.leb (W - 20) (x (position b1) + radius b1)) eqn:L2.
      * lra.
      * apply leb_false in L2. lra.
  - destruct (Real.leb (y (position b1) - radius b1) 20) eqn:L1; cbn [orb].
    + lra.
    + apply leb_false in L1.
      destruct (Real.leb (Hgt - 20) (y (position b1) + radius b1)) eqn:L2.
      * lra.
      * apply leb_false in L2. lra.
Qed.

Lemma sqrt_scaled (k dx dy : R) :
  (0 <= k)%R ->
  R_sqrt.sqrt ((k * dx) * (k * dx) + (k * dy) * (k * dy))
  = (k * R_sqrt.sqrt (dx * dx + dy * dy))%R.
Proof.
  intros Hk.
  replace ((k * dx) * (k * dx) + (k * dy) * (k * dy))%R
    with ((k * k) * (dx * dx + dy * dy))%R by ring.
  rewrite sqrt_mult_alt by nra. now rewrite sqrt_square.
Qed.

(** X16: detection followed by response never separates two overlapping
    non-static bodies with distinct centres: the distance between the centres
    becomes the mean of the old distance and the sum of the radii, which is
    still below the sum of the radii. *)
Theorem collision_response_halves_overlap
    (a b : PhysicsBody R) (c : CollisionResult R) :
  checkCollision a b = Some c ->
  position a <> position b ->
  isStatic a = false -> isStatic b = false ->
  (0 < mass a)%R -> (0 < mass b)%R ->
  let a' := fst (resolveCollision c a b) in
  let b' := snd (resolveCollision c a b) in
  distance (position a') (position b')
  = ((distance (position a) (position b) + (radius a + radius b)) / 2)%R
  /\ (distance (position a') (position b') < radius a + radius b)%R.
Proof.
  intros Ec Hne Ha Hb Hma Hmb a' b'.
  destruct (@resolveCollision_closes_half_the_overlap c a b Ha Hb Hma Hmb) as [Hx Hy].
  cbv zeta in Hx, Hy. fold a' b' in Hx, Hy.
  unfold distance at 1 3. cbv zeta. real_ops. rewrite Hx, Hy. clear Hx Hy.
  unfold checkCollision in Ec. cbv zeta in Ec.
  set (d := distance (position a) (position b)) in *.
  destruct (d <? radius a + radius b)%num eqn:E; [|discriminate].
  injection Ec as <-. cbn [normal penetration x y]. real_ops.
  apply ltb_true in E.
  assert (Hd : (0 < d)%R).
  { subst d. unfold distance. cbv zeta. real_ops.
    apply sqrt_lt_R0.
    assert (Hs : (0 <= (x (position b) - x (position a)) * (x (position b) - x (position a))
                      + (y (position b) - y (position a)) * (y (position b) - y (position a)))%R)
      by (apply Rplus_le_le_0_compat; apply Rle_0_sqr).
    destruct Hs as [Hs|Hs]; [exact Hs|]. exfalso. apply Hne. symmetry in Hs.
    destruct (Rplus_sqr_eq_0 _ _ Hs) as [Hx Hy].
    destruct (position a) as [pax pay], (position b) as [pbx pby]. cbn [x y] in *.
    f_equal; lra. }
  set (dx := (x (position b) - x (position a))%R) in *.
  set (dy := (y (position b) - y (position a))%R) in *.
  set (k := (1 + (radius a + radius b - d) / 2 / d)%R).
  assert (Hk : (0 <= k)%R).
  { subst k. apply Rplus_le_le_0_compat; [lra|].
    apply Rmult_le_pos; [lra | left; now apply Rinv_0_lt_compat]. }
  replace (dx + dx / d * ((radius a + radius b - d) / 2))%R with (k * dx)%R
    by (subst k; field; lra).
  replace (dy + dy / d * ((radius a + radius b - d) / 2))%R with (k * dy)%R
    by (subst k; field; lra).
  rewrite (sqrt_scaled dx dy Hk).
  assert (Ed : R_sqrt.sqrt (dx * dx + dy * dy) = d).
  { subst d dx dy. unfold distance. cbv zeta. real_ops. reflexivity. }
  rewrite Ed.
  assert (Ek : (k * d = (d + (radius a + radius b)) / 2)%R) by (subst k; field; lra).
  rewrite Ek. split; [reflexivity | lra].
Qed.

(** X17: the impulse of [resolveCollision] obeys the law of restitution: for
    two non-static bodies of positive mass that approach along a unit normal,
    the relative velocity along the normal is reversed and scaled by the
    smaller of the two restitutions; when they already separate, both
    velocities are left as they are. *)
Theorem resolveCollision_restitution_law
    (c : CollisionResult R) (a b : PhysicsBody R) :
  isStatic a = false -> isStatic b = false ->
  (0 < mass a)%R -> (0 < mass b)%R ->
  (x (normal c) * x (normal c) + y (normal c) * y (normal c) = 1)%R ->
  let along (va vb : Vector R) :=
    ((x vb - x va) * x (normal c) + (y vb - y va) * y (normal c))%R in
  let a' := fst (resolveCollision c a b) in
  let b' := snd (resolveCollision c a b) in
  ((along (velocity a) (velocity b) <= 0)%R ->
   along (velocity a') (velocity b')
   = (- Rmin (restitution a) (restitution b) * along (velocity a) (velocity b))%R)
  /\ ((0 < along (velocity a) (velocity b))%R ->
      velocity a' = velocity a /\ velocity b' = velocity b).
Proof.
  intros Ha Hb Hma Hmb Hn along a' b'. subst a' b' along. cbv beta.
  unfold resolveCollision, set_position, set_velocity. rewrite Ha, Hb.
  cbv zeta. body_fields. real_ops.
  set (van := ((x (velocity b) - x (velocity a)) * x (normal c)
               + (y (velocity b) - y (velocity a)) * y (normal c))%R).
  replace (0 * / 1)%R with 0%R by lra.
  destruct (Real.ltb 0 van) eqn:E; body_fields.
  - apply ltb_true in E. split; [intros; lra | intros _; split; reflexivity].
  - apply ltb_false in E. split; [intros _ | intros; lra].
    set (e := Rmin (restitution a) (restitution b)).
    set (j := (- (1 * / 1 + e) * van / (1 * / 1 / mass a + 1 * / 1 / mass b))%R).
    transitivity (van + j * (1 / mass a + 1 / mass b)
                        * (x (normal c) * x (normal c) + y (normal c) * y (normal c)))%R.
    + subst van. generalize j. intros j'. field. lra.
    + rewrite Hn. subst j. field.
      assert (0 < / mass a)%R by now apply Rinv_0_lt_compat.
      assert (0 < / mass b)%R by now apply Rinv_0_lt_compat.
      repeat split; lra.
Qed.

(** X18: [checkCollision] does not depend on the order of the two bodies:
    the other order detects a collision in the same cases, with the same
    penetration, the ids exchanged and the opposite normal. *)
Theorem checkCollision_symmetric (a b : PhysicsBody R) :
  match checkCollision a b, checkCollision b a with
  | Some c, Some c' =>
      bodyA c' = bodyB c /\ bodyB c' = bodyA c
      /\ penetration c' = penetration c
      /\ x (normal c') = (- x (normal c))%R /\ y (normal c') = (- y (normal c))%R
  | None, None => True
  | _, _ => False
  end.
Proof.
  unfold checkCollision. cbv zeta.
  assert (Ed : distance (position b) (position a) = distance (position a) (position b)).
  { unfold distance. cbv zeta. real_ops. f_equal. ring. }
  rewrite Ed. replace (radius b + radius a)%num with (radius a + radius b)%num
    by (real_ops; ring).
  destruct (_ <? _)%num; [|exact I].
  cbn [bodyA bodyB penetration normal x y]. real_ops.
  repeat split; unfold Rdiv; ring.
Qed.

Lemma integrate_friction_only_slows_witness :
  let b' := integrate Scenario.board600 Scenario.tick Scenario.moving in
  (0 <= x (velocity b') * x (velocity Scenario.moving))%R
  /\ (0 <= y (velocity b') * y (velocity Scenario.moving))%R
  /\ (Rabs (x (velocity b')) <= Rabs (x (velocity Scenario.moving)))%R
  /\ (Rabs (y (velocity b')) <= Rabs (y (velocity Scenario.moving)))%R.
Proof.
  apply integrate_friction_only_slows.
  - cbn. f_equal; real_ops; lra.
  - cbn. real_ops. lra.
  - cbn. real_ops. lra.
  - unfold Scenario.tick. real_ops. lra.
Defined.

Lemma step_without_collisions_stays_inside_witness :
  let b := handleWallCollisions Scenario2.lone
             (integrate Scenario2.lone Scenario.tick Scenario.moving) in
  (20 + radius b <= x (position b) <= boardWidth Scenario2.lone - 20 - radius b)%R
  /\ (20 + radius b <= y (position b) <= boardHeight Scenario2.lone - 20 - radius b)%R.
Proof.
  assert (Hr : radius (handleWallCollisions Scenario2.lone
                         (integrate Scenario2.lone Scenario.tick Scenario.moving))
               = 10%R).
  { pose proof (handleWallCollisions_frame Scenario2.lone
                  (integrate Scenario2.lone Scenario.tick Scenario.moving))
      as (_ & Hr & _).
    rewrite Hr. cbn. real_ops. lra. }
  apply (@step_without_collisions_stays_inside Scenario2.lone
           (fst (step Scenario2.lone Scenario.tick)) Scenario.tick "m"%string).
  - cbn. real_ops. lra.
  - reflexivity.
  - left. reflexivity.
  - pose proof (handleWallCollisions_frame Scenario2.lone
                  (integrate Scenario2.lone Scenario.tick Scenario.moving))
      as (_ & _ & _ & _ & _ & Hs).
    rewrite Hs. reflexivity.
  - rewrite Hr. cbn. real_ops. lra.
  - rewrite Hr. cbn. real_ops. lra.
Defined.

Lemma collision_response_halves_overlap_witness :
  exists c : CollisionResult R,
    checkCollision Scenario.left_disc Scenario.right_disc = Some c
    /\ let a' := fst (resolveCollision c Scenario.left_disc Scenario.right_disc) in
       let b' := snd (resolveCollision c Scenario.left_disc Scenario.right_disc) in
       distance (position a') (position b')
       = ((distance (position Scenario.left_disc) (position Scenario.right_disc)
           + (radius Scenario.left_disc + radius Scenario.right_disc)) / 2)%R
       /\ (distance (position a') (position b')
           < radius Scenario.left_disc + radius Scenario.right_disc)%R.
Proof.
  assert (E : (distance (position (Scenario.left_disc (N := R)))
                        (position (Scenario.right_disc (N := R)))
               <? radius (Scenario.left_disc (N := R))
                  + radius (Scenario.right_disc (N := R)))%num = true).
  { apply ltb_true. unfold distance. cbn. real_ops.
    replace ((115 * / 1 - 100 * / 1) * (115 * / 1 - 100 * / 1)
             + (100 * / 1 - 100 * / 1) * (100 * / 1 - 100 * / 1))%R
      with (15 * 15)%R by lra.
    rewrite sqrt_square; lra. }
  eexists. split.
  - unfold checkCollision. cbv zeta. rewrite E. reflexivity.
  - apply collision_response_halves_overlap.
    + unfold checkCollision. cbv zeta. rewrite E. reflexivity.
    + cbn. intros H. injection H. real_ops. lra.
    + reflexivity.
    + reflexivity.
    + cbn. real_ops. lra.
    + cbn. real_ops. lra.
Defined.

Lemma resolveCollision_restitution_law_witness :
  let c := Scenario.contact (N := R) in
  let a := Scenario.left_disc (N := R) in
  let b := Scenario.right_disc (N := R) in
  let along (va vb : Vector R) :=
    ((x vb - x va) * x (normal c) + (y vb - y va) * y (normal c))%R in
  let a' := fst (resolveCollision c a b) in
  let b' := snd (resolveCollision c a b) in
  ((along (velocity a) (velocity b) <= 0)%R ->
   along (velocity a') (velocity b')
   = (- Rmin (restitution a) (restitution b) * along (velocity a) (velocity b))%R)
  /\ ((0 < along (velocity a) (velocity b))%R ->
      velocity a' = velocity a /\ velocity b' = velocity b).
Proof.
  apply (@resolveCollision_restitution_law Scenario.contact Scenario.left_disc
           Scenario.right_disc).
  - reflexivity.
  - reflexivity.
  - cbn. real_ops. lra.
  - cbn. real_ops. lra.
  - cbn. real_ops. lra.
Defined.

(** *** NaN on doubles *)

Module NaN.

Lemma Prim2SF_nan : Prim2SF F64.nan = S754_nan.
Proof. reflexivity. Qed.

Lemma is_nan_eq (a : float) : Prim2SF a = S754_nan -> a = F64.nan.
Proof. intros E. apply Prim2SF_inj. now rewrite E. Qed.

Lemma mul_r (a : float) : (a * F64.nan)%float = F64.nan.
Proof.
  apply is_nan_eq. rewrite mul_spec, Prim2SF_nan.
  destruct (Prim2SF a) as [[]|[]| |[] ? ?]; reflexivity.
Qed.

Lemma add_r (a : float) : (a + F64.nan)%float = F64.nan.
Proof.
  apply is_nan_eq. rewrite add_spec, Prim2SF_nan.
  destruct (Prim2SF a) as [[]|[]| |[] ? ?]; reflexivity.
Qed.

Lemma sub_r (a : float) : (a - F64.nan)%float = F64.nan.
Proof.
  apply is_nan_eq. rewrite sub_spec, Prim2SF_nan.
  destruct (Prim2SF a) as [[]|[]| |[] ? ?]; reflexivity.
Qed.

Lemma sqrt_nan : PrimFloat.sqrt F64.nan = F64.nan.
Proof. reflexivity. Qed.

Lemma leb_l (a : float) : PrimFloat.leb F64.nan a = false.
Proof.
  rewrite leb_spec, Prim2SF_nan. reflexivity.
Qed.

End NaN.

Lemma obstructed_nan (e : PhysicsEngine float) (ex : list string) (buf : float) :
  obstructed e ex buf (mkPoint F64.nan F64.nan) = false.
Proof.
  unfold obstructed. induction (map_values (bodies e)) as [|b l IH]; [reflexivity|].
  cbn [existsb]. rewrite IH, orb_false_r.
  destruct (existsb (String.eqb (id b)) ex); [reflexivity|].
  unfold distance. cbv zeta. cbn [x y num_sub num_mul num_add num_leb Math_sqrt Num_float].
  rewrite !NaN.sub_r, !NaN.mul_r, NaN.add_r, NaN.sqrt_nan. apply NaN.leb_l.
Qed.

(** X19: on doubles, a path of zero steps is always reported clear, whatever
    lies on it: the only sample is taken at parameter 0/0, which is NaN, and
    no comparison with NaN holds. *)
Theorem isPathClear_zero_length_is_clear
    (e : PhysicsEngine float) (start end' : Point float) (ex : list string)
    (buf : float) (fuel : nat) :
  Math_ceil (distance start end' / lit 2)%num = 0%float ->
  isPathClear (S (S fuel)) e start end' ex buf = Some true.
Proof.
  intros E. unfold isPathClear. cbv zeta. rewrite E.
  cbn [pathLoop].
  change (lit (N := float) 0 <=? 0%float)%num with true. cbv iota.
  change (lit (N := float) 0 / 0%float)%num with F64.nan.
  cbn [num_mul num_add Num_float]. rewrite !NaN.mul_r, !NaN.add_r.
  rewrite obstructed_nan.
  change (lit (N := float) 0 + lit 1 <=? 0%float)%num with false. reflexivity.
Qed.

Lemma isPathClear_zero_length_is_clear_witness :
  isPathClear 2 Scenario.one_disc (mkPoint 100%float 100%float)
              (mkPoint 100%float 100%float) [] 5%float
  = Some true.
Proof.
  apply (@isPathClear_zero_length_is_clear Scenario.one_disc
           (mkPoint 100%float 100%float) (mkPoint 100%float 100%float) [] 5%float 0).
  reflexivity.
Defined.

(** *** Path tests and predicted trajectories over the reals *)

Lemma ceil_nonneg (a : R) : (0 <= a)%R -> (0 <= Real.ceil a)%R.
Proof.
  intros Ha. unfold Real.ceil. destruct (base_Int_part (- a)) as [Hi _]. lra.
Qed.

Lemma distance_nonneg (p q : Point R) : (0 <= distance p q)%R.
Proof. unfold distance. cbv zeta. real_ops. apply sqrt_pos. Qed.

Lemma pathLoop_clear (e : PhysicsEngine R) (s t : Point R) (ex : list string)
    (buf steps : R) :
  (forall p, obstructed e ex buf p = false) ->
  forall (m : nat) (i : R), (steps - i < INR m)%R ->
  settles (fun fuel => pathLoop fuel e s t ex buf steps i) true.
Proof.
  intros Hclear. induction m as [|m IH]; intros i Hi.
  - exists 1%nat. intros [|fuel] Hf; [lia|].
    cbn [pathLoop]. real_ops. simpl INR in Hi.
    assert (E : Real.leb i steps = false) by (apply leb_false; lra).
    rewrite E. reflexivity.
  - rewrite S_INR in Hi. destruct (Real.leb i steps) eqn:E.
    + destruct (IH (i + lit 1)%num) as [n Hn]; [real_ops; lra|].
      exists (S n). intros [|fuel] Hf; [lia|].
      cbn [pathLoop]. real_ops. rewrite E, Hclear. apply Hn. lia.
    + exists 1%nat. intros [|fuel] Hf; [lia|].
      cbn [pathLoop]. real_ops. rewrite E. reflexivity.
Qed.

(** X20: over the reals, between two distinct points, [isPathClear] answers
    false as soon as the start point is within radius plus buffer of a body
    whose id is not excluded, and it answers true when every registered body
    is excluded.  (Coinciding points are the case of the previous theorem.) *)
Theorem isPathClear_start_and_exclusions
    (e : PhysicsEngine R) (start end' : Point R) (ex : list string) (buf : R) :
  start <> end' ->
  (forall b, In b (map_values (bodies e)) ->
             existsb (String.eqb (id b)) ex = false ->
             (distance start (position b) <= radius b + buf)%R ->
             forall fuel, isPathClear (S fuel) e start end' ex buf = Some false)
  /\ ((forall b, In b (map_values (bodies e)) -> existsb (String.eqb (id b)) ex = true) ->
      settles (fun fuel => isPathClear fuel e start end' ex buf) true).
Proof.
  intros _. split.
  - intros b Hin Hex Hd fuel. unfold isPathClear. cbv zeta. cbn [pathLoop].
    set (steps := Math_ceil _).
    assert (Hs : (0 <= steps)%R).
    { subst steps. cbn [Math_ceil Num_R]. apply ceil_nonneg. real_ops.
      pose proof (distance_nonneg start end'). lra. }
    assert (E : (lit 0 <=? steps)%num = true) by (apply leb_true; real_ops; lra).
    rewrite E.
    assert (Ep : mkPoint (x start + (x end' - x start) * (lit 0 / steps))%num
                         (y start + (y end' - y start) * (lit 0 / steps))%num = start).
    { destruct start as [sx sy]. cbn [x y]. real_ops. f_equal; unfold Rdiv; ring. }
    rewrite Ep.
    assert (Eo : obstructed e ex buf start = true).
    { unfold obstructed. apply existsb_exists. exists b. split; [exact Hin|].
      rewrite Hex. apply leb_true. real_ops. exact Hd. }
    rewrite Eo. reflexivity.
  - intros Hall. unfold isPathClear. cbv zeta.
    destruct (INR_archimed 1 (Math_ceil (distance start end' / lit 2)%num - lit 0)%num)
      as [m Hm]; [lra|].
    apply pathLoop_clear with (m := m).
    + intros p. unfold obstructed.
      induction (map_values (bodies e)) as [|b l IH]; [reflexivity|].
      cbn [existsb]. rewrite Hall by (now left). cbn [orb].
      apply IH. intros b' Hb'. apply Hall. now right.
    + revert Hm. real_ops. intros Hm. lra.
Qed.

Lemma simulateIteration_inside (e : PhysicsEngine R) (r dt : R) (pos pos' : Point R)
    (vel vel' : Vector R) :
  (2 * (margin e + r) <= boardWidth e)%R ->
  (2 * (margin e + r) <= boardHeight e)%R ->
  simulateIteration e r dt pos vel = Some (pos', vel') ->
  (margin e + r <= x pos' <= boardWidth e - margin e - r)%R
  /\ (margin e + r <= y pos' <= boardHeight e - margin e - r)%R.
Proof.
  intros Hw Hh. unfold simulateIteration. cbv zeta.
  destruct (_ >? _)%num; [|discriminate].
  set (px := (x pos + _ * dt)%num). set (py := (y pos + _ * dt)%num).
  clearbody px py. real_ops.
  destruct (Real.leb (px - r) (margin e)) eqn:X1; cbn [orb].
  - destruct (Real.leb (py - r) (margin e)) eqn:Y1; cbn [orb].
    + intros E. injection E as <- _. cbn [x y]. lra.
    + apply leb_false in Y1.
      destruct (Real.leb (boardHeight e - margin e) (py + r)) eqn:Y2;
        intros E; injection E as <- _; cbn [x y];
        [|apply leb_false in Y2]; lra.
  - apply leb_false in X1.
    destruct (Real.leb (boardWidth e - margin e) (px + r)) eqn:X2;
      [|apply leb_false in X2];
      (destruct (Real.leb (py - r) (margin e)) eqn:Y1; cbn [orb];
       [ intros E; injection E as <- _; cbn [x y]; lra
       | apply leb_false in Y1;
         destruct (Real.leb (boardHeight e - margin e) (py + r)) eqn:Y2;
         intros E; injection E as <- _; cbn [x y];
         [|apply leb_false in Y2]; lra ]).
Qed.

Lemma simulateLoop_length {N : Type} `{Num N} (e : PhysicsEngine N) (r dt : N)
    (steps : nat) :
  forall pos vel, (List.length (simulateLoop e r dt steps pos vel) <= steps)%nat.
Proof.
  induction steps as [|k IH]; intros pos vel; cbn [simulateLoop List.length]; [lia|].
  destruct (simulateIteration e r dt pos vel) as [[pos' vel']|]; cbn [List.length]; [|lia].
  destruct (_ && _); cbn [List.length]; [lia|]. specialize (IH pos' vel'). lia.
Qed.

Lemma simulateLoop_inside (e : PhysicsEngine R) (r dt : R) (inside : Point R -> Prop) :
  (forall pos vel pos' vel',
      simulateIteration e r dt pos vel = Some (pos', vel') -> inside pos') ->
  forall steps pos vel, inside pos -> Forall inside (simulateLoop e r dt steps pos vel).
Proof.
  intros Hit. induction steps as [|k IH]; intros pos vel Hp; cbn [simulateLoop];
    [constructor|].
  constructor; [exact Hp|].
  destruct (simulateIteration e r dt pos vel) as [[pos' vel']|] eqn:E; [|constructor].
  destruct (_ && _); [constructor|]. apply IH. eapply Hit. exact E.
Qed.

(** X21: on a board at least twice margin plus radius wide and high,
    [simulateTrajectory] returns at most [steps] samples, the first of which
    is the start point as given, and every later sample has its centre at
    least margin plus radius away from each edge. *)
Theorem simulateTrajectory_samples
    (e : PhysicsEngine R) (startPos : Point R) (vel : Vector R) (r dt : R)
    (steps : nat) :
  (2 * (margin e + r) <= boardWidth e)%R ->
  (2 * (margin e + r) <= boardHeight e)%R ->
  let path := simulateTrajectory e startPos vel r steps dt in
  (List.length path <= steps)%nat
  /\ (steps <> 0%nat -> hd_error path = Some startPos)
  /\ Forall (fun p => (margin e + r <= x p <= boardWidth e - margin e - r)%R
                      /\ (margin e + r <= y p <= boardHeight e - margin e - r)%R)
            (tl path).
Proof.
  intros Hw Hh path. subst path. unfold simulateTrajectory. repeat split.
  - apply simulateLoop_length.
  - destruct steps; [congruence | reflexivity].
  - destruct steps as [|k]; cbn [simulateLoop tl]; [constructor|].
    destruct (simulateIteration e r dt startPos vel) as [[pos' vel']|] eqn:E;
      [|constructor].
    destruct (_ && _); [constructor|].
    apply simulateLoop_inside.
    + intros p v p' v' Ei. eapply simulateIteration_inside; eassumption.
    + eapply simulateIteration_inside; eassumption.
Qed.

Lemma simulateTrajectory_samples_witness :
  let e := Scenario.board600 (N := R) in
  let path := simulateTrajectory e (position Scenario.moving) (velocity Scenario.moving)
                                 (radius Scenario.moving) 100 Scenario.tick in
  (List.length path <= 100)%nat
  /\ (100%nat <> 0%nat -> hd_error path = Some (position Scenario.moving))
  /\ Forall (fun p => (margin e + radius Scenario.moving <= x p
                       <= boardWidth e - margin e - radius Scenario.moving)%R
                      /\ (margin e + radius Scenario.moving <= y p
                          <= boardHeight e - margin e - radius Scenario.moving)%R)
            (tl path).
Proof.
  apply (@simulateTrajectory_samples Scenario.board600 (position Scenario.moving)
           (velocity Scenario.moving) (radius Scenario.moving) Scenario.tick 100).
  - cbn. real_ops. lra.
  - cbn. real_ops. lra.
Defined.

Lemma isPathClear_start_and_exclusions_witness :
  isPathClear 1 Scenario2.lone (mkPoint 300%R 300%R) (mkPoint 400%R 300%R) [] 2%R
  = Some false.
Proof.
  destruct (@isPathClear_start_and_exclusions Scenario2.lone (mkPoint 300%R 300%R)
              (mkPoint 400%R 300%R) [] 2%R) as [H _].
  - intros E. injection E. lra.
  - apply (H Scenario.moving).
    + left. reflexivity.
    + reflexivity.
    + unfold distance. cbn. real_ops.
      replace ((300 * / 1 - 300) * (300 * / 1 - 300)
               + (300 * / 1 - 300) * (300 * / 1 - 300))%R with 0%R by lra.
      rewrite sqrt_0. lra.
Defined.

(* ================================================================= *)
(** ** Further properties of the planner *)

Lemma calculateRequiredPower_range (d1 d2 : R) :
  (20 <= CarromAI.calculateRequiredPower d1 d2 <= 100)%R.
Proof.
  unfold CarromAI.calculateRequiredPower. real_ops.
  set (v := (d1 * (3 * / 10) + d2 * (1 * / 10))%R).
  pose proof (Rmin_l (100 * / 1) (Rmax (20 * / 1) v)).
  pose proof (Rmax_l (20 * / 1) v).
  split; [apply Rmin_glb; lra | lra].
Qed.

(** X22: the velocity the planner gives the striker has half the shot's
    power as its magnitude, whatever the angle, so with the power of
    [calculateRequiredPower] its speed is between 10 and 50. *)
Theorem striker_speed_is_half_the_power (power a d1 d2 : R) :
  let speed (v : Vector R) := R_sqrt.sqrt (x v * x v + y v * y v) in
  ((0 <= power)%R -> speed (CarromAI.powerToVelocity power a) = (power / 2)%R)
  /\ (10 <= speed (CarromAI.powerToVelocity (CarromAI.calculateRequiredPower d1 d2) a)
      <= 50)%R.
Proof.
  intros speed.
  assert (G : forall p, (0 <= p)%R ->
                        speed (CarromAI.powerToVelocity p a) = (p / 2)%R).
  { intros p Hp. subst speed. cbv beta. unfold CarromAI.powerToVelocity.
    cbv zeta. cbn [x y]. real_ops.
    replace (Rtrigo_def.cos a * (p * (5 * / 10)) * (Rtrigo_def.cos a * (p * (5 * / 10)))
             + Rtrigo_def.sin a * (p * (5 * / 10)) * (Rtrigo_def.sin a * (p * (5 * / 10))))%R
      with ((p / 2) * (p / 2) * ((Rtrigo_def.sin a)² + (Rtrigo_def.cos a)²))%R
      by (unfold Rsqr; field).
    rewrite sin2_cos2, Rmult_1_r. apply sqrt_square. lra. }
  split; [apply G|].
  pose proof (calculateRequiredPower_range d1 d2) as Hr.
  rewrite G by lra. lra.
Qed.

(** X23: [rankShots] only reorders and cuts: it returns the first ten of a
    rearrangement of the candidates, so ten of them when there are more than
    ten and all of them otherwise, none twice unless it was there twice. *)
Theorem rankShots_cuts_a_rearrangement {N : Type} `{Num N}
    (shots : list (ShotOption.t N)) (gs : GameState.t N) :
  List.length (CarromAI.rankShots shots gs) = Nat.min 10 (List.length shots)
  /\ exists rest, Permutation (CarromAI.rankShots shots gs ++ rest) shots.
Proof.
  unfold CarromAI.rankShots.
  pose proof (array_sort_perm (CarromAI.compareShots gs) shots) as HP.
  split.
  - rewrite length_firstn. now rewrite (Permutation_length HP).
  - exists (skipn 10 (array_sort (CarromAI.compareShots gs) shots)).
    now rewrite firstn_skipn.
Qed.

Section WellAimed.
Variable ai : CarromAI.t R.

Lemma strikerLoop_In (fuel : nat) :
    forall (x0 limit startY : R) (area : list (Point R)) (p : Point R),
      CarromAI.strikerLoop fuel x0 limit startY = Some area -> In p area ->
      y p = startY /\ (x0 <= x p <= limit)%R.
Proof.
    induction fuel as [|k IH]; intros x0 limit startY area p E Hp; [discriminate|].
    cbn [CarromAI.strikerLoop] in E.
    destruct (x0 <=? limit)%num eqn:El.
    - bind_inv E. injection E as <-. apply leb_true in El.
      destruct Hp as [<-|Hp]; [cbn [x y]; split; [reflexivity | lra]|].
      match goal with
      | H : CarromAI.strikerLoop k _ _ _ = Some _ |- _ =>
          destruct (IH _ _ _ _ _ H Hp) as [Hy Hx]
      end.
      split; [exact Hy|]. revert Hx. real_ops. lra.
    - injection E as <-. contradiction.
Qed.

Lemma getStrikerStartArea_In (fuel : nat) (area : list (Point R)) (p : Point R) :
    CarromAI.getStrikerStartArea ai fuel = Some area -> In p area ->
    y p = (CarromAI.boardHeight ai - 40)%R
    /\ (CarromAI.boardWidth ai / 2 - 60 <= x p <= CarromAI.boardWidth ai / 2 + 60)%R.
Proof.
    unfold CarromAI.getStrikerStartArea. cbv zeta. intros E Hp.
    destruct (strikerLoop_In _ _ _ _ _ E Hp) as [Hy Hx].
    revert Hy Hx. real_ops. intros Hy Hx. split; [rewrite Hy; lra | lra].
Qed.

Lemma direct_aimed fuel coin pocket area shots s :
    CarromAI.calculateDirectShots ai fuel coin pocket area = Some shots ->
    In s shots ->
    aimedFrom area coin pocket s
    /\ ShotOption.type s = ShotOption.direct
    /\ ShotOption.bankPoints s = None /\ ShotOption.intermediateCoins s = None.
Proof.
    unfold CarromAI.calculateDirectShots. intros E Hs.
    eapply flatMapM_In in Hs; [|exact E].
    destruct Hs as (strikerPos & ls & Harea & Ef & Hin).
    cbv zeta in Ef. bind_inv Ef. bind_inv Ef.
    match type of Ef with (if ?c then _ else _) = _ => destruct c end.
    - bind_inv Ef. injection Ef as <-. destruct Hin as [<-|[]].
      unfold aimedFrom.
      cbn [ShotOption.type ShotOption.targetCoin ShotOption.targetPocket
           ShotOption.strikerPosition ShotOption.power ShotOption.trajectory
           ShotOption.bankPoints ShotOption.intermediateCoins].
      repeat split; try assumption; apply calculateRequiredPower_range.
    - injection Ef as <-. contradiction.
Qed.

Lemma bank_aimed fuel coin pocket area shots s :
    CarromAI.calculateBankShots ai fuel coin pocket area = Some shots ->
    In s shots ->
    aimedFrom area coin pocket s
    /\ ShotOption.type s = ShotOption.bank
    /\ (exists p, ShotOption.bankPoints s = Some [p])
    /\ ShotOption.intermediateCoins s = None.
Proof.
    unfold CarromAI.calculateBankShots. cbv zeta. intros E Hs.
    eapply flatMapM_In in Hs; [|exact E].
    destruct Hs as (strikerPos & ls & Harea & Ef & Hin).
    eapply flatMapM_In in Hin; [|exact Ef]. destruct Hin as (wall & ls' & _ & Ew & Hin').
    destruct (CarromAI.calculateBankPoint ai (position coin)
                (CarromPocket.position pocket) wall) as [bankPoint|].
    - bind_inv Ew. injection Ew as <-. destruct Hin' as [<-|[]].
      unfold aimedFrom.
      cbn [ShotOption.type ShotOption.targetCoin ShotOption.targetPocket
           ShotOption.strikerPosition ShotOption.power ShotOption.trajectory
           ShotOption.bankPoints ShotOption.intermediateCoins].
      repeat split; try assumption; try apply calculateRequiredPower_range.
      eexists. reflexivity.
    - injection Ew as <-. contradiction.
Qed.

Lemma carom_aimed fuel coin pocket area gs shots s :
    CarromAI.calculateCaromShots ai fuel coin pocket area gs = Some shots ->
    In s shots ->
    aimedFrom area coin pocket s
    /\ ShotOption.type s = ShotOption.carom
    /\ ShotOption.bankPoints s = None
    /\ exists k, ShotOption.intermediateCoins s = Some [k] /\ k <> id coin.
Proof.
    unfold CarromAI.calculateCaromShots. cbv zeta. intros E Hs.
    eapply flatMapM_In in Hs; [|exact E].
    destruct Hs as (strikerPos & ls & Harea & Ef & Hin).
    eapply flatMapM_In in Hin; [|exact Ef].
    destruct Hin as (coin' & ls' & Hcoin' & Ew & Hin').
    apply filter_In in Hcoin' as [_ Hf]. apply andb_prop in Hf as [Hne _].
    apply negb_true_iff in Hne. apply String.eqb_neq in Hne.
    bind_inv Ew. bind_inv Ew.
    match type of Ew with (if ?c then _ else _) = _ => destruct c end.
    - bind_inv Ew. injection Ew as <-. destruct Hin' as [<-|[]].
      unfold aimedFrom.
      cbn [ShotOption.type ShotOption.targetCoin ShotOption.targetPocket
           ShotOption.strikerPosition ShotOption.power ShotOption.trajectory
           ShotOption.bankPoints ShotOption.intermediateCoins].
      repeat split; try assumption; try apply calculateRequiredPower_range.
      eexists. split; [reflexivity | exact Hne].
    - injection Ew as <-. contradiction.
Qed.

Lemma analyzeShot_wellAimed (fuel : nat) (gs : GameState.t R)
      (shots : list (ShotOption.t R)) :
    CarromAI.analyzeShot ai fuel gs = Some shots -> Forall (wellAimed ai gs) shots.
Proof.
    unfold CarromAI.analyzeShot. intros E. apply Forall_forall. intros s Hs.
    destruct (CarromAI.enumerateShots ai fuel gs) as [all|] eqn:Eall; cbn [bind] in E;
      [|discriminate].
    injection E as <-. apply rankShots_In in Hs.
    unfold CarromAI.enumerateShots in Eall. cbv zeta in Eall.
    destruct (CarromAI.getStrikerStartArea ai fuel) as [area|] eqn:Earea;
      cbn [bind] in Eall; [|discriminate].
    eapply flatMapM_In in Hs; [|exact Eall].
    destruct Hs as (coin & ls & Hcoin & Ecoin & Hin).
    eapply flatMapM_In in Hin; [|exact Ecoin].
    destruct Hin as (pocket & ls' & Hpocket & Epocket & Hin').
    destruct (CarromAI.calculateDirectShots ai fuel coin pocket area) as [ds|] eqn:Ed;
      cbn [bind] in Epocket; [|discriminate].
    destruct (CarromAI.calculateBankShots ai fuel coin pocket area) as [bs|] eqn:Eb;
      cbn [bind] in Epocket; [|discriminate].
    destruct (CarromAI.calculateCaromShots ai fuel coin pocket area gs) as [cs|] eqn:Ec;
      cbn [bind] in Epocket; [|discriminate].
    injection Epocket as <-.
    assert (G : aimedFrom area coin pocket s ->
                match ShotOption.type s with
                | ShotOption.direct =>
                    ShotOption.bankPoints s = None /\ ShotOption.intermediateCoins s = None
                | ShotOption.bank =>
                    (exists p, ShotOption.bankPoints s = Some [p])
                    /\ ShotOption.intermediateCoins s = None
                | ShotOption.carom =>
                    ShotOption.bankPoints s = None
                    /\ exists k, ShotOption.intermediateCoins s = Some [k]
                                 /\ k <> ShotOption.targetCoin s
                | ShotOption.combination => False
                end ->
                wellAimed ai gs s).
    { intros (Ht & Hp & Hsp & Hpow & Htr) Hk. unfold wellAimed.
      destruct (getStrikerStartArea_In _ _ Earea Hsp) as [Hy Hx].
      repeat split; try assumption; try lra.
      - exists coin. split; assumption.
      - rewrite Hp. exact Hpocket. }
    apply in_app_or in Hin'.
    destruct Hin' as [H|H]; [|apply in_app_or in H; destruct H as [H|H]].
    - destruct (direct_aimed _ _ _ _ _ Ed H) as (Ha & Et & Hb & Hi).
      rewrite Et in G. apply G; auto.
    - destruct (bank_aimed _ _ _ _ _ Eb H) as (Ha & Et & Hb & Hi).
      rewrite Et in G. apply G; auto.
    - destruct (carom_aimed _ _ _ _ _ _ Ec H) as (Ha & Et & Hb & k & Hi & Hk).
      rewrite Et in G. apply G; [exact Ha|]. split; [exact Hb|].
      exists k. split; [exact Hi|]. destruct Ha as (Ht & _). rewrite Ht. exact Hk.
Qed.

Lemma analyzeShot_total (gs : GameState.t R) :
    settlesIn (fun fuel => CarromAI.analyzeShot ai fuel gs) (fun _ => True).
Proof.
    unfold CarromAI.analyzeShot, CarromAI.enumerateShots. cbv zeta.
    eapply settlesIn_bind with (P := fun _ => True).
    - eapply settlesIn_bind; [apply getStrikerStartArea_settles | intros area Harea].
      eapply settlesIn_weaken; [|trivial].
      apply settlesIn_flatMapM with (Q := fun _ _ => True).
      intros coin _.
      eapply settlesIn_weaken; [|trivial].
      apply settlesIn_flatMapM with (Q := fun _ _ => True).
      intros pocket _.
      eapply settlesIn_bind; [apply calculateDirectShots_settles | intros ds _].
      eapply settlesIn_bind; [now apply calculateBankShots_settles | intros bs _].
      eapply settlesIn_bind; [apply calculateCaromShots_settles | intros cs _].
      now apply settlesIn_ret.
    - intros all _. now apply settlesIn_ret.
Qed.

End WellAimed.

(** X24: over the real numbers [analyzeShot] returns for every snapshot, and
    every candidate it returns is playable: it targets a coin of the current
    player that is not pocketed, into one of the planner's pockets, from a
    striker position on the base line (y = boardHeight - 40, x within 60 of
    the middle), with a power between 20 and 100 and a trajectory that starts
    at the striker position; a bank candidate names one bank point, a carom
    candidate one intermediate coin, which is never the target itself. *)
Theorem analyzeShot_candidates_are_playable (ai : CarromAI.t R) (gs : GameState.t R) :
  settlesIn (fun fuel => CarromAI.analyzeShot ai fuel gs) (Forall (wellAimed ai gs)).
Proof.
  destruct (analyzeShot_total ai gs) as (shots & [n Hn] & _).
  exists shots. split; [exists n; exact Hn|].
  eapply analyzeShot_wellAimed. apply (Hn n). lia.
Qed.

Lemma strikerLoop_run (limit startY : R) (n : nat) :
  forall x0 : R,
    (limit < x0 + 10 * INR n)%R ->
    (n <> 0%nat -> x0 + 10 * (INR n - 1) <= limit)%R ->
    settles (fun fuel => CarromAI.strikerLoop fuel x0 limit startY)
            (map (fun i => mkPoint (x0 + 10 * INR i)%R startY) (seq 0 n)).
Proof.
  induction n as [|k IH]; intros x0 Hhi Hlo.
  - simpl INR in Hhi. exists 1%nat. intros [|fuel] Hf; [lia|].
    cbn [CarromAI.strikerLoop]. real_ops.
    assert (E : Real.leb x0 limit = false) by (apply leb_false; lra).
    rewrite E. reflexivity.
  - rewrite S_INR in Hhi, Hlo. specialize (Hlo (Nat.neq_succ_0 k)).
    pose proof (pos_INR k) as Hk.
    destruct (IH (x0 + lit 10)%num) as [m Hm].
    + real_ops. lra.
    + intros Hne. real_ops. lra.
    + exists (S m). intros [|fuel] Hf; [lia|].
      cbn [CarromAI.strikerLoop]. real_ops.
      assert (E : Real.leb x0 limit = true) by (apply leb_true; lra).
      rewrite E. revert Hm. real_ops. intros Hm. rewrite Hm by lia. cbn [bind].
      f_equal. cbn [seq map]. f_equal.
      * f_equal. simpl INR. lra.
      * rewrite <- seq_shift, map_map. apply map_ext. intros i.
        f_equal. rewrite S_INR. lra.
Qed.

(** X25: over the real numbers the planner tries exactly thirteen striker
    positions, whatever the board: on the line y = boardHeight - 40, ten apart,
    from 60 left of the middle to 60 right of it. *)
Theorem getStrikerStartArea_thirteen_positions (ai : CarromAI.t R) :
  settles (fun fuel => CarromAI.getStrikerStartArea ai fuel)
          (map (fun i => mkPoint (CarromAI.boardWidth ai / 2 - 60 + 10 * INR i)%R
                                 (CarromAI.boardHeight ai - 40)%R)
               (seq 0 13)).
Proof.
  unfold CarromAI.getStrikerStartArea. cbv zeta.
  pose proof (@strikerLoop_run
                (CarromAI.boardWidth ai / lit 2 + lit 60)%num
                (CarromAI.boardHeight ai - lit 40)%num 13
                (CarromAI.boardWidth ai / lit 2 - lit 60)%num) as Hrun.
  replace (map _ (seq 0 13))
    with (map (fun i => mkPoint ((CarromAI.boardWidth ai / lit 2 - lit 60)%num
                                 + 10 * INR i)%R
                                (CarromAI.boardHeight ai - lit 40)%num) (seq 0 13)).
  - apply Hrun.
    + simpl INR. real_ops. lra.
    + intros _. simpl INR. real_ops. lra.
  - apply map_ext. intros i. real_ops. f_equal; field.
Qed.

(* ================================================================= *)
(** ** The game manager *)

Section GameMoves.
Context {N : Type} `{Num N}.
Import Game.

Lemma map_get_in_keys {V : Type} (k : string) (v : V) (m : list (string * V)) :
  map_get k m = Some v -> existsb (String.eqb k) (map fst m) = true.
Proof.
  induction m as [|[k' v'] m IH]; cbn [map_get map fst existsb]; [discriminate|].
  destruct (String.eqb k k'); [reflexivity | exact IH].
Qed.

Lemma pocketCoin_besideCoins (s : GameState N) (k : string) :
  besideCoins (pocketCoin s k) = besideCoins s.
Proof.
  unfold pocketCoin. destruct (map_get k (coins s)) as [coin|] eqn:E; [|reflexivity].
  destruct (negb (String.eqb k "striker")); [|reflexivity].
  cbv zeta.
  assert (K : map fst (map_set k
                (CarromCoin.mk (CarromCoin.id coin) (CarromCoin.position coin)
                   (CarromCoin.velocity coin) (CarromCoin.radius coin)
                   (CarromCoin.mass coin) (CarromCoin.friction coin)
                   (CarromCoin.restitution coin) (CarromCoin.isStatic coin)
                   (CarromCoin.type coin) (CarromCoin.owner coin) true
                   (Some (currentPlayer s))) (coins s)) = map fst (coins s)).
  { rewrite map_set_keys. now rewrite (map_get_in_keys _ _ E). }
  repeat match goal with |- context [if ?c then _ else _] => destruct c end;
    unfold besideCoins, set_scores, set_queen, set_coins;
    cbn [phase currentPlayer turnNumber striker rules moves canShoot continueTurn
         shotInProgress foulsPlayer1 foulsPlayer2 aiAssistanceLevel gameMode scores
         player1Score player2Score coins];
    rewrite K; reflexivity.
Qed.

Lemma fold_pocketCoin_besideCoins (l : list string) :
  forall s : GameState N, besideCoins (fold_left pocketCoin l s) = besideCoins s.
Proof.
  induction l as [|k l IH]; intros s; [reflexivity|].
  cbn [fold_left]. rewrite IH. apply pocketCoin_besideCoins.
Qed.

Lemma checkGameEndConditions_frame (s : GameState N) :
  let s' := checkGameEndConditions s in
  (currentPlayer s', turnNumber s', coins s', striker s', queenCaptured s',
   queenCapturedBy s', scores s', rules s', moves s', canShoot s', continueTurn s',
   shotInProgress s', foulsPlayer1 s', foulsPlayer2 s', aiAssistanceLevel s', gameMode s')
  = (currentPlayer s, turnNumber s, coins s, striker s, queenCaptured s,
     queenCapturedBy s, scores s, rules s, moves s, canShoot s, continueTurn s,
     shotInProgress s, foulsPlayer1 s, foulsPlayer2 s, aiAssistanceLevel s, gameMode s).
Proof.
  cbv zeta. unfold checkGameEndConditions.
  repeat match goal with |- context [if ?c then _ else _] => destruct c end;
    reflexivity.
Qed.

End GameMoves.

(** Evaluate the setters and projections of the game state, call by value. *)
Ltac game_eval :=
  cbv beta iota zeta delta
    [Game.endTurn Game.switchPlayer Game.set_phase Game.set_turnNumber Game.set_moves
     Game.set_fouls Game.set_scores Game.set_coins Game.set_queen Game.set_assistance
     Game.addMoveScore Game.recordFoul
     Game.phase Game.currentPlayer Game.turnNumber Game.coins Game.striker
     Game.queenCaptured Game.queenCapturedBy Game.scores Game.rules Game.moves
     Game.canShoot Game.continueTurn Game.shotInProgress Game.foulsPlayer1
     Game.foulsPlayer2 Game.aiAssistanceLevel Game.gameMode
     Game.player1Score Game.player2Score Game.player1Coins Game.player2Coins
     Game.player Game.coinsPocketed Game.wasFoul Game.wasQueenPocketed Game.score
     Game.GamePhase_eqb Game.isGameFinished opponentOf besideCoins fst snd negb andb orb]
    in *.

(** Case analysis on the innermost tests first. *)
Ltac split_ifs :=
  repeat match goal with
         | |- context [if ?c then _ else _] =>
             lazymatch c with
             | context [if _ then _ else _] => fail
             | _ => destruct c
             end
         end.

(** Run [executeMove] block by block on a state given by its fields: one case
    for each player and for the foul test; the state after the loop over the
    pocketed coins is replaced by its fields, those the loop leaves untouched
    being the fields of the state before. *)
Ltac run_move s hit pocketed :=
  destruct s as [ph cp tn cs st qc qb [p1s p2s p1c p2c] ru ms sh ct sp f1 f2 asl gm];
  unfold Game.executeMove; cbv zeta;
  cbn [fst snd Game.player Game.coinsPocketed Game.wasFoul Game.wasQueenPocketed
       Game.score] in *;
  unfold Game.updateGameStateAfterMove; cbv zeta;
  cbn [fst snd Game.player Game.coinsPocketed Game.wasFoul Game.wasQueenPocketed
       Game.score] in *;
  match goal with
  | |- context [Game.checkForFouls ?s0 hit pocketed] =>
      let foul := fresh "foul" in
      let Ef := fresh "Ef" in
      destruct (Game.checkForFouls s0 hit pocketed) eqn:Ef
  end;
  match goal with
  | |- context [Game.calculateMoveScore ?s0 ?mv] =>
      let pts := fresh "pts" in
      set (pts := Game.calculateMoveScore s0 mv) in *
  end;
  match goal with
  | |- context [fold_left Game.pocketCoin pocketed ?s0] =>
      let HB := fresh "HB" in
      let s1 := fresh "s1" in
      pose proof (fold_pocketCoin_besideCoins pocketed s0) as HB;
      set (s1 := fold_left Game.pocketCoin pocketed s0) in *;
      clearbody s1;
      destruct s1 as [ph1 cp1 tn1 cs1 st1 qc1 qb1 [a1 b1 c1 d1] ru1 ms1 sh1 ct1 sp1 f11 f21
                        as1 gm1];
      destruct cp; game_eval;
      injection HB as -> -> -> -> -> -> -> -> -> -> -> -> -> -> -> HK
  end;
  unfold Game.checkGameEndConditions; game_eval.

Section GameTheorems.
Context {N : Type} `{Num N}.
Import Game.

(** X26: [executeMove] always records the move: the turn number goes up by
    one, the move is appended to the history with the mover as its player,
    its score is added to the mover's score and to nobody else's, and the set
    of coins, the rules, the striker and the mode stay as they are.  Once the
    turn number has reached twice [maxTurnsPerPlayer] the phase is [finished]
    after every move and the player no longer changes. *)
Theorem executeMove_bookkeeping (s : GameState N) (strikerPos : Point N) (pow a : N)
    (hit pocketed : list string) :
  let s' := fst (executeMove s strikerPos pow a hit pocketed) in
  let move := snd (executeMove s strikerPos pow a hit pocketed) in
  turnNumber s' = (turnNumber s + 1)%Z
  /\ moves s' = moves s ++ [move]
  /\ player move = currentPlayer s
  /\ (player1Score (scores s'), player2Score (scores s'))
     = match currentPlayer s with
       | player1 => ((player1Score (scores s) + score move)%Z, player2Score (scores s))
       | player2 => (player1Score (scores s), (player2Score (scores s) + score move)%Z)
       end
  /\ map fst (coins s') = map fst (coins s)
  /\ (rules s', striker s', gameMode s') = (rules s, striker s, gameMode s)
  /\ ((maxTurnsPerPlayer (rules s) * 2 <= turnNumber s)%Z ->
      phase s' = finished /\ currentPlayer s' = currentPlayer s).
Proof.
  cbv zeta. run_move s hit pocketed.
  all: repeat split.
  all: try match goal with
         | Hturn : (_ <= _)%Z |- _ => rewrite <- Z.geb_le in Hturn; rewrite Hturn
         end.
  all: split_ifs; game_eval; split_ifs; try reflexivity; try assumption.
Qed.

End GameTheorems.

Section GameTurn.
Context {N : Type} `{Num N}.
Import Game.

Lemma checkForFouls_striker (s : GameState N) (hit pocketed : list string) :
  checkForFouls s hit pocketed = false -> includes pocketed "striker" = false.
Proof.
  unfold checkForFouls. destruct hit; [discriminate|].
  destruct (includes pocketed "striker"); [discriminate | reflexivity].
Qed.

(** X27: who plays next.  A shot that hits no coin, or that pockets the
    striker, is a foul.  After [executeMove] the mover keeps the turn exactly
    when the game is finished or the move was no foul and pocketed something;
    otherwise the other player is to shoot.  The mover's count of consecutive
    fouls goes up by one on a foul and back to zero otherwise. *)
Theorem executeMove_turn_rule (s : GameState N) (strikerPos : Point N) (pow a : N)
    (hit pocketed : list string) :
  let s' := fst (executeMove s strikerPos pow a hit pocketed) in
  let move := snd (executeMove s strikerPos pow a hit pocketed) in
  (hit = [] \/ includes pocketed "striker" = true -> wasFoul move = true)
  /\ currentPlayer s'
     = (if GamePhase_eqb (phase s') finished
           || (negb (wasFoul move) && negb (Nat.eqb (List.length pocketed) 0))
        then currentPlayer s else opponentOf (currentPlayer s))
  /\ (foulsPlayer1 s', foulsPlayer2 s')
     = match currentPlayer s with
       | player1 => (if wasFoul move then (foulsPlayer1 s + 1)%Z else 0%Z, foulsPlayer2 s)
       | player2 => (foulsPlayer1 s, if wasFoul move then (foulsPlayer2 s + 1)%Z else 0%Z)
       end.
Proof.
  cbv zeta.
  assert (Hlen : Nat.ltb 0 (List.length pocketed)
                 = negb (Nat.eqb (List.length pocketed) 0)).
  { destruct pocketed; reflexivity. }
  split; [|split].
  - unfold executeMove. cbv zeta. cbn [snd wasFoul]. unfold checkForFouls.
    intros [->|E]; [reflexivity|]. destruct hit; [reflexivity|]. now rewrite E.
  - run_move s hit pocketed.
    all: try (rewrite (checkForFouls_striker _ _ _ Ef)).
    all: rewrite ?Hlen; clear Hlen.
    all: destruct (Nat.eqb (List.length pocketed) 0); destruct ph; game_eval.
    all: split_ifs; game_eval; split_ifs; reflexivity.
  - run_move s hit pocketed.
    all: split_ifs; game_eval; split_ifs; reflexivity.
Qed.

End GameTurn.

Section GameCoins.
Context {N : Type} `{Num N}.
Import Game.

Lemma pocketCoin_currentPlayer (s : GameState N) (k : string) :
  currentPlayer (pocketCoin s k) = currentPlayer s.
Proof.
  pose proof (pocketCoin_besideCoins s k) as HB. unfold besideCoins in HB.
  now injection HB.
Qed.

Lemma pocketCoin_coins (s : GameState N) (k0 : string) :
  coins (pocketCoin s k0)
  = match map_get k0 (coins s) with
    | Some coin =>
        if negb (String.eqb k0 "striker") then
          map_set k0
            (CarromCoin.mk (CarromCoin.id coin) (CarromCoin.position coin)
               (CarromCoin.velocity coin) (CarromCoin.radius coin) (CarromCoin.mass coin)
               (CarromCoin.friction coin) (CarromCoin.restitution coin)
               (CarromCoin.isStatic coin) (CarromCoin.type coin) (CarromCoin.owner coin)
               true (Some (currentPlayer s)))
            (coins s)
        else coins s
    | None => coins s
    end.
Proof.
  unfold pocketCoin. destruct (map_get k0 (coins s)) as [coin|]; [|reflexivity].
  destruct (negb (String.eqb k0 "striker")); [|reflexivity]. cbv zeta.
  repeat match goal with |- context [if ?c then _ else _] => destruct c end;
    reflexivity.
Qed.

Lemma fold_pocketCoin_get (k : string) (l : list string) :
  forall (s : GameState N) (c : CarromCoin.t N),
    map_get k (coins s) = Some c ->
    exists c',
      map_get k (coins (fold_left pocketCoin l s)) = Some c'
      /\ coinBase c' = coinBase c
      /\ (CarromCoin.isPocketed c', CarromCoin.pocketedBy c')
         = (if includes l k && negb (String.eqb k "striker")
            then (true, Some (currentPlayer s))
            else (CarromCoin.isPocketed c, CarromCoin.pocketedBy c)).
Proof.
  induction l as [|k0 l IH]; intros s c Ek.
  - exists c. cbn [fold_left includes existsb andb]. auto.
  - cbn [fold_left]. unfold includes. cbn [existsb]. fold (includes l k).
    destruct (String.eqb_spec k k0) as [<-|Hne].
    + destruct (negb (String.eqb k "striker")) eqn:Es.
      * set (c1 := CarromCoin.mk (CarromCoin.id c) (CarromCoin.position c)
               (CarromCoin.velocity c) (CarromCoin.radius c) (CarromCoin.mass c)
               (CarromCoin.friction c) (CarromCoin.restitution c)
               (CarromCoin.isStatic c) (CarromCoin.type c) (CarromCoin.owner c)
               true (Some (currentPlayer s))).
        assert (E1 : map_get k (coins (pocketCoin s k)) = Some c1).
        { rewrite pocketCoin_coins, Ek, Es. apply map_get_set_same. }
        destruct (IH _ _ E1) as (c' & Ec' & Hb & Hp).
        exists c'. split; [exact Ec'|]. split; [rewrite Hb; reflexivity|].
        rewrite Hp, pocketCoin_currentPlayer. cbn [orb andb].
        destruct (includes l k); reflexivity.
      * assert (E1 : map_get k (coins (pocketCoin s k)) = Some c).
        { rewrite pocketCoin_coins, Ek, Es. exact Ek. }
        destruct (IH _ _ E1) as (c' & Ec' & Hb & Hp).
        exists c'. split; [exact Ec'|]. split; [exact Hb|].
        rewrite Hp, !andb_false_r. reflexivity.
    + assert (E1 : map_get k (coins (pocketCoin s k0)) = Some c).
      { rewrite pocketCoin_coins.
        destruct (map_get k0 (coins s)); [|exact Ek].
        destruct (negb (String.eqb k0 "striker")); [|exact Ek].
        rewrite map_get_set_other by exact Hne. exact Ek. }
      destruct (IH _ _ E1) as (c' & Ec' & Hb & Hp).
      exists c'. split; [exact Ec'|]. split; [exact Hb|].
      rewrite Hp, pocketCoin_currentPlayer. reflexivity.
Qed.

Lemma checkGameEndConditions_coins (s : GameState N) :
  coins (checkGameEndConditions s) = coins s.
Proof.
  unfold checkGameEndConditions.
  repeat match goal with |- context [if ?c then _ else _] => destruct c end;
    reflexivity.
Qed.

Lemma recordFoul_coins (s : GameState N) (move : GameMove N) :
  coins (recordFoul s move) = coins s.
Proof.
  unfold recordFoul. destruct (wasFoul move), (currentPlayer s); reflexivity.
Qed.

Lemma endTurn_coins (s : GameState N) : coins (endTurn s) = coins s.
Proof.
  unfold endTurn.
  destruct (negb (continueTurn s) && negb (GamePhase_eqb (phase s) finished));
    reflexivity.
Qed.

Lemma executeMove_coins (s : GameState N) (strikerPos : Point N) (pow a : N)
    (hit pocketed : list string) :
  exists s0 : GameState N,
    coins s0 = coins s /\ currentPlayer s0 = currentPlayer s
    /\ coins (fst (executeMove s strikerPos pow a hit pocketed))
       = coins (fold_left pocketCoin pocketed s0).
Proof.
  unfold executeMove, updateGameStateAfterMove. cbv zeta.
  cbn [fst coinsPocketed].
  match goal with
  | |- context [fold_left pocketCoin pocketed ?s0] =>
      exists s0; set (s1 := fold_left pocketCoin pocketed s0)
  end.
  split; [|split].
  - unfold addMoveScore. destruct (currentPlayer s); reflexivity.
  - unfold addMoveScore. destruct (currentPlayer s) eqn:E; exact E.
  - clearbody s1. unfold set_moves, set_turnNumber. cbn [coins].
    now rewrite endTurn_coins, checkGameEndConditions_coins, recordFoul_coins.
Qed.

(** X28: [executeMove] marks as pocketed, by the mover, every coin named in
    [coinsPocketed] (the id [striker] apart) and changes no other coin; of a
    coin it changes nothing but [isPocketed] and [pocketedBy].  So a pocketed
    coin stays pocketed, and a coin pocketed by the move is not among the
    targetable coins of either player afterwards. *)
Theorem executeMove_pockets_the_listed_coins
    (s : GameState N) (strikerPos : Point N) (pow a : N) (hit pocketed : list string)
    (k : string) (coin : CarromCoin.t N) :
  map_get k (coins s) = Some coin ->
  let s' := fst (executeMove s strikerPos pow a hit pocketed) in
  exists coin',
    map_get k (coins s') = Some coin'
    /\ coinBase coin' = coinBase coin
    /\ (CarromCoin.isPocketed coin', CarromCoin.pocketedBy coin')
       = (if includes pocketed k && negb (String.eqb k "striker")
          then (true, Some (currentPlayer s))
          else (CarromCoin.isPocketed coin, CarromCoin.pocketedBy coin))
    /\ (CarromCoin.isPocketed coin = true -> CarromCoin.isPocketed coin' = true)
    /\ (CarromCoin.isPocketed coin' = true ->
        forall p, ~ In coin' (getTargetableCoins s' p)).
Proof.
  intros Ek s'.
  destruct (executeMove_coins s strikerPos pow a hit pocketed) as (s0 & Ec & Ep & Es').
  rewrite <- Ec in Ek.
  destruct (fold_pocketCoin_get k pocketed _ Ek) as (coin' & Ec' & Hb & Hp).
  exists coin'. subst s'. rewrite Es'. split; [exact Ec'|]. split; [exact Hb|].
  split; [rewrite Hp, Ep; reflexivity|]. split.
  - intros Hpk. destruct (includes pocketed k && negb (String.eqb k "striker"));
      injection Hp as -> _; [reflexivity | exact Hpk].
  - intros Hpk p Hin. unfold getTargetableCoins in Hin.
    apply filter_In in Hin as [_ Hf]. rewrite Hpk in Hf. discriminate.
Qed.

End GameCoins.

Section GameEnd.
Context {N : Type} `{Num N}.
Import Game.

Lemma pocketCoin_white (s : GameState N) (k : string) (coin : CarromCoin.t N) :
  map_get k (coins s) = Some coin ->
  k <> "striker"%string ->
  CarromCoin.type coin = white ->
  CarromCoin.owner coin = Some player1 ->
  (player1Coins (scores (pocketCoin s k)), player2Coins (scores (pocketCoin s k)))
  = ((player1Coins (scores s) - 1)%Z, player2Coins (scores s)).
Proof.
  intros Ek Hk Ety Eow. unfold pocketCoin. rewrite Ek.
  apply String.eqb_neq in Hk. rewrite Hk. cbn [negb]. cbv zeta.
  rewrite Ety, Eow. reflexivity.
Qed.

(** X29: [executeMove] tests neither the phase nor whether a named coin is
    already pocketed.  In a finished game in which player 1 has no coin left,
    a move that names one of player 1's white coins again takes the count to
    -1, and the game is no longer finished: the phase is [endgame] and there
    is no winner. *)
Theorem finished_game_reopens (s : GameState N) (strikerPos : Point N) (pow a : N)
    (hit : list string) (k : string) (coin : CarromCoin.t N) :
  phase s = finished ->
  player1Coins (scores s) = 0%Z ->
  player2Coins (scores s) <> 0%Z ->
  (turnNumber s < maxTurnsPerPlayer (rules s) * 2)%Z ->
  map_get k (coins s) = Some coin ->
  CarromCoin.type coin = white ->
  CarromCoin.owner coin = Some player1 ->
  k <> "striker"%string ->
  let s' := fst (executeMove s strikerPos pow a hit [k]) in
  phase s' = endgame
  /\ player1Coins (scores s') = (-1)%Z
  /\ isGameFinished s' = false
  /\ getWinner s' = None.
Proof.
  intros Hph Hp1 Hp2 Hturn Ek Ety Eow Hk s'.
  assert (G : phase s' = endgame /\ player1Coins (scores s') = (-1)%Z).
  { subst s'. unfold executeMove, updateGameStateAfterMove. cbv zeta.
    cbn [fst coinsPocketed fold_left].
    match goal with
    | |- context [pocketCoin (addMoveScore s ?mv) k] =>
        pose proof (pocketCoin_besideCoins (addMoveScore s mv) k) as HB;
        pose proof (@pocketCoin_white (addMoveScore s mv) k coin) as HC;
        set (s1 := pocketCoin (addMoveScore s mv) k) in *;
        set (move := mv) in *
    end.
    clearbody s1 move.
    destruct s as [ph cp tn cs st qc qb [p1s p2s p1c p2c] ru ms sh ct sp f1 f2 asl gm].
    destruct s1 as [ph1 cp1 tn1 cs1 st1 qc1 qb1 [a1 b1 c1 d1] ru1 ms1 sh1 ct1 sp1 f11 f21
                      as1 gm1].
    cbn [phase scores player1Coins player2Coins turnNumber rules coins]
      in Hph, Hp1, Hp2, Hturn, Ek.
    subst ph p1c.
    assert (Ek0 : map_get k (coins (addMoveScore
                   (mkState finished cp tn cs st qc qb (mkScore p1s p2s 0 p2c) ru ms sh
                            ct sp f1 f2 asl gm) move)) = Some coin)
      by (destruct cp; exact Ek).
    specialize (HC Ek0 Hk Ety Eow). clear Ek0.
    destruct move as [mp msp mpw ma mh mpk mq mf msc].
    destruct cp, mf; game_eval; injection HC as -> ->;
      injection HB as -> -> -> -> -> -> -> -> -> -> -> -> -> _ _ _;
      unfold checkGameEndConditions; game_eval;
      replace (-1 =? 0)%Z with false by reflexivity;
      replace (-1 <=? 3)%Z with true by reflexivity;
      apply Z.eqb_neq in Hp2; rewrite Hp2;
      replace (Z.geb tn (maxTurnsPerPlayer ru * 2)) with false
        by (symmetry; rewrite Z.geb_leb; apply Z.leb_gt; exact Hturn);
      destruct qc1; game_eval; split_ifs; split; reflexivity. }
  destruct G as [Gp Gc]. repeat split; try assumption.
  - unfold isGameFinished. now rewrite Gp.
  - unfold getWinner, isGameFinished. now rewrite Gp.
Qed.

End GameEnd.

Lemma finished_game_reopens_witness :
  let s' := fst (Game.executeMove Scenario3.whites_gone (mkPoint 400%float 550%float)
                   50%float 0%float ["white_0"%string] ["white_0"%string]) in
  Game.phase s' = Game.endgame
  /\ Game.player1Coins (Game.scores s') = (-1)%Z
  /\ Game.isGameFinished s' = false
  /\ Game.getWinner s' = None.
Proof.
  eapply (@finished_game_reopens float Scenario3.whites_gone (mkPoint 400%float 550%float)
            50%float 0%float ["white_0"%string] "white_0"%string).
  - vm_compute. reflexivity.
  - vm_compute. reflexivity.
  - vm_compute. discriminate.
  - vm_compute. reflexivity.
  - vm_compute. reflexivity.
  - reflexivity.
  - reflexivity.
  - discriminate.
Defined.

Lemma executeMove_pockets_the_listed_coins_witness :
  let s := Game.initializeGame (N := float) Game.practice in
  let s' := fst (Game.executeMove s (mkPoint 400%float 550%float) 50%float 0%float
                   ["white_0"%string] ["white_0"%string]) in
  let coin := Game.newCoin "white_0" Game.white (Some Game.player1) 0 in
  exists coin',
    map_get "white_0"%string (Game.coins s') = Some coin'
    /\ coinBase coin' = coinBase coin
    /\ (Game.CarromCoin.isPocketed coin', Game.CarromCoin.pocketedBy coin')
       = (if Game.includes ["white_0"%string] "white_0"
             && negb (String.eqb "white_0" "striker")
          then (true, Some (Game.currentPlayer s))
          else (Game.CarromCoin.isPocketed coin, Game.CarromCoin.pocketedBy coin))
    /\ (Game.CarromCoin.isPocketed coin = true -> Game.CarromCoin.isPocketed coin' = true)
    /\ (Game.CarromCoin.isPocketed coin' = true ->
        forall p, ~ In coin' (Game.getTargetableCoins s' p)).
Proof.
  apply (@executeMove_pockets_the_listed_coins float
           (Game.initializeGame Game.practice) (mkPoint 400%float 550%float)
           50%float 0%float ["white_0"%string] ["white_0"%string] "white_0"%string).
  vm_compute. reflexivity.
Defined.

(** X30: a new game stacks the coins.  [getInitialCoinPosition] looks at the
    index only, so white coin [i] and black coin [i] start at the same point
    with the same radius, in every mode.  On the page's 800 x 600 board the
    first step of the engine therefore finds nine pairs of coins with
    coinciding centres, and leaves all eighteen at position NaN. *)
Theorem new_game_stacks_the_coins (mode : Game.GameMode) :
  (forall (N : Type) (num : Num N) (i : nat),
      (i < 9)%nat ->
      let coins := Game.coins (Game.initializeGame (N := N) mode) in
      option_map placed (map_get (Game.coinId "white_" i) coins)
      = Some (Game.getInitialCoinPosition Game.white i, lit 8, false)
      /\ option_map placed (map_get (Game.coinId "black_" i) coins)
         = Some (Game.getInitialCoinPosition Game.white i, lit 8, false))
  /\ (let r := step (Scenario3.opening mode) Scenario.tick in
      List.length (snd r) = 9%nat
      /\ forall i : nat,
           (i < 9)%nat ->
           lostBody (fst r) (Game.coinId "white_" i) = true
           /\ lostBody (fst r) (Game.coinId "black_" i) = true).
Proof.
  split.
  - intros N num i Hi. cbv zeta.
    do 9 (destruct i as [|i]; [split; vm_compute; reflexivity|]).
    lia.
  - destruct mode; cbv zeta; (split; [vm_compute; reflexivity|]); intros i Hi;
      do 9 (destruct i as [|i]; [split; vm_compute; reflexivity|]);
      lia.
Qed.
